(** * District-heating network kernel: coupling matrix, hydraulic direction
    correction, continuity equations, reference-node validation, thermal
    propagation.

    Shallow embedding of [simulation/Auxiliary_functions.py]
    ([make_matrix_coupl]), [simulation/hydraulic_equ_system.py]
    ([solve_network_hydr], [equ_network_forerun], [equ_network_return]),
    [simulation/thermal_equ_system.py] ([solve_network_therm]),
    [simulation/main_program.py] and [simulation/fcns_read.py]
    ([read_grid_setup]).

    Further parts of the program: [romanToInt] and [number_unknowns]
    ([simulation/Auxiliary_functions.py]), the sheet of the pipes read by
    [read_grid_setup], the residual functions with their pressure equations,
    the set-up of a hydraulic step and the discretisation of the pipes in
    [main_program], the segment update and the node mixing of
    [solve_network_therm], and [init_sim_data], [fill_mode_1],
    [fill_mode_2] and [get_season] ([simulation/fcns_gaps.py]).

    Conventions.
    - NumPy arrays are lists, read with [!!] or [!!!] and written with
      [<[i:=v]>]; the loops of the source index inside [range(0, shape[0])].
    - Floating-point numbers are idealised as rationals [Q], compared with
      [==].  A quotient whose denominator is zero (NumPy: nan or inf, no
      exception) is [None] in the type [fl] of temperatures.
    - A call that can raise returns [result]; a [while] loop is followed for
      a bounded number of passes and returns [outcome], whose [Running] says
      that the loop has not stopped yet.
    - [opt.fsolve] is a parameter: the pipe mass flows it leaves in
      [line.m_int_...] as a function of the coupling matrix. *)

From Stdlib Require Import ZArith QArith Qabs Qround Lia Lqa List Ascii.
From stdpp Require Import base tactics option list strings sets relations gmap.

Open Scope Z_scope.

(** ** Coupling matrix *)

(** [var_sim.matrix_coupl_forerun]: one row per node, one column per pipe,
    integer entries. *)
Abbreviation matrix := (list (list Z)).

Definition entry (M : matrix) (x_node x_line : nat) : Z :=
  match M !! x_node with
  | Some row => default 0 (row !! x_line)
  | None => 0
  end.

(** [M[x_node, x_line] = v] *)
Definition set_entry (M : matrix) (x_node x_line : nat) (v : Z) : matrix :=
  alter (fun row => <[x_line := v]> row) x_node M.

(** [np.zeros((n_node, n_line)).astype(int)] *)
Definition zeros (n_node n_line : nat) : matrix :=
  replicate n_node (replicate n_line 0).

(** The topology as [make_matrix_coupl] reads it: [line.node_start] and
    [line.node_end] hold, per pipe, the matrix number of its start and end
    node; [n_node = node.nbr_matrix.shape[0]], [n_line =
    line.nbr_matrix.shape[0]]. *)
Record topology := {
  n_node : nat;
  n_line : nat;
  node_start : list nat;
  node_end : list nat
}.

(** Body of the loop of [make_matrix_coupl] for one pipe. *)
Definition couple_line (tp : topology) (M : matrix) (x_line : nat) : matrix :=
  let M1 := set_entry M (node_start tp !!! x_line) x_line 1 in
  set_entry M1 (node_end tp !!! x_line) x_line (-1).

Definition make_matrix_coupl (tp : topology) : matrix :=
  foldl (couple_line tp) (zeros (n_node tp) (n_line tp)) (seq 0 (n_line tp)).

(** [matrix.transpose()] for an [n_node] x [n_line] matrix. *)
Definition transpose (n_node n_line : nat) (M : matrix) : matrix :=
  map (fun x_line => map (fun x_node => entry M x_node x_line) (seq 0 n_node))
      (seq 0 n_line).

(** The inner loop of the direction check of [solve_network_hydr]: every +1
    of the column becomes -1 and every -1 becomes +1. *)
Definition flip_entry (M : matrix) (x_line x_node : nat) : matrix :=
  if Z.eqb (entry M x_node x_line) 1 then set_entry M x_node x_line (-1)
  else if Z.eqb (entry M x_node x_line) (-1) then set_entry M x_node x_line 1
  else M.

Definition flip_column (n_node : nat) (M : matrix) (x_line : nat) : matrix :=
  foldl (fun M' x_node => flip_entry M' x_line x_node) M (seq 0 n_node).

(** [var_sim.matrix_coupl_forerun*(-1)] *)
Definition negate (M : matrix) : matrix := map (map Z.opp) M.

(** Well-shaped matrix: [n_node] rows of [n_line] entries. *)
Definition shaped (n_node n_line : nat) (M : matrix) : Prop :=
  length M = n_node /\ Forall (fun row => length row = n_line) M.

(** Number of rows of column [x_line] that hold the value [v]. *)
Definition count_in_column (n_node : nat) (M : matrix) (x_line : nat) (v : Z) : nat :=
  length (filter (fun x_node => entry M x_node x_line = v) (seq 0 n_node)).

(** The per-column invariant: exactly one +1, exactly one -1, the rest 0. *)
Definition column_ok (n_node : nat) (M : matrix) (x_line : nat) : Prop :=
  count_in_column n_node M x_line 1 = 1%nat /\
  count_in_column n_node M x_line (-1) = 1%nat /\
  forall x_node, (x_node < n_node)%nat ->
    entry M x_node x_line = 1 \/ entry M x_node x_line = -1 \/ entry M x_node x_line = 0.


(** Well-formed topology: the endpoint arrays index existing nodes (they are
    row numbers found by [read_grid_setup]). *)
Definition wf_topology (tp : topology) : Prop :=
  forall x_line, (x_line < n_line tp)%nat ->
    (node_start tp !!! x_line < n_node tp)%nat /\
    (node_end tp !!! x_line < n_node tp)%nat.

(** Each pipe's start node differs from its end node. *)
Definition distinct_endpoints (tp : topology) : Prop :=
  forall x_line, (x_line < n_line tp)%nat ->
    node_start tp !!! x_line <> node_end tp !!! x_line.

(** The value the two assignments of [couple_line] leave at row [x] of
    column [l]; the second assignment wins when both hit the same row. *)
Definition coupled_value (tp : topology) (x l : nat) : Z :=
  if decide (x = node_end tp !!! l) then -1
  else if decide (x = node_start tp !!! l) then 1 else 0.

(** What a flip does to one entry. *)
Definition flip_value (v : Z) : Z :=
  if Z.eqb v 1 then -1 else if Z.eqb v (-1) then 1 else v.

(** ** Hydraulic solver: direction correction *)

#[global] Instance Q_inhabited : Inhabited Q := populate 0%Q.

(** What a Python call does: it returns a value, raises (the run stops), or,
    for a [while] loop followed for a bounded number of iterations only, is
    still iterating. *)
Inductive outcome (A : Type) : Type :=
  | Returned (a : A)
  | Fatal (msg : string)
  | Running.
Arguments Returned {A} a.
Arguments Fatal {A} msg.
Arguments Running {A}.

(** What a Python call without such a loop does: it returns or raises. *)
Inductive result (A : Type) : Type :=
  | Ok (a : A)
  | Raised (msg : string).
Arguments Ok {A} a.
Arguments Raised {A} msg.

#[global] Instance result_bind : MBind result := fun A B f r =>
  match r with
  | Ok a => f a
  | Raised msg => Raised msg
  end.

(** The literal [-1e-10] of the direction check. *)
Definition neg_tol : Q := (-1 # 10000000000)%Q.

(** [m_int[x_line] < -1e-10] *)
Definition negative (m_int : list Q) (x_line : nat) : Prop :=
  (m_int !!! x_line < neg_tol)%Q.

#[global] Instance negative_dec m_int x_line : Decision (negative m_int x_line).
Proof.
  unfold negative. destruct (Qlt_le_dec (m_int !!! x_line) neg_tol) as [H|H].
  - left. exact H.
  - right. apply Qle_not_lt. exact H.
Defined.

(** State of one pass of "CHECK FLOW DIRECTIONS": the counter and the
    coupling matrix being corrected. *)
Record check_state := {
  cntr_wrong_direction : nat;
  coupl : matrix
}.

Definition check_line (n_node : nat) (m_int : list Q) (st : check_state)
    (x_line : nat) : check_state :=
  if decide (negative m_int x_line) then
    {| cntr_wrong_direction := S (cntr_wrong_direction st);
       coupl := flip_column n_node (coupl st) x_line |}
  else st.

Definition check_flow_directions (n_node n_line : nat) (m_int : list Q)
    (M : matrix) : check_state :=
  foldl (check_line n_node m_int)
        {| cntr_wrong_direction := 0; coupl := M |}
        (seq 0 n_line).

(** Result of one direction-correction loop: the corrected matrix and the
    pipe mass flows of the last solve. *)
Record corrected := {
  matrix_coupl : matrix;
  m_int : list Q
}.

Section DirectionCorrection.

(** [opt.fsolve(equ_network_..., input_solver_hydr_..., args)] as the loop
    sees it: the start vector and all arguments other than the coupling
    matrix stay the same during the loop, so the pipe mass flows left in
    [line.m_int_...] by the solve depend on the coupling matrix only. *)
Variable fsolve : matrix -> list Q.
Variables (nn nl : nat).

(** One iteration: solve, then check and flip. *)
Definition correction_pass (M : matrix) : check_state :=
  check_flow_directions nn nl (fsolve M) M.

(** The [while cntr_wrong_direction > 0] loop, followed for at most [fuel]
    solves.  The source has no other exit from it. *)
Fixpoint correction_loop (fuel : nat) (M : matrix) : outcome corrected :=
  match fuel with
  | O => Running
  | S fuel' =>
      let st := correction_pass M in
      if (0 <? cntr_wrong_direction st)%nat
      then correction_loop fuel' (coupl st)
      else Returned {| matrix_coupl := coupl st; m_int := fsolve M |}
  end.

(** The matrix the solve number [k] (from 0) of the loop works on. *)
Fixpoint matrix_at (k : nat) (M : matrix) : matrix :=
  match k with
  | O => M
  | S k' => matrix_at k' (coupl (correction_pass M))
  end.

(** How many of the first [k] solves yielded a mass flow below [-1e-10]
    for pipe [x_line]. *)
Fixpoint negative_solves (k : nat) (M : matrix) (x_line : nat) : nat :=
  match k with
  | O => 0
  | S k' =>
      (if decide (negative (fsolve M) x_line) then 1 else 0) +
      negative_solves k' (coupl (correction_pass M)) x_line
  end.

End DirectionCorrection.

(** Some pipe of the solve has a mass flow below [-1e-10]. *)
Definition has_negative (nl : nat) (m : list Q) : Prop :=
  exists x_line, (x_line < nl)%nat /\ negative m x_line.

(** Column [x_line] of the matrix, top to bottom. *)
Definition column (nn : nat) (M : matrix) (x_line : nat) : list Z :=
  map (fun x_node => entry M x_node x_line) (seq 0 nn).

(** What [solve_network_hydr] leaves behind for one hydraulic step. *)
Record hydr_result := {
  matrix_coupl_forerun : matrix;
  matrix_coupl_return : matrix;
  m_int_forerun : list Q;
  m_int_return : list Q
}.

Definition solve_network_hydr (fsolve_forerun fsolve_return : matrix -> list Q)
    (nn nl fuel : nat) (M : matrix) : outcome hydr_result :=
  match correction_loop fsolve_forerun nn nl fuel M with
  | Returned f =>
      match correction_loop fsolve_return nn nl fuel (negate (matrix_coupl f)) with
      | Returned r =>
          Returned {| matrix_coupl_forerun := matrix_coupl f;
                      matrix_coupl_return := matrix_coupl r;
                      m_int_forerun := m_int f;
                      m_int_return := m_int r |}
      | Fatal msg => Fatal msg
      | Running => Running
      end
  | Fatal msg => Fatal msg
  | Running => Running
  end.

(** ** Hydraulic equation system *)

(** [math.pi], the double nearest to pi, as the rational it is. *)
Definition math_pi : Q := (884279719003555 # 281474976710656)%Q.

(** Pipe data read by the pressure equations. *)
Record line_data := {
  dia : list Q;
  lambd : list Q;
  l_len : list Q;
  zeta : list Q
}.

(** Node data of one flow direction ([node.p_forerun], [node.p_ref_forerun],
    [node.m_ext_forerun], [node.m_ext_forerun_check] or their return
    counterparts) and the elevations.  [None] is Python's [None]. *)
Record node_data := {
  p : list (option Q);
  p_ref : list (option Q);
  m_ext : list (option Q);
  m_ext_check : list (option Q);
  h_coord : list Q
}.

(** The loops "START VALUES FOR UNKNOWNS" over the nodes: an entry whose flag
    is [None] takes the next start variable.  A start vector that is too
    short raises [IndexError] ([None] here), unless the assignment sits in
    the [try] of [equ_network_forerun] ([catch]), which prints "Fehler" and
    goes on. *)
Definition assign_unknown (catch : bool) (flags : list (option Q)) (sv : list Q)
    (acc : option (list (option Q) * nat)) (x_node : nat)
    : option (list (option Q) * nat) :=
  '(arr, cntr_var) ← acc;
  match flags !! x_node with
  | Some None =>
      match sv !! cntr_var with
      | Some v => Some (<[x_node := Some v]> arr, S cntr_var)
      | None => if catch then Some (arr, S cntr_var) else None
      end
  | Some (Some _) => Some (arr, cntr_var)
  | None => None
  end.

Definition assign_unknowns (catch : bool) (flags : list (option Q)) (sv : list Q)
    (n : nat) (arr : list (option Q)) (cntr_var : nat)
    : option (list (option Q) * nat) :=
  foldl (assign_unknown catch flags sv) (Some (arr, cntr_var)) (seq 0 n).

(** "CONTINUITY EQUATION FOR EACH NODE": the inner loop over the pipes. *)
Definition continuity_sum (M : matrix) (nl : nat) (m_int : list Q) (x_node : nat) : Q :=
  foldl (fun equ x_line =>
           if Z.eqb (entry M x_node x_line) 0 then equ
           else (equ + inject_Z (entry M x_node x_line) * (m_int !!! x_line))%Q)
        0%Q (seq 0 nl).

(** The residual of one node: the external mass flow is subtracted when it
    is not zero; an external mass flow that is still [None] raises. *)
Definition continuity_equ (M : matrix) (nl : nat) (m_int : list Q)
    (m_ext : list (option Q)) (x_node : nat) : option Q :=
  let equ := continuity_sum M nl m_int x_node in
  match m_ext !! x_node with
  | Some (Some m) => if Qeq_bool m 0 then Some equ else Some (equ - m)%Q
  | _ => None
  end.

(** "PRESSURE EQUATION FOR EACH LINE" *)
Definition pressure_sum (Mt : matrix) (nn : nat) (p : list (option Q))
    (h_coord : list Q) (rho g : Q) (x_line : nat) : option Q :=
  foldl (fun acc x_node =>
           equ ← acc;
           if Z.eqb (entry Mt x_line x_node) 0 then Some equ
           else
             p_x ← mjoin (p !! x_node);
             Some (equ + inject_Z (entry Mt x_line x_node) *
                         (p_x + rho * g * (h_coord !!! x_node)))%Q)
        (Some 0%Q) (seq 0 nn).

Definition pressure_equ (Mt : matrix) (nn : nat) (p : list (option Q))
    (h_coord : list Q) (rho g : Q) (line : line_data) (m_int : list Q)
    (x_line : nat) : option Q :=
  equ ← pressure_sum Mt nn p h_coord rho g x_line;
  Some (equ - ((8 * (m_int !!! x_line) ^ 2) /
               ((dia line !!! x_line) ^ 4 * math_pi ^ 2 * rho)) *
              ((lambd line !!! x_line) * ((l_len line !!! x_line) / (dia line !!! x_line))
               + (zeta line !!! x_line)))%Q.

(** What one evaluation of the residual function leaves behind: the pipe
    mass flows and node data it wrote, and the residual vector it returns. *)
Record evaluation := {
  ev_m_int : list Q;
  ev_node : node_data;
  ev_residuals : list Q
}.

(** [equ_network_forerun] ([catch = true]) and [equ_network_return]
    ([catch = false]); [None] when the call raises. *)
Definition equ_network (catch : bool) (start_variables : list Q)
    (nn nl : nat) (line : line_data) (node : node_data)
    (M Mt : matrix) (rho g : Q) : option evaluation :=
  m_int' ← mapM (fun x_line => start_variables !! x_line) (seq 0 nl);
  cntr_var ← (if decide (nl = 0)%nat then None else Some nl);
  '(p', cntr_var) ← assign_unknowns false (p_ref node) start_variables nn (p node) cntr_var;
  '(m_ext', _) ← assign_unknowns catch (m_ext_check node) start_variables
                   (length (m_ext node)) (m_ext node) cntr_var;
  cont ← mapM (continuity_equ M nl m_int' m_ext') (seq 0 nn);
  pres ← mapM (pressure_equ Mt nn p' (h_coord node) rho g line m_int') (seq 0 nl);
  Some {| ev_m_int := m_int';
          ev_node := {| p := p'; p_ref := p_ref node; m_ext := m_ext';
                        m_ext_check := m_ext_check node; h_coord := h_coord node |};
          ev_residuals := cont ++ pres |}.


(** Following the specification's words: the pipes incident to a node, and
    the signed sum of their mass flows per the coupling matrix. *)
Definition incident (M : matrix) (nl x_node : nat) : list nat :=
  filter (fun x_line => entry M x_node x_line <> 0) (seq 0 nl).

Definition signed_sum (M : matrix) (nl : nat) (m_int : list Q) (x_node : nat) : Q :=
  foldr (fun x_line acc => (inject_Z (entry M x_node x_line) * (m_int !!! x_line) + acc)%Q)
        0%Q (incident M nl x_node).

(** One feeder (node 0, reference pressure, unknown external flow), one
    distributor (node 1), one consumer (node 2). *)
Definition Example_line : line_data :=
  {| dia := [(1#10); (1#10)]%Q; lambd := [(1#50); (1#50)]%Q;
     l_len := [100; 50]%Q; zeta := [0; 0]%Q |}.

Definition Example_node : node_data :=
  {| p := [Some 500000%Q; None; None];
     p_ref := [Some 500000%Q; None; None];
     m_ext := [None; Some 0%Q; Some (-2)%Q];
     m_ext_check := [None; Some 0%Q; Some (-2)%Q];
     h_coord := [0; 0; 0]%Q |}.

Definition Example_start : list Q := [2; 2; 499000; 498000; 2]%Q.

(** ** Roman numerals *)

(** The dictionary [roman] of [romanToInt]. *)
Definition roman : gmap string nat :=
  list_to_map
    [("I", 1); ("V", 5); ("X", 10); ("L", 50); ("C", 100); ("D", 500);
     ("M", 1000); ("IV", 4); ("IX", 9); ("XL", 40); ("XC", 90); ("CD", 400);
     ("CM", 900)]%nat.

(** [romanToInt]: the [while] loop over the index [i], as a recursion over
    the rest [s[i:]] of the string with the number read so far.  When
    two characters are left and they are a key of [roman], both are
    consumed; otherwise one is, and a character that is no key raises
    [KeyError]. *)
Fixpoint romanToInt_from (s : string) (num : nat) : result nat :=
  match s with
  | EmptyString => Ok num
  | String a EmptyString =>
      match roman !! String a EmptyString with
      | Some v => Ok (num + v)%nat
      | None => Raised ("KeyError: " +:+ String a EmptyString)
      end
  | String a (String b rest as tl) =>
      match roman !! String a (String b EmptyString) with
      | Some v => romanToInt_from rest (num + v)%nat
      | None =>
          match roman !! String a EmptyString with
          | Some v => romanToInt_from tl (num + v)%nat
          | None => Raised ("KeyError: " +:+ String a EmptyString)
          end
      end
  end.

Definition romanToInt (s : string) : result nat := romanToInt_from s 0.

(** [sheet.cell(...).value == v] *)
Definition is_cell (c : option string) (v : string) : bool :=
  match c with
  | Some s => if decide (s = v) then true else false
  | None => false
  end.

(** [Auxiliary_functions.romanToInt(sheet.cell(...).value)] *)
Definition romanToInt_cell (c : option string) : result nat :=
  match c with
  | Some s => romanToInt s
  | None => Raised "TypeError: object of type 'NoneType' has no len()"
  end.

(** ** Reading the nodes and the reference-pressure check *)

(** The cells of one row of sheet "Knoten" that decide which nodes are read
    and which is the pressure reference. *)
Record node_row := {
  col_number : option string;      (* column 1: roman numeral *)
  col_in_use : option string;      (* column 2: "ja" when the node is used *)
  col_p_ref : option string;       (* column 7: "x" marks the reference node *)
  col_feed_in : option string;     (* column 8: feeder id *)
  col_gapfilling : option string   (* column 23: "x" marks the gapfilling node *)
}.

Record grid_nodes := {
  nbr_orig_arabic : list nat;
  nbr_matrix : list nat;
  p_ref_nodes : list nat;
  feed_in_ids : list (option string);
  gapfilling_node : list nat
}.

(** Body of the loop over the rows in [read_grid_setup]: the numeral of
    column 1 is read by [romanToInt] before anything else that can raise. *)
Definition read_node_row (acc : result grid_nodes) (row : node_row) : result grid_nodes :=
  match acc with
  | Ok nd =>
      if is_cell (col_in_use row) "ja" then
        match romanToInt_cell (col_number row) with
        | Raised msg => Raised msg
        | Ok arabic =>
            let x_node := length (nbr_matrix nd) in
            let flag := if is_cell (col_gapfilling row) "x" then 1%nat else 0%nat in
            let nd' (refs : list nat) :=
              {| nbr_orig_arabic := nbr_orig_arabic nd ++ [arabic];
                 nbr_matrix := nbr_matrix nd ++ [x_node];
                 p_ref_nodes := refs;
                 feed_in_ids := feed_in_ids nd ++ [col_feed_in row];
                 gapfilling_node := gapfilling_node nd ++ [flag] |} in
            if is_cell (col_p_ref row) "x" then
              match col_feed_in row with
              | None =>
                  Raised ("Node " +:+ default "None" (col_number row) +:+
                         " is set as the reference point for pressure, but it is not a feeder. Please set the reference point to a feeder.")
              | Some _ => Ok (nd' (p_ref_nodes nd ++ [x_node]))
              end
            else Ok (nd' (p_ref_nodes nd))
        end
      else Ok nd
  | Raised msg => Raised msg
  end.

(** The node part of [read_grid_setup], with its closing check. *)
Definition no_nodes : grid_nodes :=
  {| nbr_orig_arabic := []; nbr_matrix := []; p_ref_nodes := []; feed_in_ids := [];
     gapfilling_node := [] |}.

Definition read_grid_setup (rows : list node_row) : result grid_nodes :=
  match foldl read_node_row (Ok no_nodes) rows with
  | Ok nd =>
      if (1 <? list_sum (gapfilling_node nd))%nat
      then Raised ("More than one node was designated as gapfilling node. " +:+
                   "                        Please check the input file.")
      else Ok nd
  | Raised msg => Raised msg
  end.

(** How far [main_program] gets before its main loop, where the first
    hydraulic solve is made. *)
Inductive startup : Type :=
  | RaisedWhileReading (msg : string)
  | ExitedAtSanityCheck (msg : string)
  | EntersMainLoop (nd : grid_nodes).

(** [main_program] up to the main loop, as far as [node.p_ref] decides it:
    the sheet of the pipes, the measurement files and the initialisation of
    the pipe arrays, which do not touch [node.p_ref] and can only make
    [main_program] raise before its sanity check, are left out. *)
Definition main_program_startup (rows : list node_row) : startup :=
  match read_grid_setup rows with
  | Raised msg => RaisedWhileReading msg
  | Ok nd =>
      if (length (p_ref_nodes nd) =? 0)%nat then
        ExitedAtSanityCheck "No node has been specified for the reference pressure. Please specify exactly one node."
      else if (1 <? length (p_ref_nodes nd))%nat then
        ExitedAtSanityCheck "More than one node has been specified for the reference pressure. Please specify exactly one node."
      else EntersMainLoop nd
  end.

(** A row is flagged as the pressure reference. *)
Definition flagged (row : node_row) : bool :=
  is_cell (col_in_use row) "ja" && is_cell (col_p_ref row) "x".

Definition Example_rows_two_refs : list node_row :=
  [ {| col_number := Some "I"; col_in_use := Some "ja"; col_p_ref := Some "x";
       col_feed_in := Some "HW1"; col_gapfilling := None |};
    {| col_number := Some "II"; col_in_use := Some "ja"; col_p_ref := Some "x";
       col_feed_in := Some "HW2"; col_gapfilling := None |};
    {| col_number := Some "III"; col_in_use := Some "ja"; col_p_ref := None;
       col_feed_in := None; col_gapfilling := None |} ].

Definition Example_rows_ref_not_feeder : list node_row :=
  [ {| col_number := Some "I"; col_in_use := Some "ja"; col_p_ref := None;
       col_feed_in := Some "HW1"; col_gapfilling := None |};
    {| col_number := Some "II"; col_in_use := Some "ja"; col_p_ref := Some "x";
       col_feed_in := None; col_gapfilling := None |} ].

(** ** Thermal solver: forerun propagation *)

(** A temperature as NumPy holds it: a finite number, or [None] once a
    quotient with a zero denominator (nan, inf) has entered it. *)
Abbreviation fl := (option Q).

(** [a / b] on NumPy floats. *)
Definition np_div (a b : Q) : fl :=
  if Qeq_bool b 0 then None else Some (a / b)%Q.

(** [a < b] on floats. *)
Definition Qlt_bool (a b : Q) : bool := negb (Qle_bool b a).

(** A 0/1 array entry read as a truth value. *)
Definition flag (a : list bool) (i : nat) : bool := default false (a !! i).

(** The two kinds of write the propagation makes on temperatures; the state
    below records each one as it happens. *)
Inductive event : Type :=
  | NodeAssigned (x_node : nat)
  | LineAdvanced (x_line : nat).

#[global] Instance event_eq_dec : EqDecision event.
Proof. solve_decision. Defined.

(** What one thermal substep reads, for one flow direction: the corrected
    coupling matrix, the mass flows of the hydraulic step
    ([node.m_ext_..._trans[x][cntr_time_hyd]], equal to [node.m_ext_...[x]],
    and [line.m_int_..._trans[x][cntr_time_hyd]]), and the measured or
    gap-filled series at [cntr_time_hyd] ([None] where the node has none). *)
Record therm_input := {
  node_count : nat;
  line_count : nat;
  coupling : matrix;
  m_ext_trans : list Q;
  m_int_trans : list Q;
  feed_in : list (option string);
  p_ref_list : list nat;
  temp_flow_feed : list (option Q);
  V_dot_feed : list (option Q);
  Q_dot_sim : list (option Q);
  V_dot_sim : list (option Q);
  line_dia : list Q;
  line_htc : list Q;
  line_dx : list Q;
  rho : Q;
  c_p : Q;
  temp_soil : Q;
  delta_time_therm : Q
}.

(** The arrays one substep writes: [node_calc_...], [line_calc_...], the
    [..._now] arrays, the nodes' temperatures of this substep
    ([node.t_..._trans[x][cntr_time_therm_...]]), the segment temperatures
    ([line.t_...]), and the record of the writes. *)
Record therm_state := {
  node_calc : list bool;
  line_calc : list bool;
  node_calc_now : list bool;
  line_calc_now : list bool;
  t_trans : list fl;
  t_line : list (list fl);
  events : list event
}.

(** [node.t_..._trans[x_node][cntr] = t] *)
Definition assign_node (x_node : nat) (t : fl) (st : therm_state) : therm_state :=
  {| node_calc := node_calc st; line_calc := line_calc st;
     node_calc_now := node_calc_now st; line_calc_now := line_calc_now st;
     t_trans := <[x_node := t]> (t_trans st); t_line := t_line st;
     events := events st ++ [NodeAssigned x_node] |}.

(** [node_calc_...[x_node] = 1] *)
Definition mark_node (x_node : nat) (st : therm_state) : therm_state :=
  {| node_calc := <[x_node := true]> (node_calc st); line_calc := line_calc st;
     node_calc_now := node_calc_now st; line_calc_now := line_calc_now st;
     t_trans := t_trans st; t_line := t_line st; events := events st |}.

(** [line.t_...[x_line] = t; line_calc_...[x_line] = 1] *)
Definition advance (x_line : nat) (t : list fl) (st : therm_state) : therm_state :=
  {| node_calc := node_calc st; line_calc := <[x_line := true]> (line_calc st);
     node_calc_now := node_calc_now st; line_calc_now := line_calc_now st;
     t_trans := t_trans st; t_line := <[x_line := t]> (t_line st);
     events := events st ++ [LineAdvanced x_line] |}.

Definition set_node_calc_now (a : list bool) (st : therm_state) : therm_state :=
  {| node_calc := node_calc st; line_calc := line_calc st;
     node_calc_now := a; line_calc_now := line_calc_now st;
     t_trans := t_trans st; t_line := t_line st; events := events st |}.

Definition set_line_calc_now (a : list bool) (st : therm_state) : therm_state :=
  {| node_calc := node_calc st; line_calc := line_calc st;
     node_calc_now := node_calc_now st; line_calc_now := a;
     t_trans := t_trans st; t_line := t_line st; events := events st |}.

(** [collections.Counter(matrix[x_node])[v]] *)
Definition count_row (inp : therm_input) (x_node : nat) (v : Z) : nat :=
  length (filter (fun x_line => entry (coupling inp) x_node x_line = v)
                 (seq 0 (line_count inp))).

(** The explicit upwind step of one segment: [t + dTdt * delta_time_therm];
    [loss_area] is the factor of the heat-loss term as the call site writes
    it. *)
Definition segment_update (inp : therm_input) (loss_area : Q) (x_line : nat)
    (T_up T : fl) : fl :=
  t_up ← T_up;
  t ← T;
  dTdt ← np_div
    ((m_int_trans inp !!! x_line) * c_p inp * (t_up - t)
     - (line_htc inp !!! x_line) * (t - temp_soil inp) * loss_area)
    (rho inp * c_p inp * (line_dx inp !!! x_line) * math_pi
     * (line_dia inp !!! x_line) ^ 2 / 4);
  Some (t + dTdt * delta_time_therm inp)%Q.

(** [line.t + line.dTdt * delta_time_therm] for a whole pipe: segment 0 sees
    the inlet temperature, segment [i] the old temperature of segment
    [i - 1]. *)
Definition advance_line (inp : therm_input) (loss_area : Q) (x_line : nat)
    (inlet : fl) (t : list fl) : list fl :=
  zip_with (segment_update inp loss_area x_line) (inlet :: t) t.

(** The heat-loss factors: [math.pi * dia * dx] and plain [dx]. *)
Definition loss_pi_dia_dx (inp : therm_input) (x_line : nat) : Q :=
  (math_pi * (line_dia inp !!! x_line) * (line_dx inp !!! x_line))%Q.

Definition loss_dx (inp : therm_input) (x_line : nat) : Q :=
  line_dx inp !!! x_line.

(** [line.t_...[x_line][-1]]: the outlet (last-segment) temperature.  Pipes
    have at least one segment. *)
Definition outlet (st : therm_state) (x_line : nat) : fl :=
  mjoin (last (t_line st !!! x_line)).

(** "FIRST ENERGY BALANCES OF NODES AND PIPES - FLOW" *)
Definition forerun_seed_line (inp : therm_input) (x_node : nat) (T_feed : Q)
    (st : therm_state) (x_line : nat) : therm_state :=
  if Z.eqb (entry (coupling inp) x_node x_line) 1 then
    mark_node x_node
      (advance x_line
         (advance_line inp (loss_pi_dia_dx inp x_line) x_line (Some T_feed)
            (t_line st !!! x_line)) st)
  else st.

Definition forerun_seed_node (inp : therm_input) (acc : result therm_state)
    (x_node : nat) : result therm_state :=
  st ← acc;
  if Qle_bool 0 (m_ext_trans inp !!! x_node) && (count_row inp x_node (-1) =? 0)%nat then
    match mjoin (temp_flow_feed inp !! x_node) with
    | None => Raised "TypeError: 'NoneType' object is not subscriptable"
    | Some T_feed =>
        Ok (foldl (forerun_seed_line inp x_node T_feed)
                  (assign_node x_node (Some T_feed) st)
                  (seq 0 (line_count inp)))
    end
  else Ok st.

(** "FIND NODES WHICH CAN BE SOLVED AT CURRENT SIMULATION STEP" *)
Definition incoming_with (inp : therm_input) (st : therm_state) (x_node : nat)
    (known : bool) : nat :=
  length (filter (fun x_line => entry (coupling inp) x_node x_line = -1 /\
                                flag (line_calc st) x_line = known)
                 (seq 0 (line_count inp))).

Definition find_node (inp : therm_input) (st : therm_state) (x_node : nat) : therm_state :=
  if negb (flag (node_calc st) x_node) then
    let sum_t_int_out_unkn := incoming_with inp st x_node false in
    let sum_t_int_out_known := incoming_with inp st x_node true in
    if (sum_t_int_out_unkn =? 0)%nat && (0 <? sum_t_int_out_known)%nat
    then set_node_calc_now (<[x_node := true]> (node_calc_now st)) st
    else st
  else st.

(** The running sums [sum_1], [sum_2] of a mixing computation. *)
Definition add_inflow (inp : therm_input) (st : therm_state) (x_node : nat)
    (sums : fl * Q) (x_line : nat) : fl * Q :=
  if Z.eqb (entry (coupling inp) x_node x_line) (-1) then
    (s1 ← sums.1; t ← outlet st x_line;
     Some (s1 + t * (m_int_trans inp !!! x_line))%Q,
     (sums.2 + m_int_trans inp !!! x_line)%Q)
  else sums.

Definition mix_sums (inp : therm_input) (st : therm_state) (x_node : nat)
    (init : fl * Q) : fl * Q :=
  foldl (add_inflow inp st x_node) init (seq 0 (line_count inp)).

(** [sum_1 / sum_2] *)
Definition quotient (sums : fl * Q) : fl := s1 ← sums.1; np_div s1 sums.2.

(** The first pipe that ends at the node ([x_line_ref]). *)
Definition first_incoming (inp : therm_input) (x_node : nat) : option nat :=
  head (filter (fun x_line => entry (coupling inp) x_node x_line = -1)
               (seq 0 (line_count inp))).

(** [v != None] *)
Definition is_Some_b {A : Type} (v : option A) : bool :=
  match v with Some _ => true | None => false end.

(** A value is true in Python. *)
Definition truthy (id : option string) : bool :=
  match id with
  | Some s => if decide (s = "") then false else true
  | None => false
  end.

(** "ENERGY BALANCES OF THE NODES WHICH CAN BE SOLVED" for the forerun: the
    temperature assigned to the node, [Ok None] when the branch taken assigns
    none. *)
Definition forerun_node_balance (inp : therm_input) (st : therm_state)
    (x_node : nat) : result (option fl) :=
  let sum_line_in := count_row inp x_node (-1) in
  let m := m_ext_trans inp !!! x_node in
  if Qeq_bool m 0 || Qlt_bool m 0 then
    if (sum_line_in =? 1)%nat then
      match first_incoming inp x_node with
      | Some x_line_ref => Ok (Some (outlet st x_line_ref))
      | None => Raised "NameError: x_line_ref"
      end
    else Ok (Some (quotient (mix_sums inp st x_node (Some 0%Q, 0%Q))))
  else if (0 <? sum_line_in)%nat then
    m_ext_current ←
      (if truthy (default None (feed_in inp !! x_node)) &&
          bool_decide (x_node ∈ p_ref_list inp)
       then match mjoin (V_dot_feed inp !! x_node) with
            | Some V => Ok (V * rho inp / 1000)%Q
            | None => Raised "TypeError: 'NoneType' object is not subscriptable"
            end
       else Raised "TypeError: 'float' object is not subscriptable");
    match mjoin (temp_flow_feed inp !! x_node) with
    | None => Raised "TypeError: 'NoneType' object is not subscriptable"
    | Some T_feed =>
        Ok (Some (quotient (mix_sums inp st x_node
                              (Some (T_feed * m_ext_current)%Q, m_ext_current))))
    end
  else Ok None.

Definition forerun_solve_node (inp : therm_input) (acc : result therm_state)
    (x_node : nat) : result therm_state :=
  st ← acc;
  if flag (node_calc_now st) x_node then
    t ← forerun_node_balance inp st x_node;
    match t with
    | Some t => Ok (mark_node x_node (assign_node x_node t st))
    | None => Ok st
    end
  else Ok st.

(** "DETERMINE PIPES WHICH CAN BE SOLVED AT THE CURRENT SIMULATION STEP" *)
Definition find_line (inp : therm_input) (st : therm_state) (x_line : nat) : therm_state :=
  if negb (flag (line_calc st) x_line) then
    if bool_decide (Exists (fun x_node => entry (coupling inp) x_node x_line = 1 /\
                                          flag (node_calc st) x_node = true)
                           (seq 0 (node_count inp)))
    then set_line_calc_now (<[x_line := true]> (line_calc_now st)) st
    else st
  else st.

(** The first node the pipe starts at ([x_node_ref]). *)
Definition first_start (inp : therm_input) (x_line : nat) : option nat :=
  head (filter (fun x_node => entry (coupling inp) x_node x_line = 1)
               (seq 0 (node_count inp))).

(** "TRANSIENT THERMAL CALCULATIONS OF THE PIPES WHICH CAN BE PERFORMED" *)
Definition forerun_solve_line (inp : therm_input) (acc : result therm_state)
    (x_line : nat) : result therm_state :=
  st ← acc;
  if flag (line_calc_now st) x_line then
    match first_start inp x_line with
    | Some x_node_ref =>
        Ok (advance x_line
              (advance_line inp (loss_dx inp x_line) x_line
                 (mjoin (t_trans st !! x_node_ref)) (t_line st !!! x_line)) st)
    | None => Raised "NameError: x_node_ref"
    end
  else Ok st.

(** The arrays of zeros. *)
Definition zeros_flags (n : nat) : list bool := replicate n false.

(** [sum(a) == len(a)] for a 0/1 array. *)
Definition all_done (a : list bool) : bool := forallb (fun b => b) a.

(** One pass through the body of the forerun [while calc_therm == 1]. *)
Definition forerun_iteration (inp : therm_input) (st : therm_state) : result therm_state :=
  let st := foldl (find_node inp) st (seq 0 (node_count inp)) in
  st ← foldl (forerun_solve_node inp) (Ok st) (seq 0 (node_count inp));
  let st := set_node_calc_now (zeros_flags (node_count inp)) st in
  let st := foldl (find_line inp) st (seq 0 (line_count inp)) in
  st ← foldl (forerun_solve_line inp) (Ok st) (seq 0 (line_count inp));
  Ok (set_line_calc_now (zeros_flags (line_count inp)) st).

(** The loop, followed for at most [fuel] passes. *)
Fixpoint forerun_loop (fuel : nat) (inp : therm_input) (st : therm_state)
    : outcome therm_state :=
  match fuel with
  | O => Running
  | S fuel' =>
      match forerun_iteration inp st with
      | Raised msg => Fatal msg
      | Ok st' =>
          if all_done (line_calc st') && all_done (node_calc st')
          then Returned st'
          else forerun_loop fuel' inp st'
      end
  end.

(** The state at the start of a substep: all flags 0, the nodes' new
    temperature entries 0.0, the segment temperatures as the previous
    substep left them. *)
Definition initial_state (inp : therm_input) (t_line0 : list (list fl)) : therm_state :=
  {| node_calc := zeros_flags (node_count inp);
     line_calc := zeros_flags (line_count inp);
     node_calc_now := zeros_flags (node_count inp);
     line_calc_now := zeros_flags (line_count inp);
     t_trans := replicate (node_count inp) (Some 0%Q);
     t_line := t_line0;
     events := [] |}.

(** The forerun part of one thermal substep of [solve_network_therm]. *)
Definition forerun_substep (fuel : nat) (inp : therm_input)
    (t_line0 : list (list fl)) : outcome therm_state :=
  match foldl (forerun_seed_node inp) (Ok (initial_state inp t_line0))
              (seq 0 (node_count inp)) with
  | Raised msg => Fatal msg
  | Ok st => forerun_loop fuel inp st
  end.

(** ** Thermal solver: return-side node balances *)

(** What the return side of a substep reads besides [therm_input] (whose
    matrix and mass flows are then the return ones): the nodes' forerun
    temperatures of this substep, the forerun and return temperatures at
    index [cntr_time_therm_return - 1], and [var_sim.cntr_time_hyd]. *)
Record return_context := {
  t_forerun_now : list fl;
  t_forerun_prev : list fl;
  t_return_prev : list fl;
  cntr_time_hyd : nat
}.

(** [if t < var_sim.temp_soil[-1]: soil else: t]; a comparison with nan is
    false. *)
Definition clip_at_soil (inp : therm_input) (t : fl) : fl :=
  match t with
  | Some v => if Qlt_bool v (temp_soil inp) then Some (temp_soil inp) else Some v
  | None => None
  end.

(** [T_f - Q*1000/(V/1000*rho*c_p)] *)
Definition energy_balance (inp : therm_input) (T_f : fl) (Q_current V_current : Q) : fl :=
  t_f ← T_f;
  d ← np_div (Q_current * 1000) (V_current / 1000 * rho inp * c_p inp);
  Some (t_f - d)%Q.

(** The temperature "FIRST ENERGY BALANCES OF NODES AND PIPES - RETURN"
    assigns to a start node of the return side. *)
Definition return_seed_temp (inp : therm_input) (ctx : return_context)
    (x_node : nat) : result fl :=
  let m := m_ext_trans inp !!! x_node in
  let T_f := mjoin (t_forerun_now ctx !! x_node) in
  if Qeq_bool m 0 then
    if (cntr_time_hyd ctx =? 0)%nat then Ok T_f
    else
      Ok (t_f ← T_f;
          t_f_last ← mjoin (t_forerun_prev ctx !! x_node);
          t_r_last ← mjoin (t_return_prev ctx !! x_node);
          Some (t_f - (t_f_last - t_r_last))%Q)
  else
    match default None (feed_in inp !! x_node) with
    | None =>
        match mjoin (Q_dot_sim inp !! x_node) with
        | Some Q_current =>
            let V_current := (m / rho inp * 1000)%Q in
            Ok (clip_at_soil inp (energy_balance inp T_f Q_current V_current))
        | None => Raised "TypeError: 'NoneType' object is not subscriptable"
        end
    | Some id =>
        Raised ("ValueError: Umkehr der Strömungsrichtung bei Einspeiser "
                +:+ id +:+ " festgestellt!")
    end.

Definition return_seed_line (inp : therm_input) (x_node : nat) (T : fl)
    (st : therm_state) (x_line : nat) : therm_state :=
  if Z.eqb (entry (coupling inp) x_node x_line) 1 then
    mark_node x_node
      (advance x_line
         (advance_line inp (loss_dx inp x_line) x_line T (t_line st !!! x_line)) st)
  else st.

Definition return_seed_node (inp : therm_input) (ctx : return_context)
    (acc : result therm_state) (x_node : nat) : result therm_state :=
  st ← acc;
  if Qle_bool 0 (m_ext_trans inp !!! x_node) && (count_row inp x_node (-1) =? 0)%nat then
    T ← return_seed_temp inp ctx x_node;
    Ok (foldl (return_seed_line inp x_node T) (assign_node x_node T st)
              (seq 0 (line_count inp)))
  else Ok st.

(** [if sum_2 != 0: sum_1/sum_2 else: t_return_trans[x][cntr - 1]] *)
Definition guarded_quotient (ctx : return_context) (x_node : nat) (sums : fl * Q) : fl :=
  if Qeq_bool sums.2 0 then mjoin (t_return_prev ctx !! x_node)
  else quotient sums.

(** "ENERGY BALANCES OF THE NODES WHICH CAN BE SOLVED" for the return: the
    values assigned to the node's temperature, in order; the last one is
    the one stored. *)
Definition return_node_balance (inp : therm_input) (ctx : return_context)
    (st : therm_state) (x_node : nat) : result (list fl) :=
  let sum_line_in := count_row inp x_node (-1) in
  let m := m_ext_trans inp !!! x_node in
  if Qeq_bool m 0 then
    if (sum_line_in =? 1)%nat then
      match first_incoming inp x_node with
      | Some x_line_ref => Ok [outlet st x_line_ref]
      | None => Raised "NameError: x_line_ref"
      end
    else Ok [guarded_quotient ctx x_node (mix_sums inp st x_node (Some 0%Q, 0%Q))]
  else if Qlt_bool 0 m && negb (is_Some_b (default None (feed_in inp !! x_node))) then
    match mjoin (Q_dot_sim inp !! x_node), mjoin (V_dot_sim inp !! x_node) with
    | Some Q_current, Some V_current =>
        let temp_ext_return :=
          energy_balance inp (mjoin (t_forerun_now ctx !! x_node)) Q_current V_current in
        Ok [clip_at_soil inp temp_ext_return;
            guarded_quotient ctx x_node
              (mix_sums inp st x_node
                 (t ← temp_ext_return; Some (t * m)%Q, m))]
    | _, _ => Raised "TypeError: 'NoneType' object is not subscriptable"
    end
  else if (0 <? sum_line_in)%nat then
    Ok [quotient (mix_sums inp st x_node (Some 0%Q, 0%Q))]
  else Ok [].

(** The value left in the node's temperature entry. *)
Definition stored (writes : list fl) : fl := mjoin (last writes).

(** One node of the return's "ENERGY BALANCES": each value of the balance is
    written to the node's entry in turn, then [node_calc_return[x_node] = 1];
    a branch that assigns nothing leaves the node unsolved. *)
Definition return_solve_node (inp : therm_input) (ctx : return_context)
    (acc : result therm_state) (x_node : nat) : result therm_state :=
  st ← acc;
  if flag (node_calc_now st) x_node then
    writes ← return_node_balance inp ctx st x_node;
    match writes with
    | [] => Ok st
    | _ => Ok (mark_node x_node
                 (foldl (fun st' t => assign_node x_node t st') st writes))
    end
  else Ok st.

(** "TRANSIENT THERMAL CALCULATIONS OF THE PIPES" for the return. *)
Definition return_solve_line (inp : therm_input) (acc : result therm_state)
    (x_line : nat) : result therm_state :=
  st ← acc;
  if flag (line_calc_now st) x_line then
    match first_start inp x_line with
    | Some x_node_ref =>
        Ok (advance x_line
              (advance_line inp (loss_pi_dia_dx inp x_line) x_line
                 (mjoin (t_trans st !! x_node_ref)) (t_line st !!! x_line)) st)
    | None => Raised "NameError: x_node_ref"
    end
  else Ok st.

(** One pass through the body of the return [while calc_therm == 1]. *)
Definition return_iteration (inp : therm_input) (ctx : return_context)
    (st : therm_state) : result therm_state :=
  let st := foldl (find_node inp) st (seq 0 (node_count inp)) in
  st ← foldl (return_solve_node inp ctx) (Ok st) (seq 0 (node_count inp));
  let st := set_node_calc_now (zeros_flags (node_count inp)) st in
  let st := foldl (find_line inp) st (seq 0 (line_count inp)) in
  st ← foldl (return_solve_line inp) (Ok st) (seq 0 (line_count inp));
  Ok (set_line_calc_now (zeros_flags (line_count inp)) st).

Fixpoint return_loop (fuel : nat) (inp : therm_input) (ctx : return_context)
    (st : therm_state) : outcome therm_state :=
  match fuel with
  | O => Running
  | S fuel' =>
      match return_iteration inp ctx st with
      | Raised msg => Fatal msg
      | Ok st' =>
          if all_done (line_calc st') && all_done (node_calc st')
          then Returned st'
          else return_loop fuel' inp ctx st'
      end
  end.

(** The return part of one thermal substep of [solve_network_therm]. *)
Definition return_substep (fuel : nat) (inp : therm_input) (ctx : return_context)
    (t_line0 : list (list fl)) : outcome therm_state :=
  match foldl (return_seed_node inp ctx) (Ok (initial_state inp t_line0))
              (seq 0 (node_count inp)) with
  | Raised msg => Fatal msg
  | Ok st => return_loop fuel inp ctx st
  end.

(** Following the specification's words: the pipes flowing into a node, and
    the two sums of the mixing law over them, for outlet temperatures [T]. *)
Definition incoming (inp : therm_input) (x_node : nat) : list nat :=
  filter (fun x_line => entry (coupling inp) x_node x_line = -1)
         (seq 0 (line_count inp)).

Definition heat_sum (inp : therm_input) (T : nat -> Q) (ls : list nat) : Q :=
  foldr (fun l acc => (T l * (m_int_trans inp !!! l) + acc)%Q) 0%Q ls.

Definition flow_sum (inp : therm_input) (ls : list nat) : Q :=
  foldr (fun l acc => ((m_int_trans inp !!! l) + acc)%Q) 0%Q ls.

(** *** The directed graph of a coupling matrix *)

(** A pipe leads from [x] to [y]. *)
Definition edge (inp : therm_input) (x y : nat) : Prop :=
  (x < node_count inp)%nat /\ (y < node_count inp)%nat /\
  exists x_line, (x_line < line_count inp)%nat /\
    entry (coupling inp) x x_line = 1 /\ entry (coupling inp) y x_line = -1.

(** No directed cycle. *)
Definition acyclic (inp : therm_input) : Prop :=
  forall x, ~ tc (edge inp) x x.

(** A flow source as the first loop of the substep selects it: external mass
    flow at least zero and no incoming pipe. *)
Definition is_source (inp : therm_input) (x : nat) : Prop :=
  (x < node_count inp)%nat /\
  (0 <= m_ext_trans inp !!! x)%Q /\
  count_row inp x (-1) = 0%nat.

(** A tree-like delivery network with the single feeder [f]: columns with one
    start and one end, no directed cycle, the feeder a source with a measured
    forerun temperature, every node reachable from it, no other node
    injecting, at least one pipe. *)
Definition single_feeder_tree (inp : therm_input) (f : nat) : Prop :=
  (forall l, (l < line_count inp)%nat -> column_ok (node_count inp) (coupling inp) l) /\
  acyclic inp /\
  is_source inp f /\
  is_Some (mjoin (temp_flow_feed inp !! f)) /\
  (forall x, (x < node_count inp)%nat -> rtc (edge inp) f x) /\
  (forall x, (x < node_count inp)%nat -> x <> f -> (m_ext_trans inp !!! x <= 0)%Q) /\
  (0 < line_count inp)%nat.

(** Following the claim's words: every node is reachable from a source
    node. *)
Definition reachable_from_a_source (inp : therm_input) : Prop :=
  forall x, (x < node_count inp)%nat ->
    exists s, is_source inp s /\ rtc (edge inp) s x.

(** Following the claim's words: a tree-like network with the single feeder
    [f] (as many pipes as nodes but one, each with one start and one end; the
    feeder a source with a measured forerun temperature; no other node a
    feeder or injecting), no directed cycle, every node reachable from a
    source node. *)
Definition claimed_tree (inp : therm_input) (f : nat) : Prop :=
  (forall l, (l < line_count inp)%nat -> column_ok (node_count inp) (coupling inp) l) /\
  node_count inp = S (line_count inp) /\
  acyclic inp /\
  is_source inp f /\
  is_Some (mjoin (temp_flow_feed inp !! f)) /\
  (forall x, (x < node_count inp)%nat -> x <> f ->
     feed_in inp !! x = Some None /\ (m_ext_trans inp !!! x <= 0)%Q) /\
  reachable_from_a_source inp /\
  (0 < line_count inp)%nat.

(** The test of "FIND NODES": not yet solved, no unknown and at least one
    known incoming pipe. *)
Definition node_ready (inp : therm_input) (st : therm_state) (x_node : nat) : bool :=
  negb (flag (node_calc st) x_node) &&
  ((incoming_with inp st x_node false =? 0)%nat &&
   (0 <? incoming_with inp st x_node true)%nat).

(** The test of "DETERMINE PIPES": not yet advanced, start node solved. *)
Definition line_ready (inp : therm_input) (st : therm_state) (x_line : nat) : bool :=
  negb (flag (line_calc st) x_line) &&
  bool_decide (Exists (fun x_node => entry (coupling inp) x_node x_line = 1 /\
                                     flag (node_calc st) x_node = true)
                      (seq 0 (node_count inp))).

(** How often a write was made. *)
Definition count_event (e : event) (evs : list event) : nat :=
  length (filter (fun e' => e' = e) evs).





(** ** Example networks *)

(** Three nodes in a row, pipe 0 from node 0 to node 1, pipe 1 from node 1 to
    node 2. *)
Definition Example_tp : topology :=
  {| n_node := 3; n_line := 2;
     node_start := [0%nat; 1%nat]; node_end := [1%nat; 2%nat] |}.

(** Two nodes joined by one pipe, and a root finder that reports a negative
    flow whatever the orientation. *)
Definition One_pipe : matrix := [[1]; [-1]].

Definition always_negative (M : matrix) : list Q := [-1]%Q.

(** One feeder (node 0), a distributor (node 1) and three consumers (nodes
    2, 3, 4) on a tree: pipes 0 -> 1, 1 -> 2, 1 -> 3, 3 -> 4. *)
Definition Tree_tp : topology :=
  {| n_node := 5; n_line := 4;
     node_start := [0; 1; 1; 3]%nat; node_end := [1; 2; 3; 4]%nat |}.

Definition Tree_input : therm_input :=
  {| node_count := 5; line_count := 4;
     coupling := make_matrix_coupl Tree_tp;
     m_ext_trans := [3; 0; -1; -1; -1]%Q;
     m_int_trans := [3; 1; 2; 1]%Q;
     feed_in := [Some "HW1"; None; None; None; None];
     p_ref_list := [0%nat];
     temp_flow_feed := [Some 80%Q; None; None; None; None];
     V_dot_feed := [Some 3%Q; None; None; None; None];
     Q_dot_sim := [None; None; Some 100%Q; Some 100%Q; Some 100%Q];
     V_dot_sim := [None; None; Some 1%Q; Some 1%Q; Some 1%Q];
     line_dia := [(1#10); (1#10); (1#10); (1#10)]%Q;
     line_htc := [(1#2); (1#2); (1#2); (1#2)]%Q;
     line_dx := [10; 10; 10; 10]%Q;
     rho := 1000; c_p := 4180; temp_soil := 10; delta_time_therm := 1 |}.

Definition Tree_lines : list (list fl) :=
  [[Some 10; Some 10]; [Some 10]; [Some 10]; [Some 10]]%Q.




(** Return side of a line of three nodes: consumer (node 0), consumer
    (node 1), feeder (node 2); return pipes 0 -> 1 and 1 -> 2. *)
Definition Consumer_input : therm_input :=
  {| node_count := 3; line_count := 2;
     coupling := make_matrix_coupl Example_tp;
     m_ext_trans := [1; 1; -2]%Q;
     m_int_trans := [1; 2]%Q;
     feed_in := [None; None; Some "HW1"];
     p_ref_list := [2%nat];
     temp_flow_feed := [None; None; Some 80%Q];
     V_dot_feed := [None; None; Some 2%Q];
     Q_dot_sim := [Some (627 # 5)%Q; Some (627 # 5)%Q; None];
     V_dot_sim := [Some 1%Q; Some 1%Q; None];
     line_dia := [(1#10); (1#10)]%Q;
     line_htc := [(1#2); (1#2)]%Q;
     line_dx := [10; 10]%Q;
     rho := 1000; c_p := 4180; temp_soil := 10; delta_time_therm := 1 |}.

Definition Consumer_context : return_context :=
  {| t_forerun_now := [Some 80; Some 80; Some 80]%Q;
     t_forerun_prev := [Some 80; Some 80; Some 80]%Q;
     t_return_prev := [Some 50; Some 45; Some 45]%Q;
     cntr_time_hyd := 1 |}.

(** A state in which pipe 0 has been advanced and its outlet is at 40. *)
Definition Consumer_state : therm_state :=
  {| node_calc := [true; false; false]; line_calc := [true; false];
     node_calc_now := [false; true; false]; line_calc_now := [false; false];
     t_trans := [Some 50; Some 0; Some 0]%Q;
     t_line := [[Some 40]; [Some 40]]%Q;
     events := [NodeAssigned 0; LineAdvanced 0] |}.

(** Two feeders (nodes 0 and 1) feeding a junction (node 2) through pipes
    0 -> 2 and 1 -> 2, at a step where nothing flows. *)
Definition Merge_tp : topology :=
  {| n_node := 3; n_line := 2;
     node_start := [0%nat; 1%nat]; node_end := [2%nat; 2%nat] |}.

Definition Merge_input : therm_input :=
  {| node_count := 3; line_count := 2;
     coupling := make_matrix_coupl Merge_tp;
     m_ext_trans := [0; 0; 0]%Q;
     m_int_trans := [0; 0]%Q;
     feed_in := [Some "HW1"; Some "HW2"; None];
     p_ref_list := [0%nat];
     temp_flow_feed := [Some 80%Q; Some 75%Q; None];
     V_dot_feed := [Some 0%Q; Some 0%Q; None];
     Q_dot_sim := [None; None; None];
     V_dot_sim := [None; None; None];
     line_dia := [(1#10); (1#10)]%Q;
     line_htc := [(1#2); (1#2)]%Q;
     line_dx := [10; 10]%Q;
     rho := 1000; c_p := 4180; temp_soil := 10; delta_time_therm := 1 |}.

Definition Merge_state : therm_state :=
  {| node_calc := [true; true; false]; line_calc := [true; true];
     node_calc_now := [false; false; true]; line_calc_now := [false; false];
     t_trans := [Some 80; Some 75; Some 0]%Q;
     t_line := [[Some 70]; [Some 60]]%Q;
     events := [NodeAssigned 0; LineAdvanced 0; NodeAssigned 1; LineAdvanced 1] |}.

Definition Merge_context : return_context :=
  {| t_forerun_now := [Some 80; Some 75; Some 65]%Q;
     t_forerun_prev := [Some 80; Some 75; Some 65]%Q;
     t_return_prev := [Some 50; Some 50; Some 55]%Q;
     cntr_time_hyd := 1 |}.

(** Return side of a line of three nodes at a step where the consumer
    (node 0) draws nothing: return pipe 0 -> 1 carries no flow; the reference
    feeder HW1 (node 1) has the solved external return flow +1 kg/s, which
    pipe 1 -> 2 carries to the feeder HW2 (node 2). *)
Definition Idle_consumer_input : therm_input :=
  {| node_count := 3; line_count := 2;
     coupling := make_matrix_coupl Example_tp;
     m_ext_trans := [0; 1; -1]%Q;
     m_int_trans := [0; 1]%Q;
     feed_in := [None; Some "HW1"; Some "HW2"];
     p_ref_list := [1%nat];
     temp_flow_feed := [None; Some 80%Q; Some 80%Q];
     V_dot_feed := [None; Some 0%Q; Some 1%Q];
     Q_dot_sim := [Some 0%Q; None; None];
     V_dot_sim := [Some 0%Q; None; None];
     line_dia := [(1#10); (1#10)]%Q;
     line_htc := [(1#2); (1#2)]%Q;
     line_dx := [10; 10]%Q;
     rho := 1000; c_p := 4180; temp_soil := 10; delta_time_therm := 1 |}.

(** A line of three nodes whose middle node is a second, non-reference
    feeder: pipes 0 -> 1 and 1 -> 2.  Read as the forerun, node 1 injects 1
    kg/s and receives 1 kg/s from the reference feeder (node 0); read as the
    return, node 0 is a feeder with positive external return flow and no
    incoming pipe. *)
Definition Two_feeder_input : therm_input :=
  {| node_count := 3; line_count := 2;
     coupling := make_matrix_coupl Example_tp;
     m_ext_trans := [1; 1; -2]%Q;
     m_int_trans := [1; 2]%Q;
     feed_in := [Some "HW1"; Some "HW2"; None];
     p_ref_list := [0%nat];
     temp_flow_feed := [Some 80%Q; Some 75%Q; None];
     V_dot_feed := [Some 1%Q; Some 1%Q; None];
     Q_dot_sim := [None; None; Some 100%Q];
     V_dot_sim := [None; None; Some 2%Q];
     line_dia := [(1#10); (1#10)]%Q;
     line_htc := [(1#2); (1#2)]%Q;
     line_dx := [10; 10]%Q;
     rho := 1000; c_p := 4180; temp_soil := 10; delta_time_therm := 1 |}.

(** Node 0 solved and pipe 0 advanced, its outlet at 40; node 1 is next. *)
Definition Two_feeder_state : therm_state :=
  {| node_calc := [true; false; false]; line_calc := [true; false];
     node_calc_now := [false; true; false]; line_calc_now := [false; false];
     t_trans := [Some 80; Some 0; Some 0]%Q;
     t_line := [[Some 40]; [Some 40]]%Q;
     events := [NodeAssigned 0; LineAdvanced 0] |}.

Definition Two_feeder_context : return_context :=
  {| t_forerun_now := [Some 80; Some 75; Some 70]%Q;
     t_forerun_prev := [Some 80; Some 75; Some 70]%Q;
     t_return_prev := [Some 50; Some 45; Some 45]%Q;
     cntr_time_hyd := 1 |}.

(** Return side of a line of three nodes in which the second feeder
    supplies more than the consumer draws: consumer (node 0), reference
    feeder HW1 (node 1), feeder HW2 (node 2); return pipes 0 -> 1 and
    1 -> 2.  HW2 takes 2 kg/s from the return, the consumer gives back 1
    kg/s, and the hydraulic step has solved the external return flow of the
    reference feeder as +1 kg/s: the flow has reversed into it. *)
Definition Reversed_feeder_input : therm_input :=
  {| node_count := 3; line_count := 2;
     coupling := make_matrix_coupl Example_tp;
     m_ext_trans := [1; 1; -2]%Q;
     m_int_trans := [1; 2]%Q;
     feed_in := [None; Some "HW1"; Some "HW2"];
     p_ref_list := [1%nat];
     temp_flow_feed := [None; Some 80%Q; Some 80%Q];
     V_dot_feed := [None; Some 0%Q; Some 2%Q];
     Q_dot_sim := [Some (627 # 5)%Q; None; None];
     V_dot_sim := [Some 1%Q; None; None];
     line_dia := [(1#10); (1#10)]%Q;
     line_htc := [(1#2); (1#2)]%Q;
     line_dx := [10; 10]%Q;
     rho := 1000; c_p := 4180; temp_soil := 10; delta_time_therm := 1 |}.

(** Segment temperatures left by the previous substep, one segment per
    pipe. *)
Definition Two_lines : list (list fl) := [[Some 40]; [Some 40]]%Q.

(** * Further parts of the program *)

(** ** Reading the nodes *)

(** A row that makes the loop raise: in use, and either [romanToInt] cannot
    read its numeral or it is flagged as the pressure reference without a
    feeder id. *)
Definition bad_node_row (row : node_row) : Prop :=
  is_cell (col_in_use row) "ja" /\
  ((forall n, romanToInt_cell (col_number row) <> Ok n) \/
   (is_cell (col_p_ref row) "x" /\ col_feed_in row = None)).

(** ** Roman numerals: the strings [romanToInt] reads *)

(** The characters that are keys of [roman]. *)
Definition roman_letter (a : ascii) : Prop :=
  a ∈ ["I"; "V"; "X"; "L"; "C"; "D"; "M"]%char.

(** All characters of a string. *)
Fixpoint letters (s : string) : list ascii :=
  match s with
  | EmptyString => []
  | String a rest => a :: letters rest
  end.

(** For comparison, not part of the program: the standard numeral of a
    number, written greedily with the subtractive pairs. *)
Definition numeral_table : list (nat * string) :=
  [(1000, "M"); (900, "CM"); (500, "D"); (400, "CD"); (100, "C"); (90, "XC");
   (50, "L"); (40, "XL"); (10, "X"); (9, "IX"); (5, "V"); (4, "IV"); (1, "I")]%nat.

Fixpoint standard_numeral_with (fuel : nat) (table : list (nat * string)) (n : nat) : string :=
  match fuel with
  | O => ""
  | S fuel' =>
      match table with
      | [] => ""
      | (v, sym) :: table' =>
          if (v <=? n)%nat then sym +:+ standard_numeral_with fuel' table (n - v)
          else standard_numeral_with fuel' table' n
      end
  end.

Definition standard_numeral (n : nat) : string :=
  standard_numeral_with (n + 13) numeral_table n.

(** ** Reading the pipes *)

(** What a cell of the sheet can hold where the program expects a
    number. *)
Inductive cell_value : Type :=
  | CellNumber (v : Q)
  | CellText (s : string)
  | CellEmpty.

(** The cells of one row of sheet "Leitungen" that decide whether the row
    is read and what topology it gives: column 2 ("ja" when the pipe is
    used), columns 3 and 4, the roman numerals of the start and the end
    node, and column 6, the diameter in millimetres.  [None] is an empty
    cell.  The other columns are stored as they are. *)
Record line_row := {
  line_in_use : option string;
  line_start_cell : option string;
  line_end_cell : option string;
  line_dia_cell : cell_value
}.

Record grid_lines := {
  line_nbr_matrix : list nat;
  line_node_start : list nat;
  line_node_end : list nat;
  lines_dia : list Q
}.

(** Body of the loop over the nodes for one pipe: the node whose number the
    start numeral denotes is appended to [line.node_start], likewise for
    the end numeral.  [nbr_orig_arabic] is [node.nbr_orig_arabic]. *)
Definition match_node (nbr_orig_arabic : list nat) (row : line_row)
    (acc : result grid_lines) (x_node : nat) : result grid_lines :=
  ln ← acc;
  s ← romanToInt_cell (line_start_cell row);
  let ln :=
    if (s =? nbr_orig_arabic !!! x_node)%nat
    then {| line_nbr_matrix := line_nbr_matrix ln;
            line_node_start := line_node_start ln ++ [x_node];
            line_node_end := line_node_end ln;
            lines_dia := lines_dia ln |}
    else ln in
  e ← romanToInt_cell (line_end_cell row);
  Ok (if (e =? nbr_orig_arabic !!! x_node)%nat
      then {| line_nbr_matrix := line_nbr_matrix ln;
              line_node_start := line_node_start ln;
              line_node_end := line_node_end ln ++ [x_node];
              lines_dia := lines_dia ln |}
      else ln).

(** [sheet.cell(row = row_xlsx, column = 6).value/1000] *)
Definition dia_of_cell (c : cell_value) : result Q :=
  match c with
  | CellNumber v => Ok (v / 1000)%Q
  | CellText _ => Raised "TypeError: unsupported operand type(s) for /: 'str' and 'int'"
  | CellEmpty => Raised "TypeError: unsupported operand type(s) for /: 'NoneType' and 'int'"
  end.

(** Body of the loop over the rows of sheet "Leitungen" in
    [read_grid_setup].  [node.nbr_matrix] and [node.nbr_orig_arabic] have one
    entry per node in use, so the loop over [node.nbr_matrix.shape[0]] is the
    loop over the entries of [nbr_orig_arabic]; with no node in use
    [node.nbr_matrix] is still the list it was initialised as, which has no
    [shape]. *)
Definition read_line_row (nbr_orig_arabic : list nat) (acc : result grid_lines)
    (row : line_row) : result grid_lines :=
  ln ← acc;
  if is_cell (line_in_use row) "ja" then
    match nbr_orig_arabic with
    | [] => Raised "AttributeError: 'list' object has no attribute 'shape'"
    | _ =>
        ln ← foldl (match_node nbr_orig_arabic row)
             (Ok {| line_nbr_matrix := line_nbr_matrix ln ++ [length (line_nbr_matrix ln)];
                    line_node_start := line_node_start ln;
                    line_node_end := line_node_end ln;
                    lines_dia := lines_dia ln |})
             (seq 0 (length nbr_orig_arabic));
        dia ← dia_of_cell (line_dia_cell row);
        Ok {| line_nbr_matrix := line_nbr_matrix ln;
              line_node_start := line_node_start ln;
              line_node_end := line_node_end ln;
              lines_dia := lines_dia ln ++ [dia] |}
    end
  else Ok ln.

Definition no_lines : grid_lines :=
  {| line_nbr_matrix := []; line_node_start := []; line_node_end := [];
     lines_dia := [] |}.

Definition read_lines (nbr_orig_arabic : list nat) (rows : list line_row)
    : result grid_lines :=
  foldl (read_line_row nbr_orig_arabic) (Ok no_lines) rows.

(** The topology [make_matrix_coupl] reads from what was read. *)
Definition topology_of (n_node : nat) (ln : grid_lines) : topology :=
  {| n_node := n_node; n_line := length (line_nbr_matrix ln);
     node_start := line_node_start ln; node_end := line_node_end ln |}.

(** The nodes that carry the number a cell denotes, in the order of the
    nodes; none when the cell cannot be read. *)
Definition resolved (nbr_orig_arabic : list nat) (c : option string) : list nat :=
  match romanToInt_cell c with
  | Ok v => filter (fun x => v = nbr_orig_arabic !!! x) (seq 0 (length nbr_orig_arabic))
  | Raised _ => []
  end.

Definition Example_line_rows : list line_row :=
  [ {| line_in_use := Some "ja"; line_start_cell := Some "I";
       line_end_cell := Some "II"; line_dia_cell := CellNumber 100 |};
    {| line_in_use := None; line_start_cell := Some "II";
       line_end_cell := Some "IX"; line_dia_cell := CellEmpty |};
    {| line_in_use := Some "ja"; line_start_cell := Some "II";
       line_end_cell := Some "IV"; line_dia_cell := CellNumber 80 |} ].

(** ** Start values and unknowns of the hydraulic system *)



(** What [main_program] reads per node when it sets up a hydraulic step:
    the flag of a distributor (column 6), the feeder id, and the values at
    [cntr_time_hyd] of the measured or simulated series, [None] where the
    node has no such series. *)
Record step_nodes := {
  sn_distrib : list (option string);
  sn_feed_in : list (option string);
  sn_p_ref : list nat;
  sn_V_dot_feed : list (option Q);
  sn_V_dot_sim : list (option Q);
  sn_p_flow_feed : list (option Q);
  sn_p_ret_feed : list (option Q);
  sn_h_coord : list Q
}.

(** "EXTERNAL MASS FLOWS": the body of the loop over the nodes, appending to
    [node.m_ext_forerun] (and its copy [node.m_ext_forerun_check]) and to
    [node.m_ext_return] (and [node.m_ext_return_check]). *)
Definition set_m_ext (sn : step_nodes) (rho : Q)
    (acc : result (list (option Q) * list (option Q))) (x_node : nat)
    : result (list (option Q) * list (option Q)) :=
  '(m_ext_forerun, m_ext_return) ← acc;
  if is_cell (default None (sn_distrib sn !! x_node)) "x" then
    Ok (m_ext_forerun ++ [Some 0%Q], m_ext_return ++ [Some 0%Q])
  else if truthy (default None (sn_feed_in sn !! x_node)) then
    match sn_p_ref sn !! 0%nat with
    | None => Raised "IndexError: list index out of range"
    | Some r =>
        if negb (x_node =? r)%nat then
          match mjoin (sn_V_dot_feed sn !! x_node) with
          | Some V =>
              let m_ext_current := (V * rho / 1000)%Q in
              Ok (m_ext_forerun ++ [Some m_ext_current],
                  m_ext_return ++ [Some (- m_ext_current)%Q])
          | None => Raised "TypeError: 'NoneType' object is not subscriptable"
          end
        else
          match mjoin (sn_V_dot_sim sn !! x_node) with
          | None => Ok (m_ext_forerun ++ [None], m_ext_return ++ [None])
          | Some V =>
              let m_ext_current := (V * rho / 1000)%Q in
              Ok (m_ext_forerun ++ [Some (- m_ext_current)%Q],
                  m_ext_return ++ [Some m_ext_current])
          end
    end
  else
    match mjoin (sn_V_dot_sim sn !! x_node) with
    | None => Ok (m_ext_forerun ++ [None], m_ext_return ++ [None])
    | Some V =>
        let m_ext_current := (V * rho / 1000)%Q in
        Ok (m_ext_forerun ++ [Some (- m_ext_current)%Q],
            m_ext_return ++ [Some m_ext_current])
    end.

(** "PRESSURES": the body of the loop over the nodes, appending to
    [node.p_forerun] (and [node.p_ref_forerun]) and to [node.p_return] (and
    [node.p_ref_return]): the measured pressures once per occurrence of the
    node in [node.p_ref], [None] when it does not occur. *)
Definition set_p_ref_entry (sn : step_nodes) (x_node : nat)
    (acc : result (list (option Q) * list (option Q) * nat)) (x_p_ref_node : nat)
    : result (list (option Q) * list (option Q) * nat) :=
  '(p_forerun, p_return, cntr_p_ref) ← acc;
  if (x_node =? sn_p_ref sn !!! x_p_ref_node)%nat then
    match mjoin (sn_p_flow_feed sn !! x_node), mjoin (sn_p_ret_feed sn !! x_node) with
    | Some pf, Some pr =>
        Ok (p_forerun ++ [Some pf], p_return ++ [Some pr], S cntr_p_ref)
    | _, _ => Raised "TypeError: 'NoneType' object is not subscriptable"
    end
  else Ok (p_forerun, p_return, cntr_p_ref).

Definition set_p (sn : step_nodes)
    (acc : result (list (option Q) * list (option Q))) (x_node : nat)
    : result (list (option Q) * list (option Q)) :=
  '(p_forerun, p_return) ← acc;
  '(p_forerun, p_return, cntr_p_ref) ←
    foldl (set_p_ref_entry sn x_node) (Ok (p_forerun, p_return, 0%nat))
          (seq 0 (length (sn_p_ref sn)));
  if (cntr_p_ref =? 0)%nat
  then Ok (p_forerun ++ [None], p_return ++ [None])
  else Ok (p_forerun, p_return).

(** The node data of the forerun and of the return with which
    [main_program] enters the hydraulic solve of a step. *)
Definition step_setup (sn : step_nodes) (n_node : nat) (rho : Q)
    : result (node_data * node_data) :=
  '(m_f, m_r) ← foldl (set_m_ext sn rho) (Ok ([], [])) (seq 0 n_node);
  '(p_f, p_r) ← foldl (set_p sn) (Ok ([], [])) (seq 0 n_node);
  Ok ({| p := p_f; p_ref := p_f; m_ext := m_f; m_ext_check := m_f;
         h_coord := sn_h_coord sn |},
      {| p := p_r; p_ref := p_r; m_ext := m_r; m_ext_check := m_r;
         h_coord := sn_h_coord sn |}).



(** Node 0 the reference feeder, node 1 a distributor, node 2 a consumer. *)
Definition Example_step_nodes : step_nodes :=
  {| sn_distrib := [None; Some "x"; None];
     sn_feed_in := [Some "HW1"; None; None];
     sn_p_ref := [0%nat];
     sn_V_dot_feed := [Some 2%Q; None; None];
     sn_V_dot_sim := [None; None; Some 2%Q];
     sn_p_flow_feed := [Some 500000%Q; None; None];
     sn_p_ret_feed := [Some 300000%Q; None; None];
     sn_h_coord := [0; 0; 0]%Q |}.



(** ** Direction correction with a root finder that follows the orientation *)

(** On matrices with one start and one end per pipe, the root finder's flow
    of a pipe changes sign when the pipe's column is flipped, and the flows
    of the other pipes stay as they are. *)
Definition follows_orientation (fs : matrix -> list Q) (nn nl : nat) : Prop :=
  forall M k l, (forall c, (c < nl)%nat -> column_ok nn M c) ->
    (k < nl)%nat -> (l < nl)%nat ->
    (fs (flip_column nn M k) !!! l ==
     if decide (l = k) then - (fs M !!! l) else fs M !!! l)%Q.

(** The flows 1 and 1 from node 0 over node 1 to node 2, reported with the
    sign of the orientation the matrix gives each pipe. *)
Definition oriented_solver (M : matrix) : list Q :=
  [inject_Z (entry M 0 0); inject_Z (entry M 1 1)].

(** ** Explicit upwind step of a pipe *)

(** The denominator of the temperature gradient of a segment,
    [rho*c_p*dx*pi*dia^2/4], and the stability condition of the explicit
    step for a heat-loss factor [loss_area]: within one thermal time step
    the water that flows through a segment plus the heat it loses do not
    exceed what the segment holds. *)
Definition segment_capacity (inp : therm_input) (x_line : nat) : Q :=
  (rho inp * c_p inp * (line_dx inp !!! x_line) * math_pi
   * (line_dia inp !!! x_line) ^ 2 / 4)%Q.

Definition stable_step (inp : therm_input) (loss_area : Q) (x_line : nat) : Prop :=
  (0 < rho inp)%Q /\ (0 < c_p inp)%Q /\ (0 < line_dx inp !!! x_line)%Q /\
  (0 < line_dia inp !!! x_line)%Q /\ (0 <= delta_time_therm inp)%Q /\
  (0 <= m_int_trans inp !!! x_line)%Q /\ (0 <= line_htc inp !!! x_line)%Q /\
  (0 <= loss_area)%Q /\
  (delta_time_therm inp *
     ((m_int_trans inp !!! x_line) * c_p inp + (line_htc inp !!! x_line) * loss_area)
   <= segment_capacity inp x_line)%Q.

(** A temperature within bounds. *)
Definition within (lo hi : Q) (t : Q) : Prop := (lo <= t)%Q /\ (t <= hi)%Q.

(** *** Pipes and nodes the propagation cannot reach *)

(** A set [S] of nodes and a set [L] of pipes that wait for each other:
    every node of [S] has an incoming pipe in [L], and every pipe of [L]
    starts only at nodes of [S]. *)
Definition waiting (inp : therm_input) (S L : nat -> Prop) : Prop :=
  (forall y, S y -> (y < node_count inp)%nat /\
     exists l, (l < line_count inp)%nat /\ L l /\ entry (coupling inp) y l = -1) /\
  (forall l z, L l -> (z < node_count inp)%nat ->
     entry (coupling inp) z l = 1 -> S z).

(** None of them is marked, and the per-pass flags are all 0. *)
Definition blocked (inp : therm_input) (S L : nat -> Prop) (st : therm_state) : Prop :=
  length (node_calc st) = node_count inp /\
  (forall y, S y -> flag (node_calc st) y = false) /\
  (forall l, L l -> flag (line_calc st) l = false) /\
  (forall y, flag (node_calc_now st) y = false) /\
  (forall l, flag (line_calc_now st) l = false).

(** A feeder (node 0) in front of two nodes that feed each other: pipe 0
    leads from node 0 to node 1, pipe 1 from node 1 to node 2, pipe 2 from
    node 2 back to node 1. *)
Definition Ring_input : therm_input :=
  {| node_count := 3; line_count := 3;
     coupling := [[1; 0; 0]; [-1; 1; -1]; [0; -1; 1]];
     m_ext_trans := [1; 0; -1]%Q;
     m_int_trans := [1; 1; 0]%Q;
     feed_in := [Some "ja"; None; None];
     p_ref_list := [0%nat];
     temp_flow_feed := [Some 80%Q; None; None];
     V_dot_feed := [Some 1%Q; None; None];
     Q_dot_sim := [None; None; Some 1%Q];
     V_dot_sim := [None; None; Some 1%Q];
     line_dia := [1; 1; 1]%Q;
     line_htc := [1; 1; 1]%Q;
     line_dx := [1; 1; 1]%Q;
     rho := 1000; c_p := 4190; temp_soil := 10; delta_time_therm := 1 |}.

(** ** Seasons of the load profiles ([fcns_gaps.get_season]) *)

(** A time stamp without time zone: the calendar date and the time of day
    in nanoseconds since midnight.  Time stamps compare in this order. *)
Record time_stamp := {
  ts_year : Z;
  ts_month : Z;
  ts_day : Z;
  ts_nanos : Z
}.

(** [a <= b] on time stamps. *)
Definition ts_le (a b : time_stamp) : bool :=
  (ts_year a <? ts_year b) ||
  ((ts_year a =? ts_year b) &&
   ((ts_month a <? ts_month b) ||
    ((ts_month a =? ts_month b) &&
     ((ts_day a <? ts_day b) ||
      ((ts_day a =? ts_day b) && (ts_nanos a <=? ts_nanos b)))))).

(** [pd.Timestamp(year=year, month=month, day=day)] *)
Definition Timestamp (year month day : Z) : time_stamp :=
  {| ts_year := year; ts_month := month; ts_day := day; ts_nanos := 0 |}.

(** 0 = summer, 1 = winter, 2 = transition period. *)
Definition get_season (ts : time_stamp) : Z :=
  let year := ts_year ts in
  let start_summer := Timestamp year 5 15 in
  let end_summer := Timestamp year 9 14 in
  let start_winter := Timestamp year 11 1 in
  let end_winter := Timestamp year 3 20 in
  if ts_le start_summer ts && ts_le ts end_summer then 0
  else if ts_le start_winter ts && ts_le ts end_winter then 1
  else 2.

(** ** Discretisation of the pipes ([main_program], "INITIALIZE ARRAYS") *)

(** [np.linspace(start, stop, num)] for [num >= 0]: [num] samples, the
    first [start], the last [stop] when there are at least two, the others
    [i * step + start] with [step = (stop - start) / (num - 1)]. *)
Definition linspace (start stop : Q) (num : nat) : list Q :=
  match num with
  | 0%nat => []
  | 1%nat => [start]
  | S div =>
      map (fun i : nat => inject_Z (Z.of_nat i) * ((stop - start) / inject_Z (Z.of_nat div))
                          + start)%Q (seq 0 div)
      ++ [stop]
  end.

(** What the loop of the initialisation appends for one pipe of length [l]
    with [n_m] segments per metre: [line.n], [line.dx], [line.x].  A length
    of 0 gives no segment and [dx = 0/0]; a negative number of segments is
    refused by [np.linspace]. *)
Definition discretise (l n_m : Q) : result (Z * fl * list Q) :=
  let adding_1 := Qceiling (l * n_m) in
  let adding_2 := np_div l (inject_Z adding_1) in
  if adding_1 <? 0
  then Raised "ValueError: Number of samples must be non-negative"
  else Ok (adding_1, adding_2,
           match adding_2 with
           | Some dx => linspace (dx / 2) (l - dx / 2) (Z.to_nat adding_1)
           | None => []
           end).

(** ** Gap filling ([fcns_gaps]) *)

(** What the gap filling reads of one node: [node.cons], the time series
    [node.error], [node.V_dot] and [node.Q_dot] (an entry that is no number
    is [None]), [node.gapfilling_node], [node.Q_dot_max] and
    [node.kWh_m3]. *)
Record gap_node := {
  gn_cons : option string;
  gn_error : list string;
  gn_V_dot : list fl;
  gn_Q_dot : list fl;
  gn_gapfilling_node : Z;
  gn_Q_dot_max : option Q;
  gn_kWh_m3 : option Q
}.

(** [node.V_dot_sim] and [node.Q_dot_sim]: per node [None] or the array of
    the values used by the simulation, one per time step so far. *)
Record sim_data := {
  sim_V_dot : list (option (list fl));
  sim_Q_dot : list (option (list fl))
}.

(** [var_gaps.use_historical_kWh_m3], [var_gaps.kWh_m3] *)
Record var_gaps := {
  use_historical_kWh_m3 : bool;
  kWh_m3 : Q
}.

(** [a[i]], raising when there is no such entry. *)
Definition at_index {A : Type} (a : list A) (i : nat) : result A :=
  match a !! i with
  | Some v => Ok v
  | None => Raised "IndexError: index out of range"
  end.

(** [node.cons[x_node] != None] *)
Definition is_consumer (r : gap_node) : bool := is_Some_b (gn_cons r).

(** [sub in s] on strings. *)
Fixpoint contains (sub s : string) : bool :=
  String.prefix sub s ||
  match s with
  | EmptyString => false
  | String _ s' => contains sub s'
  end.

(** ["FEHLER" in node.error[x_node][cntr]] *)
Definition has_error (r : gap_node) (cntr : nat) : result bool :=
  e ← at_index (gn_error r) cntr;
  Ok (contains "FEHLER" e).

(** [np.append(a, np.array([v]), axis = 0)]; [a] is [None], an empty list or
    an array. *)
Definition np_append (a : option (list fl)) (v : fl) : list fl :=
  match a with
  | Some arr => arr ++ [v]
  | None => [None; v]
  end.

(** [table[x_node] = np.append(table[x_node], np.array([v]), axis = 0)] *)
Definition append_value (table : list (option (list fl))) (x_node : nat) (v : fl)
    : result (list (option (list fl))) :=
  old ← at_index table x_node;
  Ok (<[x_node := Some (np_append old v)]> table).

(** [table[x_node][i]] *)
Definition get_value (table : list (option (list fl))) (x_node i : nat) : result fl :=
  a ← at_index table x_node;
  match a with
  | Some arr => at_index arr i
  | None => Raised "TypeError: 'NoneType' object is not subscriptable"
  end.

(** [table[x_node][i] = v] *)
Definition set_value (table : list (option (list fl))) (x_node i : nat) (v : fl)
    : result (list (option (list fl))) :=
  a ← at_index table x_node;
  match a with
  | Some arr =>
      if decide (i < length arr)%nat
      then Ok (<[x_node := Some (<[i := v]> arr)]> table)
      else Raised "IndexError: index out of range"
  | None => Raised "TypeError: 'NoneType' object does not support item assignment"
  end.

(** [node.V_dot_sim[x_node][cntr] = v] followed by
    [node.Q_dot_sim[x_node][cntr] = q]. *)
Definition write_sim (x_node cntr : nat) (v q : fl) (sim : sim_data) : result sim_data :=
  V ← set_value (sim_V_dot sim) x_node cntr v;
  Q ← set_value (sim_Q_dot sim) x_node cntr q;
  Ok {| sim_V_dot := V; sim_Q_dot := Q |}.

(** [init_sim_data]: at step 0 the arrays start empty; every consumer's
    measured values of the step are appended. *)
Definition init_node (nodes : list gap_node) (cntr : nat) (acc : result sim_data)
    (x_node : nat) : result sim_data :=
  sim ← acc;
  r ← at_index nodes x_node;
  if is_consumer r then
    v ← at_index (gn_V_dot r) cntr;
    V ← append_value (sim_V_dot sim) x_node v;
    q ← at_index (gn_Q_dot r) cntr;
    Q ← append_value (sim_Q_dot sim) x_node q;
    Ok {| sim_V_dot := V; sim_Q_dot := Q |}
  else Ok sim.

Definition empty_sim (nodes : list gap_node) : sim_data :=
  let start := map (fun r => if is_consumer r then Some [] else None) nodes in
  {| sim_V_dot := start; sim_Q_dot := start |}.

Definition init_sim_data (nodes : list gap_node) (cntr : nat) (sim : sim_data)
    : result sim_data :=
  let sim := if (cntr =? 0)%nat then empty_sim nodes else sim in
  foldl (init_node nodes cntr) (Ok sim) (seq 0 (length nodes)).

(** "CALCULATE SUM OF MAX. POWERS FOR CONSUMERS WITH ERROR FLAG" *)
Definition add_max_error (nodes : list gap_node) (cntr : nat) (acc : result Q)
    (x_node : nat) : result Q :=
  Q_dot_max_error_sum ← acc;
  r ← at_index nodes x_node;
  if is_consumer r then
    e ← has_error r cntr;
    if (e : bool) then
      match gn_Q_dot_max r with
      | Some q => Ok (Q_dot_max_error_sum + q)%Q
      | None => Raised "TypeError: unsupported operand type(s) for +"
      end
    else Ok Q_dot_max_error_sum
  else Ok Q_dot_max_error_sum.

(** "DISTRIBUTE THE VOLUMETRIC FLOW GAP BETWEEN CONSUMERS" *)
Definition distribute (vg : var_gaps) (nodes : list gap_node) (cntr : nat)
    (delta_V_dot Q_dot_max_error_sum : Q) (acc : result sim_data) (x_node : nat)
    : result sim_data :=
  sim ← acc;
  r ← at_index nodes x_node;
  if is_consumer r then
    if gn_gapfilling_node r =? 1 then
      Raised "Exception: Gapfilling mode 1: Gapfilling dummy node cannot be used in this mode."
    else
      e ← has_error r cntr;
      if (e : bool) then
        if Qlt_bool 0 Q_dot_max_error_sum then
          match gn_Q_dot_max r with
          | None => Raised "TypeError: unsupported operand type(s) for *"
          | Some Q_dot_max =>
              let V := (delta_V_dot * Q_dot_max / Q_dot_max_error_sum)%Q in
              let k := match gn_kWh_m3 r with
                       | Some k => if use_historical_kWh_m3 vg then k else kWh_m3 vg
                       | None => kWh_m3 vg
                       end in
              write_sim x_node cntr (Some V) (Some (V * k * 3600 / 1000)%Q) sim
          end
        else write_sim x_node cntr (Some 0%Q) (Some 0%Q) sim
      else Ok sim
  else Ok sim.

(** "FILL NANs WITH 0 EVEN WHEN THE BALANCE IS CLOSED" *)
Definition zero_gap (nodes : list gap_node) (cntr : nat) (acc : result sim_data)
    (x_node : nat) : result sim_data :=
  sim ← acc;
  r ← at_index nodes x_node;
  if is_consumer r then
    e ← has_error r cntr;
    if (e : bool) then write_sim x_node cntr (Some 0%Q) (Some 0%Q) sim else Ok sim
  else Ok sim.

(** [fill_mode_1]; [delta_V_dot] is [balance.delta_V_dot[cntr]]. *)
Definition fill_mode_1 (vg : var_gaps) (nodes : list gap_node) (cntr : nat)
    (delta_V_dot : fl) (sim : sim_data) : result sim_data :=
  sim ← init_sim_data nodes cntr sim;
  let closed := foldl (zero_gap nodes cntr) (Ok sim) (seq 0 (length nodes)) in
  match delta_V_dot with
  | Some delta =>
      if Qlt_bool 0 delta then
        Q_dot_max_error_sum ←
          foldl (add_max_error nodes cntr) (Ok 0%Q) (seq 0 (length nodes));
        foldl (distribute vg nodes cntr delta Q_dot_max_error_sum) (Ok sim)
              (seq 0 (length nodes))
      else closed
  | None => closed
  end.

(** [fill_mode_2] *)
Definition carry_last (nodes : list gap_node) (cntr : nat) (acc : result sim_data)
    (x_node : nat) : result sim_data :=
  sim ← acc;
  r ← at_index nodes x_node;
  if is_consumer r then
    e ← has_error r cntr;
    if (e : bool) && (gn_gapfilling_node r =? 0) then
      if (cntr =? 0)%nat then
        Raised "Exception: Gapfilling mode 2: First time step is a gap."
      else
        v ← get_value (sim_V_dot sim) x_node (cntr - 1);
        V ← set_value (sim_V_dot sim) x_node cntr v;
        q ← get_value (sim_Q_dot sim) x_node (cntr - 1);
        Q ← set_value (sim_Q_dot sim) x_node cntr q;
        Ok {| sim_V_dot := V; sim_Q_dot := Q |}
    else Ok sim
  else Ok sim.

Definition fill_mode_2 (nodes : list gap_node) (cntr : nat) (sim : sim_data)
    : result sim_data :=
  sim ← init_sim_data nodes cntr sim;
  foldl (carry_last nodes cntr) (Ok sim) (seq 0 (length nodes)).

(** The calls of [fill_mode_2] for the hydraulic time steps [0 .. n - 1], one
    after the other, starting from arrays not yet set up.  (What [gaps]
    writes itself between two calls, zeros for entries that are [None] and
    the volume of a gap-filling dummy node, is not part of it.) *)
Definition fill_mode_2_steps (nodes : list gap_node) (n : nat) : result sim_data :=
  foldl (fun acc cntr => sim ← acc; fill_mode_2 nodes cntr sim)
        (Ok (empty_sim nodes)) (seq 0 n).

(** [table[x_node][i]] where it exists. *)
Definition sim_at (table : list (option (list fl))) (x_node i : nat) : option fl :=
  a ← table !! x_node; arr ← a; arr !! i.

(** The consumer has an error flag at the step. *)
Definition gap_at (r : gap_node) (cntr : nat) : bool :=
  match gn_error r !! cntr with
  | Some e => contains "FEHLER" e
  | None => false
  end.

(** The series of every consumer reach the step. *)
Definition step_data (nodes : list gap_node) (cntr : nat) : Prop :=
  forall x r, nodes !! x = Some r -> is_consumer r = true ->
    (cntr < length (gn_error r))%nat /\ (cntr < length (gn_V_dot r))%nat /\
    (cntr < length (gn_Q_dot r))%nat.

(** The arrays as the steps before [cntr] leave them: for a consumer an
    array with one value per earlier step. *)
Definition table_ready (nodes : list gap_node) (len : nat)
    (table : list (option (list fl))) : Prop :=
  forall x r, nodes !! x = Some r -> is_consumer r = true ->
    exists arr, table !! x = Some (Some arr) /\ length arr = len.

Definition sim_ready (nodes : list gap_node) (cntr : nat) (sim : sim_data) : Prop :=
  cntr <> 0%nat ->
  table_ready nodes cntr (sim_V_dot sim) /\ table_ready nodes cntr (sim_Q_dot sim).

(** The volume assigned to the consumers with an error flag at the step
    (for comparison with [balance.delta_V_dot]). *)
Definition gap_volume (nodes : list gap_node) (cntr : nat) (sim : sim_data)
    (acc : fl) (x_node : nat) : fl :=
  total ← acc;
  match nodes !! x_node with
  | Some r =>
      if is_consumer r && gap_at r cntr then
        v ← mjoin (sim_at (sim_V_dot sim) x_node cntr);
        Some (total + v)%Q
      else Some total
  | None => Some total
  end.

Definition total_gap_volume (nodes : list gap_node) (cntr : nat) (sim : sim_data) : fl :=
  foldl (gap_volume nodes cntr sim) (Some 0%Q) (seq 0 (length nodes)).

(** Two consumers with a gap at step 1 behind a feeder. *)
Definition Example_gap_nodes : list gap_node :=
  [ {| gn_cons := None; gn_error := []; gn_V_dot := []; gn_Q_dot := [];
       gn_gapfilling_node := 0; gn_Q_dot_max := None; gn_kWh_m3 := None |};
    {| gn_cons := Some "A"; gn_error := ["OKAY_m"; "FEHLER_m"];
       gn_V_dot := [Some 1%Q; None]; gn_Q_dot := [Some 40%Q; None];
       gn_gapfilling_node := 0; gn_Q_dot_max := Some 30%Q; gn_kWh_m3 := Some 50%Q |};
    {| gn_cons := Some "B"; gn_error := ["OKAY_m"; "FEHLER_a"];
       gn_V_dot := [Some 2%Q; None]; gn_Q_dot := [Some 80%Q; None];
       gn_gapfilling_node := 0; gn_Q_dot_max := Some 10%Q; gn_kWh_m3 := None |};
    {| gn_cons := Some "C"; gn_error := ["OKAY_a"; "OKAY_m"];
       gn_V_dot := [Some 3%Q; Some 4%Q]; gn_Q_dot := [Some 90%Q; Some 100%Q];
       gn_gapfilling_node := 0; gn_Q_dot_max := Some 20%Q; gn_kWh_m3 := None |} ].

Definition Example_var_gaps : var_gaps :=
  {| use_historical_kWh_m3 := true; kWh_m3 := 40 |}.

(** What a table holds after a loop that has written [w x] to entry [cntr]
    of the nodes [x] below [i]. *)
Definition written (cntr : nat) (w : nat -> option fl) (i : nat)
    (before : list (option (list fl))) (x : nat) : option (option (list fl)) :=
  match (if decide (x < i)%nat then w x else None) with
  | Some v => a ← before !! x; arr ← a; Some (Some (<[cntr := v]> arr))
  | None => before !! x
  end.

(** What a table holds after [init_sim_data] has appended the measurements
    [sel r] of the consumers below [i]. *)
Definition appended (sel : gap_node -> list fl) (nodes : list gap_node) (cntr i : nat)
    (before : list (option (list fl))) (x : nat) : option (option (list fl)) :=
  match nodes !! x with
  | Some r =>
      if decide (x < i)%nat then
        if is_consumer r
        then o ← before !! x; v ← sel r !! cntr; Some (Some (np_append o v))
        else before !! x
      else before !! x
  | None => before !! x
  end.

(** The volume [fill_mode_1] writes for a node, if any. *)
Definition share (nodes : list gap_node) (cntr : nat) (delta_V_dot total : Q) (x : nat)
    : option fl :=
  match nodes !! x with
  | Some r =>
      if is_consumer r && gap_at r cntr then
        match gn_Q_dot_max r with
        | Some Q_dot_max => Some (Some (delta_V_dot * Q_dot_max / total)%Q)
        | None => None
        end
      else None
  | None => None
  end.

(** The heat flow written beside a volume. *)
Definition share_heat (vg : var_gaps) (nodes : list gap_node) (cntr : nat)
    (delta_V_dot total : Q) (x : nat) : option fl :=
  match nodes !! x with
  | Some r =>
      if is_consumer r && gap_at r cntr then
        match gn_Q_dot_max r with
        | Some Q_dot_max =>
            let k := match gn_kWh_m3 r with
                     | Some k => if use_historical_kWh_m3 vg then k else kWh_m3 vg
                     | None => kWh_m3 vg
                     end in
            Some (Some (delta_V_dot * Q_dot_max / total * k * 3600 / 1000)%Q)
        | None => None
        end
      else None
  | None => None
  end.

(** [fill_mode_2] fills the step of this consumer: it has an error flag and
    is not the gap-filling dummy node. *)
Definition held (r : gap_node) (cntr : nat) : bool :=
  gap_at r cntr && (gn_gapfilling_node r =? 0).

(** The value [fill_mode_2] writes for a node, if any: the one of the step
    before. *)
Definition carried (nodes : list gap_node) (cntr : nat)
    (table : list (option (list fl))) (x : nat) : option fl :=
  match nodes !! x with
  | Some r => if is_consumer r && held r cntr then sim_at table x (cntr - 1) else None
  | None => None
  end.

(** * Proofs *)

#[local] Set Warnings "-clear-no-such-hyp".

(** ** [for] loops over [range] *)

Lemma foldl_seq_ind {A : Type} (P : nat -> A -> Prop) (f : A -> nat -> A) (a : A) (n : nat) :
  P 0%nat a ->
  (forall i s, (i < n)%nat -> P i s -> P (S i) (f s i)) ->
  P n (foldl f a (seq 0 n)).
Proof.
  intros H0 Hstep. induction n as [|n IH].
  - exact H0.
  - rewrite seq_S, foldl_app. simpl. apply Hstep; [lia|].
    apply IH. intros i s Hi. apply Hstep. lia.
Qed.

Lemma filter_ext_in {A : Type} (P1 P2 : A -> Prop)
    `{!forall x, Decision (P1 x), !forall x, Decision (P2 x)} (l : list A) :
  (forall x, x ∈ l -> (P1 x <-> P2 x)) -> filter P1 l = filter P2 l.
Proof.
  induction l as [|a l IH]; intros Hext; [reflexivity|].
  assert (Ha : P1 a <-> P2 a) by (apply Hext; left).
  assert (Hl : filter P1 l = filter P2 l).
  { apply IH. intros x Hx. apply Hext. now right. }
  rewrite !filter_cons. rewrite Hl.
  destruct (decide (P1 a)), (decide (P2 a)); tauto.
Qed.

Lemma count_eq_seq (s a n : nat) :
  length (filter (fun x => x = s) (seq a n)) =
  if decide (a <= s < a + n)%nat then 1%nat else 0%nat.
Proof.
  revert a. induction n as [|n IH]; intros a; simpl.
  - case_decide; [lia | reflexivity].
  - rewrite filter_cons.
    destruct (decide (a = s)); simpl; rewrite IH; repeat case_decide; lia.
Qed.

Lemma count_unique (P : nat -> Prop) `{!forall x, Decision (P x)} (n s : nat) :
  (s < n)%nat -> (forall x, (x < n)%nat -> (P x <-> x = s)) ->
  length (filter P (seq 0 n)) = 1%nat.
Proof.
  intros Hs HP.
  rewrite (filter_ext_in P (fun x => x = s)).
  - rewrite count_eq_seq. case_decide; [reflexivity | lia].
  - intros x Hx. apply elem_of_seq in Hx. apply HP. lia.
Qed.

Lemma foldl_result_ind {A : Type} (P : nat -> A -> Prop) (f : result A -> nat -> result A)
    (a : A) (n : nat) (r : A) :
  (forall msg i, f (Raised msg) i = Raised msg) ->
  P 0%nat a ->
  (forall i s s', (i < n)%nat -> P i s -> f (Ok s) i = Ok s' -> P (S i) s') ->
  foldl f (Ok a) (seq 0 n) = Ok r -> P n r.
Proof.
  intros Hraise H0 Hstep. revert r. induction n as [|n IH]; intros r.
  - intros [= <-]. exact H0.
  - rewrite seq_S, foldl_app. simpl.
    destruct (foldl f (Ok a) (seq 0 n)) as [s|msg] eqn:E.
    + intros Hr. apply (Hstep n s r); [lia| |exact Hr].
      apply IH; [|reflexivity]. intros i s0 s' Hi. apply Hstep. lia.
    + rewrite Hraise. discriminate.
Qed.


(** ** Reading and writing matrix entries *)

Lemma entry_nonzero_in_range (M : matrix) (x l : nat) :
  entry M x l <> 0 -> (l < length (default [] (M !! x)))%nat.
Proof.
  unfold entry. intros H.
  destruct (M !! x) as [row|] eqn:Hrow; [|congruence]. simpl.
  destruct (row !! l) as [v|] eqn:Hv; [|simpl in H; congruence].
  eapply lookup_lt_Some. exact Hv.
Qed.

Lemma entry_set_entry (M : matrix) (x l : nat) (v : Z) (x' l' : nat) :
  entry (set_entry M x l v) x' l' =
  if decide (x' = x /\ l' = l /\ (l < length (default [] (M !! x)))%nat)
  then v else entry M x' l'.
Proof.
  unfold entry, set_entry.
  rewrite list_lookup_alter.
  destruct (decide (x = x')) as [->|Hne].
  - destruct (M !! x') as [row|] eqn:Hrow; simpl.
    + rewrite list_lookup_insert.
      repeat case_decide; naive_solver.
    + case_decide; [naive_solver lia | reflexivity].
  - case_decide; [naive_solver | reflexivity].
Qed.

Lemma entry_set_entry_shaped (nn nl : nat) (M : matrix) (x l : nat) (v : Z) (x' l' : nat) :
  shaped nn nl M -> (x < nn)%nat -> (l < nl)%nat ->
  entry (set_entry M x l v) x' l' =
  if decide (x' = x /\ l' = l) then v else entry M x' l'.
Proof.
  intros [Hlen Hrows] Hx Hl. rewrite entry_set_entry.
  destruct (lookup_lt_is_Some_2 M x) as [row Hrow]; [lia|].
  assert (length row = nl) by (rewrite Forall_lookup in Hrows; eauto).
  rewrite Hrow. simpl.
  repeat case_decide; naive_solver lia.
Qed.

Lemma shaped_set_entry (nn nl : nat) (M : matrix) (x l : nat) (v : Z) :
  shaped nn nl M -> shaped nn nl (set_entry M x l v).
Proof.
  intros [Hlen Hrows]. split.
  - unfold set_entry. now rewrite length_alter.
  - unfold set_entry. apply Forall_alter; [exact Hrows|].
    intros row _ Hrow. now rewrite length_insert.
Qed.

Lemma shaped_zeros (nn nl : nat) : shaped nn nl (zeros nn nl).
Proof.
  split.
  - unfold zeros. now rewrite length_replicate.
  - unfold zeros. apply Forall_replicate. now rewrite length_replicate.
Qed.

Lemma entry_zeros (nn nl x l : nat) : entry (zeros nn nl) x l = 0.
Proof.
  unfold entry, zeros.
  destruct (replicate nn (replicate nl 0) !! x) as [row|] eqn:Hrow; [|reflexivity].
  apply lookup_replicate in Hrow as [-> _].
  destruct (replicate nl 0 !! l) as [v|] eqn:Hv; [|reflexivity].
  apply lookup_replicate in Hv as [-> _]. reflexivity.
Qed.

(** ** The matrix built by [make_matrix_coupl] *)

Lemma make_matrix_coupl_spec (tp : topology) :
  wf_topology tp ->
  shaped (n_node tp) (n_line tp) (make_matrix_coupl tp) /\
  forall x l, entry (make_matrix_coupl tp) x l =
              if decide (l < n_line tp)%nat then coupled_value tp x l else 0.
Proof.
  intros Hwf. unfold make_matrix_coupl.
  pose proof (foldl_seq_ind
    (fun k M => shaped (n_node tp) (n_line tp) M /\
       forall x l, entry M x l = if decide (l < k)%nat then coupled_value tp x l else 0)
    (couple_line tp) (zeros (n_node tp) (n_line tp)) (n_line tp)) as Hind.
  cbv beta in Hind. apply Hind; clear Hind.
  - split; [apply shaped_zeros|]. intros x l. rewrite entry_zeros.
    case_decide; [lia | reflexivity].
  - intros i M Hi [Hsh Hent]. destruct (Hwf i Hi) as [Hs He].
    unfold couple_line. split.
    + now do 2 apply shaped_set_entry.
    + intros x l.
      rewrite (entry_set_entry_shaped (n_node tp) (n_line tp));
        [|now apply shaped_set_entry|exact He|exact Hi].
      rewrite (entry_set_entry_shaped (n_node tp) (n_line tp));
        [|exact Hsh|exact Hs|exact Hi].
      rewrite Hent. unfold coupled_value.
      repeat case_decide; subst; try reflexivity; try lia;
        try (assert (l = i) by lia; subst; naive_solver).
Qed.

(** ** Column flips and negation *)

Lemma entry_flip_entry (M : matrix) (l x x' l' : nat) :
  entry (flip_entry M l x) x' l' =
  if decide (x' = x /\ l' = l) then flip_value (entry M x l) else entry M x' l'.
Proof.
  unfold flip_entry, flip_value.
  destruct (Z.eqb_spec (entry M x l) 1) as [E1|E1].
  - rewrite entry_set_entry.
    assert (l < length (default [] (M !! x)))%nat
      by (apply entry_nonzero_in_range; lia).
    repeat case_decide; naive_solver.
  - destruct (Z.eqb_spec (entry M x l) (-1)) as [E2|E2].
    + rewrite entry_set_entry.
      assert (l < length (default [] (M !! x)))%nat
        by (apply entry_nonzero_in_range; lia).
      repeat case_decide; naive_solver.
    + case_decide as Hd; [|reflexivity]. destruct Hd as [-> ->]. reflexivity.
Qed.

Lemma entry_flip_column (nn : nat) (M : matrix) (l x' l' : nat) :
  entry (flip_column nn M l) x' l' =
  if decide (l' = l /\ (x' < nn)%nat) then flip_value (entry M x' l)
  else entry M x' l'.
Proof.
  unfold flip_column. revert x' l'.
  pose proof (foldl_seq_ind
    (fun k M' => forall x' l', entry M' x' l' =
       if decide (l' = l /\ (x' < k)%nat) then flip_value (entry M x' l)
       else entry M x' l')
    (fun M' x_node => flip_entry M' l x_node) M nn) as Hind.
  cbv beta in Hind. apply Hind; clear Hind.
  - intros x' l'. case_decide; [lia | reflexivity].
  - intros i M' Hi IH x' l'. rewrite entry_flip_entry, !IH.
    repeat case_decide; subst; try reflexivity; naive_solver lia.
Qed.

Lemma entry_negate (M : matrix) (x l : nat) :
  entry (negate M) x l = - entry M x l.
Proof.
  unfold entry, negate. rewrite list_lookup_fmap.
  destruct (M !! x) as [row|]; simpl; [|reflexivity].
  rewrite list_lookup_fmap. destruct (row !! l); reflexivity.
Qed.

Lemma flip_value_of_sign (v : Z) :
  v = 1 \/ v = -1 \/ v = 0 -> flip_value v = - v.
Proof. unfold flip_value. intros [-> | [-> | ->]]; reflexivity. Qed.

Lemma count_in_column_ext (nn : nat) (M M' : matrix) (l l' : nat) (v v' : Z) :
  (forall x, (x < nn)%nat -> (entry M x l = v <-> entry M' x l' = v')) ->
  count_in_column nn M l v = count_in_column nn M' l' v'.
Proof.
  intros H. unfold count_in_column. f_equal.
  apply filter_ext_in. intros x Hx. apply elem_of_seq in Hx. apply H. lia.
Qed.

Lemma column_ok_flip (nn : nat) (M : matrix) (k l : nat) :
  column_ok nn M l -> column_ok nn (flip_column nn M k) l.
Proof.
  intros (Hp & Hm & Hs).
  destruct (decide (l = k)) as [->|Hne].
  - assert (Hent : forall x, (x < nn)%nat ->
              entry (flip_column nn M k) x k = - entry M x k).
    { intros x Hx. rewrite entry_flip_column.
      case_decide; [|lia]. apply flip_value_of_sign. now apply Hs. }
    split; [|split].
    + rewrite <- Hm. apply count_in_column_ext. intros x Hx.
      rewrite (Hent x Hx). lia.
    + rewrite <- Hp. apply count_in_column_ext. intros x Hx.
      rewrite (Hent x Hx). lia.
    + intros x Hx. rewrite (Hent x Hx). specialize (Hs x Hx). lia.
  - assert (Hent : forall x, entry (flip_column nn M k) x l = entry M x l).
    { intros x. rewrite entry_flip_column. case_decide; [lia | reflexivity]. }
    split; [|split].
    + rewrite <- Hp. apply count_in_column_ext. intros x _. now rewrite Hent.
    + rewrite <- Hm. apply count_in_column_ext. intros x _. now rewrite Hent.
    + intros x Hx. rewrite Hent. now apply Hs.
Qed.

Lemma column_ok_negate (nn : nat) (M : matrix) (l : nat) :
  column_ok nn M l -> column_ok nn (negate M) l.
Proof.
  intros (Hp & Hm & Hs). split; [|split].
  - rewrite <- Hm. apply count_in_column_ext. intros x _.
    rewrite entry_negate. lia.
  - rewrite <- Hp. apply count_in_column_ext. intros x _.
    rewrite entry_negate. lia.
  - intros x Hx. rewrite entry_negate. specialize (Hs x Hx). lia.
Qed.

Lemma column_ok_make_matrix_coupl (tp : topology) (l : nat) :
  wf_topology tp -> distinct_endpoints tp -> (l < n_line tp)%nat ->
  column_ok (n_node tp) (make_matrix_coupl tp) l.
Proof.
  intros Hwf Hdist Hl.
  destruct (make_matrix_coupl_spec tp Hwf) as [_ Hent].
  destruct (Hwf l Hl) as [Hs He]. specialize (Hdist l Hl).
  assert (Hval : forall x, entry (make_matrix_coupl tp) x l = coupled_value tp x l).
  { intros x. rewrite Hent. case_decide; [reflexivity | lia]. }
  split; [|split].
  - unfold count_in_column.
    apply (count_unique _ _ (node_start tp !!! l)); [exact Hs|].
    intros x Hx. rewrite Hval. unfold coupled_value.
    repeat case_decide; subst; split; intros; try lia; congruence.
  - unfold count_in_column.
    apply (count_unique _ _ (node_end tp !!! l)); [exact He|].
    intros x Hx. rewrite Hval. unfold coupled_value.
    repeat case_decide; subst; split; intros; try lia; congruence.
  - intros x Hx. rewrite Hval. unfold coupled_value.
    repeat case_decide; lia.
Qed.

(** ** One pass of the direction check *)

Lemma check_flow_directions_spec (nn nl : nat) (m : list Q) (M : matrix) :
  let st := check_flow_directions nn nl m M in
  cntr_wrong_direction st = length (filter (negative m) (seq 0 nl)) /\
  forall x l, entry (coupl st) x l =
    if decide ((l < nl)%nat /\ (x < nn)%nat /\ negative m l)
    then flip_value (entry M x l) else entry M x l.
Proof.
  unfold check_flow_directions.
  pose proof (foldl_seq_ind
    (fun k st => cntr_wrong_direction st = length (filter (negative m) (seq 0 k)) /\
       forall x l, entry (coupl st) x l =
         if decide ((l < k)%nat /\ (x < nn)%nat /\ negative m l)
         then flip_value (entry M x l) else entry M x l)
    (check_line nn m) {| cntr_wrong_direction := 0; coupl := M |} nl) as Hind.
  cbv beta in Hind. apply Hind; clear Hind.
  - split; [reflexivity|]. intros x l. cbn [coupl]. case_decide; [lia | reflexivity].
  - intros i st Hi [Hc He]. unfold check_line.
    rewrite seq_S, filter_app, length_app. simpl.
    rewrite filter_cons, filter_nil.
    destruct (decide (negative m i)) as [Hneg|Hneg]; cbn [coupl cntr_wrong_direction length].
    + split; [lia|]. intros x l. rewrite entry_flip_column, !He.
      repeat case_decide; destruct_and?; subst; try reflexivity; try lia;
        try (exfalso; naive_solver lia).
    + split; [lia|]. intros x l. rewrite He.
      destruct (decide (l = i)) as [->|Hli];
        repeat case_decide; destruct_and?; try reflexivity;
        exfalso; naive_solver lia.
Qed.

Lemma cntr_positive_iff (nn nl : nat) (m : list Q) (M : matrix) :
  (0 <? cntr_wrong_direction (check_flow_directions nn nl m M))%nat = true <->
  has_negative nl m.
Proof.
  destruct (check_flow_directions_spec nn nl m M) as [Hc _].
  rewrite Nat.ltb_lt, Hc. unfold has_negative. split.
  - intros Hpos.
    destruct (filter (negative m) (seq 0 nl)) as [|l ls] eqn:E; [simpl in Hpos; lia|].
    assert (Hin : l ∈ filter (negative m) (seq 0 nl)) by (rewrite E; left).
    apply list_elem_of_filter in Hin as [Hneg Hin].
    apply elem_of_seq in Hin. exists l. split; [lia | exact Hneg].
  - intros (l & Hl & Hneg).
    assert (Hin : l ∈ filter (negative m) (seq 0 nl)).
    { apply list_elem_of_filter. split; [exact Hneg|]. apply elem_of_seq. lia. }
    destruct (filter (negative m) (seq 0 nl)); [inversion Hin | simpl; lia].
Qed.

Lemma column_ok_pass (fs : matrix -> list Q) (nn nl : nat) (M : matrix) :
  (forall l, (l < nl)%nat -> column_ok nn M l) ->
  forall l, (l < nl)%nat -> column_ok nn (coupl (correction_pass fs nn nl M)) l.
Proof.
  intros HM. unfold correction_pass, check_flow_directions.
  pose proof (foldl_seq_ind
    (fun (k : nat) st => forall l, (l < nl)%nat -> column_ok nn (coupl st) l)
    (check_line nn (fs M)) {| cntr_wrong_direction := 0; coupl := M |} nl) as Hind.
  cbv beta in Hind. apply Hind; clear Hind.
  - exact HM.
  - intros i st Hi IH l Hl. unfold check_line.
    case_decide; cbn [coupl]; [apply column_ok_flip|]; now apply IH.
Qed.

Lemma column_ok_matrix_at (fs : matrix -> list Q) (nn nl k : nat) (M : matrix) :
  (forall l, (l < nl)%nat -> column_ok nn M l) ->
  forall l, (l < nl)%nat -> column_ok nn (matrix_at fs nn nl k M) l.
Proof.
  revert M. induction k as [|k IH]; intros M HM l Hl; simpl.
  - now apply HM.
  - apply IH; [|exact Hl]. now apply column_ok_pass.
Qed.

(** ** The correction loop *)

Section LoopFacts.

Variable fs : matrix -> list Q.
Variables (nn nl : nat).

Lemma matrix_at_S (k : nat) (M : matrix) :
  matrix_at fs nn nl (S k) M =
  coupl (correction_pass fs nn nl (matrix_at fs nn nl k M)).
Proof.
  revert M. induction k as [|k IH]; intros M; [reflexivity|].
  change (matrix_at fs nn nl (S (S k)) M)
    with (matrix_at fs nn nl (S k) (coupl (correction_pass fs nn nl M))).
  now rewrite IH.
Qed.

Lemma correction_loop_never_fatal (fuel : nat) (M : matrix) (msg : string) :
  correction_loop fs nn nl fuel M <> Fatal msg.
Proof.
  revert M. induction fuel as [|fuel IH]; intros M; simpl; [discriminate|].
  destruct (0 <? _)%nat; [apply IH | discriminate].
Qed.

Lemma correction_loop_running (fuel : nat) (M : matrix) :
  correction_loop fs nn nl fuel M = Running <->
  forall j, (j < fuel)%nat -> has_negative nl (fs (matrix_at fs nn nl j M)).
Proof.
  revert M. induction fuel as [|fuel IH]; intros M; simpl.
  - split; [intros _ j Hj; lia | reflexivity].
  - destruct (0 <? _)%nat eqn:E.
    + apply cntr_positive_iff in E. rewrite IH. split.
      * intros H [|j] Hj; [exact E|]. simpl. apply H. lia.
      * intros H j Hj. apply (H (S j)). lia.
    + split; [discriminate|]. intros H.
      assert (Hneg : has_negative nl (fs M)) by (apply (H 0%nat); lia).
      apply cntr_positive_iff with (nn := nn) (M := M) in Hneg.
      unfold correction_pass in E. congruence.
Qed.

(** When the loop returns, it returns after the first solve that reports
    no pipe below [-1e-10]; that pass flips nothing. *)
Lemma correction_loop_returned (fuel : nat) (M : matrix) (r : corrected) :
  correction_loop fs nn nl fuel M = Returned r ->
  exists k, (k < fuel)%nat /\
    (forall j, (j < k)%nat -> has_negative nl (fs (matrix_at fs nn nl j M))) /\
    ~ has_negative nl (fs (matrix_at fs nn nl k M)) /\
    matrix_coupl r = matrix_at fs nn nl (S k) M /\
    m_int r = fs (matrix_at fs nn nl k M).
Proof.
  revert M. induction fuel as [|fuel IH]; intros M; simpl; [discriminate|].
  destruct (0 <? _)%nat eqn:E.
  - intros Hr. destruct (IH _ Hr) as (k & Hk & Hbefore & Hlast & HM & Hm).
    exists (S k). split; [lia|]. split; [|split; [exact Hlast|split; assumption]].
    intros [|j] Hj; [now apply cntr_positive_iff in E|]. simpl. apply Hbefore. lia.
  - intros [= <-]. exists 0%nat. split; [lia|]. split; [intros j Hj; lia|].
    split; [|split; reflexivity].
    simpl. intros Hneg. apply cntr_positive_iff with (nn := nn) (M := M) in Hneg.
    unfold correction_pass in E. congruence.
Qed.

Lemma flip_value_involutive (v : Z) : flip_value (flip_value v) = v.
Proof.
  unfold flip_value.
  destruct (Z.eqb_spec v 1) as [->|H1]; [reflexivity|].
  destruct (Z.eqb_spec v (-1)) as [->|H2]; [reflexivity|].
  destruct (Z.eqb_spec v 1); [lia|]. destruct (Z.eqb_spec v (-1)); [lia|reflexivity].
Qed.

Lemma iter_flip_value (n : nat) (v : Z) :
  Nat.iter n flip_value v = if Nat.odd n then flip_value v else v.
Proof.
  induction n as [|n IH]; [reflexivity|].
  rewrite Nat.odd_succ, <- Nat.negb_odd. simpl. rewrite IH.
  destruct (Nat.odd n); simpl; [apply flip_value_involutive | reflexivity].
Qed.

(** An entry after [k] solves: flipped once per solve that reported its
    pipe negative. *)
Lemma entry_matrix_at (k : nat) (M : matrix) (x l : nat) :
  (x < nn)%nat -> (l < nl)%nat ->
  entry (matrix_at fs nn nl k M) x l =
  Nat.iter (negative_solves fs nn nl k M l) flip_value (entry M x l).
Proof.
  intros Hx Hl. revert M. induction k as [|k IH]; intros M; [reflexivity|].
  simpl matrix_at. simpl negative_solves. rewrite IH.
  destruct (check_flow_directions_spec nn nl (fs M) M) as [_ He].
  unfold correction_pass at 2. rewrite He.
  destruct (decide (negative (fs M) l)) as [Hn|Hn].
  - case_decide; [|exfalso; naive_solver].
    rewrite Nat.add_1_l, Nat.iter_succ_r. reflexivity.
  - case_decide; [exfalso; naive_solver|]. reflexivity.
Qed.

End LoopFacts.

Lemma column_lookup (nn : nat) (M : matrix) (l x : nat) :
  (x < nn)%nat -> column nn M l !! x = Some (entry M x l).
Proof.
  intros Hx. unfold column. rewrite list_lookup_fmap.
  rewrite lookup_seq_lt by exact Hx. reflexivity.
Qed.

Lemma column_ok_has_start (nn : nat) (M : matrix) (l : nat) :
  column_ok nn M l -> exists x, (x < nn)%nat /\ entry M x l = 1.
Proof.
  intros [Hp _]. unfold count_in_column in Hp.
  destruct (filter (fun x => entry M x l = 1) (seq 0 nn)) as [|x xs] eqn:E;
    [discriminate|].
  assert (Hin : x ∈ filter (fun x => entry M x l = 1) (seq 0 nn))
    by (rewrite E; left).
  apply list_elem_of_filter in Hin as [Hv Hin]. apply elem_of_seq in Hin.
  exists x. split; [lia | exact Hv].
Qed.

(** A column differs from the initial one exactly when its pipe was reported
    negative by an odd number of solves. *)
Lemma column_differs_iff_odd (fs : matrix -> list Q) (nn nl k : nat) (M : matrix) (l : nat) :
  column_ok nn M l -> (l < nl)%nat ->
  column nn (matrix_at fs nn nl k M) l <> column nn M l <->
  Nat.odd (negative_solves fs nn nl k M l) = true.
Proof.
  intros Hok Hl.
  assert (Hent : forall x, (x < nn)%nat ->
            entry (matrix_at fs nn nl k M) x l =
            if Nat.odd (negative_solves fs nn nl k M l)
            then flip_value (entry M x l) else entry M x l).
  { intros x Hx. rewrite entry_matrix_at by assumption. apply iter_flip_value. }
  destruct (Nat.odd (negative_solves fs nn nl k M l)).
  - split; [reflexivity|]. intros _ Heq.
    destruct (column_ok_has_start nn M l Hok) as (x & Hx & Hv).
    assert (Hcol : column nn (matrix_at fs nn nl k M) l !! x = column nn M l !! x)
      by now rewrite Heq.
    rewrite !column_lookup in Hcol by exact Hx.
    rewrite (Hent x Hx), Hv in Hcol. discriminate.
  - split; [|discriminate]. intros Hne. exfalso. apply Hne.
    unfold column. apply map_ext_in. intros x Hx. apply in_seq in Hx.
    apply Hent. lia.
Qed.

(** ** Continuity equations *)

Lemma mapM_seq_lookup {B : Type} (f : nat -> option B) (n : nat) (k : list B) (i : nat) :
  mapM f (seq 0 n) = Some k -> (i < n)%nat ->
  exists y, k !! i = Some y /\ f i = Some y.
Proof.
  intros Hm Hi. apply mapM_Some_1 in Hm.
  destruct (Forall2_lookup_l _ _ _ i i Hm) as (y & Hy & Hf).
  - now apply lookup_seq_lt.
  - exists y. now split.
Qed.

Lemma signed_sum_snoc (M : matrix) (m : list Q) (x : nat) (ls : list nat) (l : nat) :
  (foldr (fun x_line acc => inject_Z (entry M x x_line) * (m !!! x_line) + acc) 0 (ls ++ [l]) ==
   foldr (fun x_line acc => inject_Z (entry M x x_line) * (m !!! x_line) + acc) 0 ls
   + inject_Z (entry M x l) * (m !!! l))%Q.
Proof.
  induction ls as [|a ls IH]; simpl.
  - ring.
  - rewrite IH. ring.
Qed.

(** The loop of the source skips the zero entries; it computes the signed
    sum over the incident pipes. *)
Lemma continuity_sum_signed_sum (M : matrix) (nl : nat) (m : list Q) (x : nat) :
  (continuity_sum M nl m x == signed_sum M nl m x)%Q.
Proof.
  unfold continuity_sum, signed_sum, incident.
  induction nl as [|nl IH]; [reflexivity|].
  rewrite seq_S, foldl_app, filter_app. simpl.
  rewrite filter_cons, filter_nil.
  destruct (Z.eqb_spec (entry M x nl) 0) as [E|E].
  - destruct (decide (entry M x nl <> 0)) as [?|_]; [contradiction|].
    rewrite app_nil_r. exact IH.
  - destruct (decide (entry M x nl <> 0)) as [_|?]; [|contradiction].
    rewrite signed_sum_snoc, IH. reflexivity.
Qed.

(** ** Reading the reference node *)

Lemma read_rows_raised (msg : string) (rows : list node_row) :
  foldl read_node_row (Raised msg) rows = Raised msg.
Proof. induction rows as [|row rows IH]; [reflexivity | exact IH]. Qed.

(** If the rows are read without an exception, every flagged row was a
    feeder and added one entry to [node.p_ref]. *)
Lemma read_rows_ok (rows : list node_row) (nd nd' : grid_nodes) :
  foldl read_node_row (Ok nd) rows = Ok nd' ->
  length (p_ref_nodes nd') = (length (p_ref_nodes nd) + length (filter flagged rows))%nat /\
  Forall (fun row => flagged row -> col_feed_in row <> None) rows.
Proof.
  revert nd. induction rows as [|row rows IH]; intros nd; simpl.
  - intros [= <-]. split; [lia | constructor].
  - rewrite filter_cons.
    destruct (decide (flagged row)) as [Hf|Hf].
    + pose proof Hf as Hf'. unfold flagged in Hf'.
      apply andb_prop_elim in Hf' as [H1 H2].
      apply Is_true_true in H1, H2. rewrite H1, H2.
      destruct (romanToInt_cell (col_number row)) as [arabic|msg];
        [|rewrite read_rows_raised; discriminate].
      destruct (col_feed_in row) as [id|] eqn:Efeed.
      * intros H. destruct (IH _ H) as [Hlen Hall]. simpl in Hlen.
        rewrite length_app in Hlen. simpl in Hlen.
        split; [simpl; lia|]. constructor; [|exact Hall].
        intros _. rewrite Efeed. discriminate.
      * rewrite read_rows_raised. discriminate.
    + destruct (read_node_row (Ok nd) row) as [nd1|msg] eqn:Hstep;
        [|simpl in Hstep; rewrite Hstep, read_rows_raised; discriminate].
      assert (Hrefs : p_ref_nodes nd1 = p_ref_nodes nd).
      { unfold flagged in Hf. simpl in Hstep.
        destruct (is_cell (col_in_use row) "ja"); [|now injection Hstep as <-].
        destruct (romanToInt_cell (col_number row)) as [arabic|msg]; [|discriminate].
        destruct (is_cell (col_p_ref row) "x"); [|now injection Hstep as <-].
        exfalso. apply Hf. exact I. }
      simpl in Hstep. rewrite Hstep.
      intros H. destruct (IH _ H) as [Hlen Hall]. rewrite Hrefs in Hlen.
      split; [exact Hlen|]. constructor; [|exact Hall]. intros Hflag. contradiction.
Qed.

(** ** Thermal propagation: flags and counters *)

Lemma flag_insert (a : list bool) (i j : nat) (b : bool) :
  flag (<[i := b]> a) j = if decide (i = j /\ (i < length a)%nat) then b else flag a j.
Proof. unfold flag. rewrite list_lookup_insert. now case_decide. Qed.

Lemma flag_zeros (n i : nat) : flag (zeros_flags n) i = false.
Proof.
  unfold flag, zeros_flags.
  destruct (replicate n false !! i) as [b|] eqn:E; [|reflexivity].
  apply lookup_replicate in E as [-> _]. reflexivity.
Qed.

Lemma flag_ge (a : list bool) (i : nat) : (length a <= i)%nat -> flag a i = false.
Proof. intros H. unfold flag. now rewrite lookup_ge_None_2. Qed.

Lemma count_event_app (e : event) (evs1 evs2 : list event) :
  count_event e (evs1 ++ evs2) = (count_event e evs1 + count_event e evs2)%nat.
Proof. unfold count_event. now rewrite filter_app, length_app. Qed.

Lemma count_event_one (e e' : event) :
  count_event e [e'] = if decide (e' = e) then 1%nat else 0%nat.
Proof.
  unfold count_event. rewrite filter_cons, filter_nil. now case_decide.
Qed.





(** ** Thermal propagation: the four phases of one pass *)

Ltac simpl_state :=
  cbn [node_calc line_calc node_calc_now line_calc_now t_trans t_line events
       set_node_calc_now set_line_calc_now mark_node assign_node advance] in *.

Ltac contra :=
  exfalso;
  match goal with
  | H : ~ _ |- _ =>
      apply H;
      first [ split_and!; first [lia | assumption | congruence | reflexivity]
            | congruence
            | f_equal; lia ]
  end.

Ltac flag_cases :=
  repeat case_decide; destruct_and?; simplify_eq;
  try reflexivity; try congruence; try lia; try contra.

Section Phases.

Variable inp : therm_input.

Lemma node_ready_ext (st1 st2 : therm_state) (x : nat) :
  node_calc st1 = node_calc st2 -> line_calc st1 = line_calc st2 ->
  node_ready inp st1 x = node_ready inp st2 x.
Proof.
  intros Hn Hl. unfold node_ready, incoming_with. now rewrite Hn, Hl.
Qed.

Lemma line_ready_ext (st1 st2 : therm_state) (l : nat) :
  node_calc st1 = node_calc st2 -> line_calc st1 = line_calc st2 ->
  line_ready inp st1 l = line_ready inp st2 l.
Proof.
  intros Hn Hl. unfold line_ready. now rewrite Hn, Hl.
Qed.

Lemma find_node_unfold (st : therm_state) (x : nat) :
  find_node inp st x =
  if node_ready inp st x
  then set_node_calc_now (<[x := true]> (node_calc_now st)) st else st.
Proof.
  unfold find_node, node_ready.
  destruct (negb (flag (node_calc st) x)); [|reflexivity]. reflexivity.
Qed.

Lemma find_line_unfold (st : therm_state) (l : nat) :
  find_line inp st l =
  if line_ready inp st l
  then set_line_calc_now (<[l := true]> (line_calc_now st)) st else st.
Proof.
  unfold find_line, line_ready.
  destruct (negb (flag (line_calc st) l)); [|reflexivity]. reflexivity.
Qed.

(** "FIND NODES" only writes [node_calc_now]. *)
Lemma find_nodes_spec (st : therm_state) (n : nat) :
  let st' := foldl (find_node inp) st (seq 0 n) in
  node_calc st' = node_calc st /\ line_calc st' = line_calc st /\
  line_calc_now st' = line_calc_now st /\ t_trans st' = t_trans st /\
  t_line st' = t_line st /\ events st' = events st /\
  length (node_calc_now st') = length (node_calc_now st) /\
  forall x, flag (node_calc_now st') x =
    if decide ((x < n)%nat /\ (x < length (node_calc_now st))%nat /\
               node_ready inp st x = true)
    then true else flag (node_calc_now st) x.
Proof.
  pose proof (foldl_seq_ind
    (fun k st' =>
       node_calc st' = node_calc st /\ line_calc st' = line_calc st /\
       line_calc_now st' = line_calc_now st /\ t_trans st' = t_trans st /\
       t_line st' = t_line st /\ events st' = events st /\
       length (node_calc_now st') = length (node_calc_now st) /\
       forall x, flag (node_calc_now st') x =
         if decide ((x < k)%nat /\ (x < length (node_calc_now st))%nat /\
                    node_ready inp st x = true)
         then true else flag (node_calc_now st) x)
    (find_node inp) st n) as Hind.
  cbv beta in Hind. apply Hind; clear Hind.
  - split_and!; try reflexivity.
    all: intros x; case_decide; [lia | reflexivity].
  - intros i s Hi (Hn & Hl & Hln & Ht & Htl & He & Hlen & Hflag).
    rewrite find_node_unfold, (node_ready_ext s st i Hn Hl).
    destruct (node_ready inp st i) eqn:Er; simpl_state.
    + split_and!; try assumption.
      * now rewrite length_insert.
      * intros x. rewrite flag_insert, Hflag, Hlen.
        flag_cases.
    + split_and!; try assumption. intros x. rewrite Hflag.
      destruct (decide (x = i)) as [->|Hxi]; flag_cases.
Qed.

(** "DETERMINE PIPES" only writes [line_calc_now]. *)
Lemma find_lines_spec (st : therm_state) (n : nat) :
  let st' := foldl (find_line inp) st (seq 0 n) in
  node_calc st' = node_calc st /\ line_calc st' = line_calc st /\
  node_calc_now st' = node_calc_now st /\ t_trans st' = t_trans st /\
  t_line st' = t_line st /\ events st' = events st /\
  length (line_calc_now st') = length (line_calc_now st) /\
  forall l, flag (line_calc_now st') l =
    if decide ((l < n)%nat /\ (l < length (line_calc_now st))%nat /\
               line_ready inp st l = true)
    then true else flag (line_calc_now st) l.
Proof.
  pose proof (foldl_seq_ind
    (fun k st' =>
       node_calc st' = node_calc st /\ line_calc st' = line_calc st /\
       node_calc_now st' = node_calc_now st /\ t_trans st' = t_trans st /\
       t_line st' = t_line st /\ events st' = events st /\
       length (line_calc_now st') = length (line_calc_now st) /\
       forall l, flag (line_calc_now st') l =
         if decide ((l < k)%nat /\ (l < length (line_calc_now st))%nat /\
                    line_ready inp st l = true)
         then true else flag (line_calc_now st) l)
    (find_line inp) st n) as Hind.
  cbv beta in Hind. apply Hind; clear Hind.
  - split_and!; try reflexivity.
    all: intros x; case_decide; [lia | reflexivity].
  - intros i s Hi (Hn & Hl & Hln & Ht & Htl & He & Hlen & Hflag).
    rewrite find_line_unfold, (line_ready_ext s st i Hn Hl).
    destruct (line_ready inp st i) eqn:Er; simpl_state.
    + split_and!; try assumption.
      * now rewrite length_insert.
      * intros x. rewrite flag_insert, Hflag, Hlen.
        flag_cases.
    + split_and!; try assumption. intros x. rewrite Hflag.
      destruct (decide (x = i)) as [->|Hxi]; flag_cases.
Qed.




End Phases.

(** ** Thermal propagation on a tree with a single feeder *)





Section Tree.

Variable inp : therm_input.
Variable f : nat.
Hypothesis Htree : single_feeder_tree inp f.




















(** The first loop of the substep, for one source node: the outgoing pipes
    are advanced and the node is marked. *)
Lemma seed_lines_spec (x : nat) (T : Q) (st : therm_state) (n : nat) :
  let st' := foldl (forerun_seed_line inp x T) st (seq 0 n) in
  node_calc_now st' = node_calc_now st /\ line_calc_now st' = line_calc_now st /\
  length (node_calc st') = length (node_calc st) /\
  length (line_calc st') = length (line_calc st) /\
  (forall y, flag (node_calc st') y =
     if decide (y = x /\ (x < length (node_calc st))%nat /\
                Exists (fun l => entry (coupling inp) x l = 1) (seq 0 n))
     then true else flag (node_calc st) y) /\
  (forall l, flag (line_calc st') l =
     if decide ((l < n)%nat /\ (l < length (line_calc st))%nat /\
                entry (coupling inp) x l = 1)
     then true else flag (line_calc st) l) /\
  (forall l, count_event (LineAdvanced l) (events st') =
     (count_event (LineAdvanced l) (events st) +
      if decide ((l < n)%nat /\ entry (coupling inp) x l = 1%Z) then 1 else 0)%nat) /\
  (forall y, count_event (NodeAssigned y) (events st') =
     count_event (NodeAssigned y) (events st)).
Proof.
  pose proof (foldl_seq_ind
    (fun k st' =>
       node_calc_now st' = node_calc_now st /\ line_calc_now st' = line_calc_now st /\
       length (node_calc st') = length (node_calc st) /\
       length (line_calc st') = length (line_calc st) /\
       (forall y, flag (node_calc st') y =
          if decide (y = x /\ (x < length (node_calc st))%nat /\
                     Exists (fun l => entry (coupling inp) x l = 1) (seq 0 k))
          then true else flag (node_calc st) y) /\
       (forall l, flag (line_calc st') l =
          if decide ((l < k)%nat /\ (l < length (line_calc st))%nat /\
                     entry (coupling inp) x l = 1)
          then true else flag (line_calc st) l) /\
       (forall l, count_event (LineAdvanced l) (events st') =
          (count_event (LineAdvanced l) (events st) +
           if decide ((l < k)%nat /\ entry (coupling inp) x l = 1%Z) then 1 else 0)%nat) /\
       (forall y, count_event (NodeAssigned y) (events st') =
          count_event (NodeAssigned y) (events st)))
    (forerun_seed_line inp x T) st n) as Hind.
  cbv beta in Hind. apply Hind; clear Hind.
  - split_and!; try reflexivity; intros y;
      (case_decide as Hd; [|first [reflexivity | lia]]);
      first [lia | destruct Hd as (_ & _ & He); inversion He].
  - intros i s Hi (Hnn & Hln & Hlenn & Hlenl & Fn & Fl & Cl & Cn).
    assert (Hex : Exists (fun l => entry (coupling inp) x l = 1) (seq 0 (S i)) <->
                  Exists (fun l => entry (coupling inp) x l = 1) (seq 0 i) \/
                  entry (coupling inp) x i = 1).
    { rewrite seq_S, Exists_app, Exists_cons, Exists_nil. simpl. tauto. }
    unfold forerun_seed_line.
    destruct (Z.eqb_spec (entry (coupling inp) x i) 1) as [E|E]; simpl_state.
    + split_and!; try assumption.
      * now rewrite length_insert.
      * now rewrite length_insert.
      * intros y. rewrite flag_insert, Fn, Hlenn.
        repeat case_decide; destruct_and?; simplify_eq; try reflexivity;
          try (exfalso; tauto); try lia.
      * intros l. rewrite flag_insert, Fl, Hlenl.
        destruct (decide (l = i)) as [->|?]; flag_cases.
      * intros l. rewrite count_event_app, count_event_one, Cl.
        destruct (decide (l = i)) as [->|?]; flag_cases.
      * intros y. rewrite count_event_app, count_event_one, Cn. flag_cases.
    + split_and!; try assumption.
      * intros y. rewrite Fn.
        repeat case_decide; destruct_and?; simplify_eq; try reflexivity;
          exfalso; tauto.
      * intros l. rewrite Fl.
        destruct (decide (l = i)) as [->|?]; flag_cases.
      * intros l. rewrite Cl.
        destruct (decide (l = i)) as [->|?]; flag_cases.
Qed.




End Tree.

(** ** Thermal propagation: the temperatures written *)

Section PassValues.

Variable inp : therm_input.






End PassValues.



Section TreeValues.

Variable inp : therm_input.
Variable f : nat.
Variable T : Q.
Variable t0 : list (list fl).
Hypothesis Htree : single_feeder_tree inp f.


End TreeValues.





Section TreeSeedValues.

Variable inp : therm_input.
Variable f : nat.
Variable T : Q.
Variable t0 : list (list fl).
Hypothesis Htree : single_feeder_tree inp f.



End TreeSeedValues.




(** With the feeder the only source, the network of the claim is a
    single-feeder tree. *)
Lemma claimed_tree_only_source (inp : therm_input) (f : nat) :
  claimed_tree inp f -> (forall s, is_source inp s -> s = f) ->
  single_feeder_tree inp f.
Proof.
  intros (Hcol & _ & Hacyc & Hsrc & HT & Hothers & Hreach & Hpos) Honly.
  unfold single_feeder_tree. split_and!; try assumption.
  - intros x Hx. destruct (Hreach x Hx) as (s & Hs & Hr).
    now rewrite <- (Honly s Hs).
  - intros x Hx Hxf. apply (Hothers x Hx Hxf).
Qed.



(** ** Node balances *)

Lemma heat_sum_snoc (inp : therm_input) (T : nat -> Q) (ls : list nat) (l : nat) :
  (heat_sum inp T (ls ++ [l]) == heat_sum inp T ls + T l * (m_int_trans inp !!! l))%Q.
Proof.
  unfold heat_sum. induction ls as [|a ls IH]; simpl; [ring|]. rewrite IH. ring.
Qed.

Lemma flow_sum_snoc (inp : therm_input) (ls : list nat) (l : nat) :
  (flow_sum inp (ls ++ [l]) == flow_sum inp ls + (m_int_trans inp !!! l))%Q.
Proof.
  unfold flow_sum. induction ls as [|a ls IH]; simpl; [ring|]. rewrite IH. ring.
Qed.

(** The sums the mixing loop accumulates, when the outlets of the inflowing
    pipes hold finite temperatures [T]. *)
Lemma mix_sums_spec (inp : therm_input) (st : therm_state) (x : nat)
    (T : nat -> Q) (a b : Q) :
  (forall l, l ∈ incoming inp x -> outlet st l = Some (T l)) ->
  exists s1 s2, mix_sums inp st x (Some a, b) = (Some s1, s2) /\
    (s1 == a + heat_sum inp T (incoming inp x))%Q /\
    (s2 == b + flow_sum inp (incoming inp x))%Q.
Proof.
  unfold mix_sums, incoming. generalize (line_count inp) as n.
  induction n as [|n IH]; intros Hout.
  - exists a, b. simpl. split; [reflexivity|]. split; ring.
  - assert (Hn : entry (coupling inp) x n = -1 -> outlet st n = Some (T n)).
    { intros En. apply Hout. apply list_elem_of_filter.
      split; [exact En|]. apply elem_of_seq. lia. }
    destruct IH as (s1 & s2 & E & H1 & H2).
    { intros l Hl. apply Hout. rewrite seq_S, filter_app.
      apply elem_of_app. now left. }
    rewrite seq_S, foldl_app, filter_app. simpl.
    rewrite filter_cons, filter_nil.
    rewrite E. unfold add_inflow. simpl.
    destruct (Z.eqb_spec (entry (coupling inp) x n) (-1)) as [En|En].
    + destruct (decide (entry (coupling inp) x n = -1)) as [_|?]; [|contradiction].
      rewrite (Hn En). simpl. eexists _, _. split; [reflexivity|].
      rewrite heat_sum_snoc, flow_sum_snoc, H1, H2. split; ring.
    + destruct (decide (entry (coupling inp) x n = -1)) as [?|_]; [contradiction|].
      rewrite app_nil_r. exists s1, s2. split; [reflexivity|]. now split.
Qed.

Lemma np_div_nonzero (a b : Q) : ~ (b == 0)%Q -> np_div a b = Some (a / b)%Q.
Proof.
  intros Hb. unfold np_div.
  destruct (Qeq_bool b 0) eqn:E; [|reflexivity].
  apply Qeq_bool_eq in E. contradiction.
Qed.

Lemma Qeq_bool_false (a b : Q) : ~ (a == b)%Q -> Qeq_bool a b = false.
Proof.
  intros H. destruct (Qeq_bool a b) eqn:E; [|reflexivity].
  apply Qeq_bool_eq in E. contradiction.
Qed.

Lemma Qlt_bool_true (a b : Q) : Qlt_bool a b = true <-> (a < b)%Q.
Proof.
  unfold Qlt_bool. rewrite negb_true_iff. split.
  - intros H. apply Qnot_le_lt. intros Hle. apply Qle_bool_iff in Hle. congruence.
  - intros H. destruct (Qle_bool b a) eqn:E; [|reflexivity].
    apply Qle_bool_iff in E. exfalso. now apply (Qlt_not_le a b).
Qed.

Lemma Qlt_bool_false (a b : Q) : Qlt_bool a b = false <-> (b <= a)%Q.
Proof.
  unfold Qlt_bool. rewrite negb_false_iff. apply Qle_bool_iff.
Qed.

(** The mixing law of the forerun for a node that does not inject: the
    mass-flow-weighted average of the outlets of the inflowing pipes. *)
Lemma forerun_mixing_law (inp : therm_input) (st : therm_state) (x : nat) (T : nat -> Q) :
  (m_ext_trans inp !!! x <= 0)%Q -> count_row inp x (-1) <> 1%nat ->
  (forall l, l ∈ incoming inp x -> outlet st l = Some (T l)) ->
  ~ (flow_sum inp (incoming inp x) == 0)%Q ->
  exists t, forerun_node_balance inp st x = Ok (Some (Some t)) /\
    (t == heat_sum inp T (incoming inp x) / flow_sum inp (incoming inp x))%Q.
Proof.
  intros Hm Hin Hout Hflow. unfold forerun_node_balance.
  assert (Hbr : Qeq_bool (m_ext_trans inp !!! x) 0 ||
                Qlt_bool (m_ext_trans inp !!! x) 0 = true).
  { destruct (Qeq_bool (m_ext_trans inp !!! x) 0) eqn:E0; [reflexivity|]. simpl.
    apply Qlt_bool_true. apply Qeq_bool_neq in E0.
    apply Qle_lteq in Hm as [Hlt|Heq]; [exact Hlt | contradiction]. }
  rewrite Hbr. apply Nat.eqb_neq in Hin. rewrite Hin.
  destruct (mix_sums_spec inp st x T 0 0 Hout) as (s1 & s2 & E & H1 & H2).
  rewrite E. unfold quotient. simpl.
  assert (Hs2 : ~ (s2 == 0)%Q) by (rewrite H2, Qplus_0_l; exact Hflow).
  rewrite (np_div_nonzero s1 s2 Hs2).
  eexists. split; [reflexivity|]. rewrite H1, H2, !Qplus_0_l. reflexivity.
Qed.

(** The mixing law of the forerun for the reference feeder with incoming
    pipes: the feeder temperature enters the average, weighted by the
    measured feed flow. *)
Lemma forerun_mixing_law_feeder (inp : therm_input) (st : therm_state) (x : nat)
    (T : nat -> Q) (id : string) (V T_feed : Q) :
  (0 < m_ext_trans inp !!! x)%Q -> (0 < count_row inp x (-1))%nat ->
  feed_in inp !! x = Some (Some id) -> id <> "" -> x ∈ p_ref_list inp ->
  V_dot_feed inp !! x = Some (Some V) -> temp_flow_feed inp !! x = Some (Some T_feed) ->
  (forall l, l ∈ incoming inp x -> outlet st l = Some (T l)) ->
  let m_feed := (V * rho inp / 1000)%Q in
  ~ (m_feed + flow_sum inp (incoming inp x) == 0)%Q ->
  exists t, forerun_node_balance inp st x = Ok (Some (Some t)) /\
    (t == (T_feed * m_feed + heat_sum inp T (incoming inp x)) /
          (m_feed + flow_sum inp (incoming inp x)))%Q.
Proof.
  intros Hm Hin Hfeed Hid Href HV HT Hout m_feed Hflow.
  unfold forerun_node_balance.
  assert (Hbr : Qeq_bool (m_ext_trans inp !!! x) 0 ||
                Qlt_bool (m_ext_trans inp !!! x) 0 = false).
  { apply orb_false_iff. split.
    - apply Qeq_bool_false. intros E. rewrite E in Hm. now apply (Qlt_irrefl 0).
    - apply Qlt_bool_false. now apply Qlt_le_weak. }
  rewrite Hbr. apply Nat.ltb_lt in Hin. rewrite Hin.
  rewrite Hfeed, HV, HT. simpl.
  destruct (decide (id = "")) as [?|_]; [contradiction|].
  rewrite bool_decide_eq_true_2 by exact Href. simpl.
  destruct (mix_sums_spec inp st x T (T_feed * m_feed) m_feed Hout)
    as (s1 & s2 & E & H1 & H2).
  fold m_feed. rewrite E. unfold quotient. simpl.
  assert (Hs2 : ~ (s2 == 0)%Q) by (rewrite H2; exact Hflow).
  rewrite (np_div_nonzero s1 s2 Hs2).
  eexists. split; [reflexivity|]. rewrite H1, H2. reflexivity.
Qed.

Lemma return_seed_lines_t_trans (inp : therm_input) (x : nat) (T : fl)
    (st : therm_state) (n : nat) :
  t_trans (foldl (return_seed_line inp x T) st (seq 0 n)) = t_trans st.
Proof.
  pose proof (foldl_seq_ind (fun (k : nat) st' => t_trans st' = t_trans st)
                (return_seed_line inp x T) st n) as Hind.
  cbv beta in Hind. apply Hind; clear Hind; [reflexivity|].
  intros i s _ IH. unfold return_seed_line.
  destruct (Z.eqb _ 1); [|exact IH]. simpl_state. exact IH.
Qed.

(** The energy balance of a consumer, for a finite forerun temperature and
    a volumetric flow [V] that carries the mass flow [m]. *)
Lemma energy_balance_value (inp : therm_input) (tf Qd V m : Q) :
  ~ (m == 0)%Q -> ~ (c_p inp == 0)%Q -> (V / 1000 * rho inp == m)%Q ->
  exists e, energy_balance inp (Some tf) Qd V = Some e /\
            (e == tf - Qd * 1000 / (m * c_p inp))%Q.
Proof.
  intros Hm Hc HV. unfold energy_balance. simpl.
  assert (Hden : (V / 1000 * rho inp * c_p inp == m * c_p inp)%Q)
    by (rewrite HV; reflexivity).
  assert (Hnz : ~ (V / 1000 * rho inp * c_p inp == 0)%Q).
  { rewrite Hden. intros H0. apply Qmult_integral in H0. tauto. }
  rewrite (np_div_nonzero _ _ Hnz). simpl.
  eexists. split; [reflexivity|]. rewrite Hden. reflexivity.
Qed.

(** What the unguarded and the guarded quotient do with a zero denominator. *)
Lemma quotient_zero (s1 : fl) (s2 : Q) : (s2 == 0)%Q -> quotient (s1, s2) = None.
Proof.
  intros H. unfold quotient, np_div. simpl.
  apply Qeq_eq_bool in H. rewrite H. now destruct s1.
Qed.

Lemma guarded_quotient_zero (ctx : return_context) (x : nat) (s1 : fl) (s2 : Q) :
  (s2 == 0)%Q ->
  guarded_quotient ctx x (s1, s2) = mjoin (t_return_prev ctx !! x).
Proof.
  intros H. unfold guarded_quotient. simpl.
  apply Qeq_eq_bool in H. now rewrite H.
Qed.

(** The forerun mixing of a node that does not inject evaluates its quotient
    also when the inflowing mass flows sum to zero. *)
Lemma forerun_mixing_zero_flow (inp : therm_input) (st : therm_state) (x : nat)
    (T : nat -> Q) :
  (m_ext_trans inp !!! x <= 0)%Q -> count_row inp x (-1) <> 1%nat ->
  (forall l, l ∈ incoming inp x -> outlet st l = Some (T l)) ->
  (flow_sum inp (incoming inp x) == 0)%Q ->
  forerun_node_balance inp st x = Ok (Some None).
Proof.
  intros Hm Hin Hout Hflow. unfold forerun_node_balance.
  assert (Hbr : Qeq_bool (m_ext_trans inp !!! x) 0 ||
                Qlt_bool (m_ext_trans inp !!! x) 0 = true).
  { destruct (Qeq_bool (m_ext_trans inp !!! x) 0) eqn:E0; [reflexivity|]. simpl.
    apply Qlt_bool_true. apply Qeq_bool_neq in E0.
    apply Qle_lteq in Hm as [Hlt|Heq]; [exact Hlt | contradiction]. }
  rewrite Hbr. apply Nat.eqb_neq in Hin. rewrite Hin.
  destruct (mix_sums_spec inp st x T 0 0 Hout) as (s1 & s2 & E & H1 & H2).
  rewrite E, quotient_zero; [reflexivity|]. rewrite H2, Hflow. ring.
Qed.

(** The return mixing of a node without external flow falls back to the
    previous value in that case. *)
Lemma return_mixing_zero_flow (inp : therm_input) (ctx : return_context)
    (st : therm_state) (x : nat) (T : nat -> Q) :
  (m_ext_trans inp !!! x == 0)%Q -> count_row inp x (-1) <> 1%nat ->
  (forall l, l ∈ incoming inp x -> outlet st l = Some (T l)) ->
  (flow_sum inp (incoming inp x) == 0)%Q ->
  return_node_balance inp ctx st x = Ok [mjoin (t_return_prev ctx !! x)].
Proof.
  intros Hm Hin Hout Hflow. unfold return_node_balance.
  apply Qeq_eq_bool in Hm. rewrite Hm.
  apply Nat.eqb_neq in Hin. rewrite Hin.
  destruct (mix_sums_spec inp st x T 0 0 Hout) as (s1 & s2 & E & H1 & H2).
  rewrite E, guarded_quotient_zero; [reflexivity|]. rewrite H2, Hflow. ring.
Qed.

(** A feeder with positive external return flow that starts the return
    propagation stops the run. *)
Lemma return_seed_feeder_raises (inp : therm_input) (ctx : return_context)
    (st : therm_state) (x : nat) (id : string) :
  (0 < m_ext_trans inp !!! x)%Q -> count_row inp x (-1) = 0%nat ->
  feed_in inp !! x = Some (Some id) ->
  return_seed_node inp ctx (Ok st) x =
  Raised ("ValueError: Umkehr der Strömungsrichtung bei Einspeiser "
          +:+ id +:+ " festgestellt!").
Proof.
  intros Hm Hin Hfeed. unfold return_seed_node. cbn [mbind result_bind].
  assert (Hq : Qle_bool 0 (m_ext_trans inp !!! x) = true)
    by (apply Qle_bool_iff; now apply Qlt_le_weak).
  rewrite Hq, Hin. simpl. unfold return_seed_temp.
  rewrite Qeq_bool_false, Hfeed; [reflexivity|].
  intros H0. rewrite H0 in Hm. now apply (Qlt_irrefl 0).
Qed.

(** * Claims *)

(** ** Direction correction *)

(** Whatever the root finder: when [solve_network_hydr] returns, every
    pipe's forerun and return mass flow is at least [-1e-10]; each loop
    stopped at its first solve without a flow below [-1e-10]; and a pipe's
    final column differs from the orientation the loop started from exactly
    when an odd number of the loop's solves yielded a flow below [-1e-10]
    for that pipe (the return loop starts from the negated final forerun
    matrix). *)
Lemma solve_network_hydr_flip_parity
    (fs_f fs_r : matrix -> list Q) (nn nl fuel : nat) (M : matrix) (r : hydr_result) :
  solve_network_hydr fs_f fs_r nn nl fuel M = Returned r ->
  (forall l, (l < nl)%nat -> column_ok nn M l) ->
  exists kf kr,
    (forall j, (j < kf)%nat -> has_negative nl (fs_f (matrix_at fs_f nn nl j M))) /\
    (forall j, (j < kr)%nat ->
       has_negative nl (fs_r (matrix_at fs_r nn nl j (negate (matrix_coupl_forerun r))))) /\
    forall l, (l < nl)%nat ->
      (neg_tol <= m_int_forerun r !!! l)%Q /\
      (neg_tol <= m_int_return r !!! l)%Q /\
      (column nn (matrix_coupl_forerun r) l <> column nn M l <->
       Nat.odd (negative_solves fs_f nn nl (S kf) M l) = true) /\
      (column nn (matrix_coupl_return r) l <>
         column nn (negate (matrix_coupl_forerun r)) l <->
       Nat.odd (negative_solves fs_r nn nl (S kr)
                  (negate (matrix_coupl_forerun r)) l) = true).
Proof.
  unfold solve_network_hydr. intros Hsolve Hok.
  destruct (correction_loop fs_f nn nl fuel M) as [f| |] eqn:Ef; try discriminate.
  destruct (correction_loop fs_r nn nl fuel (negate (matrix_coupl f))) as [b| |] eqn:Eb;
    try discriminate.
  injection Hsolve as <-. cbn [matrix_coupl_forerun matrix_coupl_return
                                m_int_forerun m_int_return].
  destruct (correction_loop_returned _ _ _ _ _ _ Ef) as (kf & _ & Hbf & Hlf & HMf & Hmf).
  destruct (correction_loop_returned _ _ _ _ _ _ Eb) as (kr & _ & Hbr & Hlr & HMr & Hmr).
  exists kf, kr. split; [exact Hbf|]. split; [exact Hbr|].
  intros l Hl.
  assert (Hok' : forall l, (l < nl)%nat -> column_ok nn (negate (matrix_coupl f)) l).
  { intros l' Hl'. apply column_ok_negate. rewrite HMf.
    now apply column_ok_matrix_at. }
  split; [|split; [|split]].
  - rewrite Hmf. apply Qnot_lt_le. intros Hneg. apply Hlf. now exists l.
  - rewrite Hmr. apply Qnot_lt_le. intros Hneg. apply Hlr. now exists l.
  - rewrite HMf. apply column_differs_iff_odd; [now apply Hok | exact Hl].
  - rewrite HMr. apply column_differs_iff_odd; [now apply Hok' | exact Hl].
Qed.

Lemma Example_columns_ok (l : nat) :
  (l < 2)%nat -> column_ok 3 (make_matrix_coupl Example_tp) l.
Proof.
  intros Hl. apply (column_ok_make_matrix_coupl Example_tp).
  - intros [|[|k]] Hk; simpl in *; try lia; vm_compute; split; lia.
  - intros [|[|k]] Hk; simpl in *; try lia; vm_compute; lia.
  - exact Hl.
Qed.

(** ** Direction correction with a root finder that follows the orientation *)

(** Why a root finder follows the orientation: reversing a pipe in the
    coupling matrix together with the sign of its mass flow leaves the
    continuity sum of every node as it is, so the flows that balance the
    nodes for one orientation, with the sign of the reversed pipe changed,
    balance them for the other. *)
Lemma continuity_sum_flip (nn nl : nat) (M : matrix) (m : list Q) (k x : nat) :
  (forall c, (c < nl)%nat -> column_ok nn M c) ->
  (k < nl)%nat -> (x < nn)%nat -> (k < length m)%nat ->
  (continuity_sum (flip_column nn M k) nl (<[k := (- (m !!! k))%Q]> m) x ==
   continuity_sum M nl m x)%Q.
Proof.
  intros Hok Hk Hx Hlen. unfold continuity_sum.
  assert (Hgen : forall n, (n <= nl)%nat ->
    (foldl (fun equ x_line =>
              if Z.eqb (entry (flip_column nn M k) x x_line) 0 then equ
              else (equ + inject_Z (entry (flip_column nn M k) x x_line)
                          * (<[k := (- (m !!! k))%Q]> m !!! x_line))%Q) 0%Q (seq 0 n) ==
     foldl (fun equ x_line =>
              if Z.eqb (entry M x x_line) 0 then equ
              else (equ + inject_Z (entry M x x_line) * (m !!! x_line))%Q)
           0%Q (seq 0 n))%Q).
  { induction n as [|n IH]; intros Hn; [reflexivity|].
    rewrite !seq_S, !foldl_app. cbn [foldl Nat.add].
    specialize (IH ltac:(lia)).
    rewrite entry_flip_column.
    destruct (decide (n = k /\ (x < nn)%nat)) as [[-> _]|Hne].
    - destruct (Hok k Hk) as (_ & _ & Hs).
      rewrite (flip_value_of_sign _ (Hs x Hx)).
      rewrite list_lookup_total_insert_eq by exact Hlen.
      destruct (Z.eqb_spec (entry M x k) 0) as [E|E].
      + rewrite E. simpl. exact IH.
      + destruct (Z.eqb_spec (- entry M x k) 0) as [E'|_]; [lia|].
        rewrite IH, inject_Z_opp. ring.
    - assert (Hnk : n <> k) by (intros ->; apply Hne; split; [reflexivity | exact Hx]).
      rewrite list_lookup_total_insert_ne by congruence.
      destruct (Z.eqb (entry M x n) 0); [exact IH|]. rewrite IH. reflexivity. }
  apply Hgen. lia.
Qed.

Lemma pass_flows (fs : matrix -> list Q) (nn nl : nat) (M : matrix) :
  follows_orientation fs nn nl ->
  (forall c, (c < nl)%nat -> column_ok nn M c) ->
  forall l, (l < nl)%nat ->
    (fs (coupl (correction_pass fs nn nl M)) !!! l ==
     if decide (negative (fs M) l) then - (fs M !!! l) else fs M !!! l)%Q.
Proof.
  intros Hfs Hok. unfold correction_pass, check_flow_directions.
  pose proof (foldl_seq_ind
    (fun k st =>
       (forall c, (c < nl)%nat -> column_ok nn (coupl st) c) /\
       forall l, (l < nl)%nat ->
         (fs (coupl st) !!! l ==
          if decide ((l < k)%nat /\ negative (fs M) l)
          then - (fs M !!! l) else fs M !!! l)%Q)
    (check_line nn (fs M)) {| cntr_wrong_direction := 0; coupl := M |} nl) as Hind.
  cbv beta in Hind.
  destruct Hind as [_ Hflows].
  - split; [exact Hok|]. intros l Hl. cbn [coupl].
    destruct (decide ((l < 0)%nat /\ negative (fs M) l)) as [[H _]|_]; [lia | reflexivity].
  - intros i st Hi [Hcol IH]. unfold check_line.
    destruct (decide (negative (fs M) i)) as [Hneg|Hneg]; cbn [coupl].
    + split; [intros c Hc; apply column_ok_flip; now apply Hcol|].
      intros l Hl. rewrite (Hfs (coupl st) i l Hcol Hi Hl).
      destruct (decide (l = i)) as [->|Hli]; rewrite (IH _ Hl).
      * destruct (decide ((i < i)%nat /\ negative (fs M) i)) as [[H _]|_]; [lia|].
        destruct (decide ((i < S i)%nat /\ negative (fs M) i)) as [_|H];
          [reflexivity | exfalso; apply H; split; [lia | exact Hneg]].
      * destruct (decide ((l < i)%nat /\ negative (fs M) l)) as [[H1 H2]|H];
          destruct (decide ((l < S i)%nat /\ negative (fs M) l)) as [[H3 H4]|H'];
          try reflexivity; exfalso.
        -- apply H'. split; [lia | exact H2].
        -- apply H. split; [lia | exact H4].
    + split; [exact Hcol|]. intros l Hl. rewrite (IH l Hl).
      destruct (decide ((l < i)%nat /\ negative (fs M) l)) as [[H1 H2]|H];
        destruct (decide ((l < S i)%nat /\ negative (fs M) l)) as [[H3 H4]|H'];
        try reflexivity; exfalso.
      * apply H'. split; [lia | exact H2].
      * apply H. split; [|exact H4].
        destruct (decide (l = i)) as [->|]; [contradiction | lia].
  - intros l Hl. rewrite (Hflows l Hl).
    destruct (decide ((l < nl)%nat /\ negative (fs M) l)) as [[_ H]|H];
      destruct (decide (negative (fs M) l)) as [H'|H']; try reflexivity; exfalso.
    + contradiction.
    + apply H. split; assumption.
Qed.

Lemma pass_leaves_no_negative (fs : matrix -> list Q) (nn nl : nat) (M : matrix) :
  follows_orientation fs nn nl ->
  (forall c, (c < nl)%nat -> column_ok nn M c) ->
  ~ has_negative nl (fs (coupl (correction_pass fs nn nl M))).
Proof.
  intros Hfs Hok (l & Hl & Hneg).
  unfold negative in Hneg. rewrite (pass_flows fs nn nl M Hfs Hok l Hl) in Hneg.
  destruct (decide (negative (fs M) l)) as [H|H].
  - unfold negative in H.
    assert (Hlt : (- (fs M !!! l) < 0)%Q).
    { eapply Qlt_trans; [exact Hneg|]. reflexivity. }
    assert (Hlt2 : (fs M !!! l < 0)%Q).
    { eapply Qlt_trans; [exact H|]. reflexivity. }
    apply (Qopp_lt_compat _ 0) in Hlt2. simpl in Hlt2.
    apply (Qlt_irrefl 0). eapply Qlt_trans; [exact Hlt2 | exact Hlt].
  - apply H. exact Hneg.
Qed.

(** With a root finder that follows the orientation a correction loop
    makes at most two solves. *)
Lemma oriented_loop_returns
    (fs : matrix -> list Q) (nn nl : nat) (M : matrix) :
  follows_orientation fs nn nl ->
  (forall c, (c < nl)%nat -> column_ok nn M c) ->
  exists r,
    (forall fuel, (2 <= fuel)%nat -> correction_loop fs nn nl fuel M = Returned r) /\
    (forall l, (l < nl)%nat ->
       (m_int r !!! l ==
        if decide (negative (fs M) l) then - (fs M !!! l) else fs M !!! l)%Q) /\
    (forall x l, (x < nn)%nat -> (l < nl)%nat ->
       entry (matrix_coupl r) x l =
       if decide (negative (fs M) l) then - entry M x l else entry M x l).
Proof.
  intros Hfs Hok.
  assert (Hentries : forall M', ~ has_negative nl (fs M') ->
            forall x l, entry (coupl (correction_pass fs nn nl M')) x l = entry M' x l).
  { intros M' Hno x l. unfold correction_pass.
    destruct (check_flow_directions_spec nn nl (fs M') M') as [_ He]. rewrite He.
    destruct (decide ((l < nl)%nat /\ (x < nn)%nat /\ negative (fs M') l))
      as [(Hl & _ & Hneg)|_]; [|reflexivity].
    exfalso. apply Hno. exists l. split; assumption. }
  destruct (0 <? cntr_wrong_direction (correction_pass fs nn nl M))%nat eqn:E.
  - set (M1 := coupl (correction_pass fs nn nl M)).
    pose proof (pass_leaves_no_negative fs nn nl M Hfs Hok) as Hno. fold M1 in Hno.
    assert (E1 : (0 <? cntr_wrong_direction (correction_pass fs nn nl M1))%nat = false).
    { destruct (0 <? cntr_wrong_direction (correction_pass fs nn nl M1))%nat eqn:E1;
        [|reflexivity].
      unfold correction_pass in E1. apply cntr_positive_iff in E1. contradiction. }
    exists {| matrix_coupl := coupl (correction_pass fs nn nl M1); m_int := fs M1 |}.
    split; [|split].
    + intros [|[|fuel]] Hfuel; try lia. simpl. fold M1. rewrite E.
      fold M1. now rewrite E1.
    + intros l Hl. cbn [m_int]. apply pass_flows; assumption.
    + intros x l Hx Hl. cbn [matrix_coupl]. rewrite (Hentries M1 Hno).
      unfold M1, correction_pass.
      destruct (check_flow_directions_spec nn nl (fs M) M) as [_ He]. rewrite He.
      destruct (decide ((l < nl)%nat /\ (x < nn)%nat /\ negative (fs M) l))
        as [(_ & _ & Hneg)|Hn];
        destruct (decide (negative (fs M) l)) as [Hneg'|Hneg']; try contradiction.
      * destruct (Hok l Hl) as (_ & _ & Hsign).
        apply flip_value_of_sign. now apply Hsign.
      * exfalso. apply Hn. split_and!; assumption.
      * reflexivity.
  - assert (Hno : ~ has_negative nl (fs M)).
    { intros H. apply (cntr_positive_iff nn nl (fs M) M) in H.
      unfold correction_pass in E. congruence. }
    exists {| matrix_coupl := coupl (correction_pass fs nn nl M); m_int := fs M |}.
    split; [|split].
    + intros [|fuel] Hfuel; try lia. simpl. now rewrite E.
    + intros l Hl. cbn [m_int].
      destruct (decide (negative (fs M) l)) as [Hneg|_]; [|reflexivity].
      exfalso. apply Hno. exists l. split; assumption.
    + intros x l Hx Hl. cbn [matrix_coupl]. rewrite (Hentries M Hno).
      destruct (decide (negative (fs M) l)) as [Hneg|_]; [|reflexivity].
      exfalso. apply Hno. exists l. split; assumption.
Qed.

Lemma oriented_solver_follows : follows_orientation oriented_solver 3 2.
Proof.
  intros M k l Hok Hk Hl. unfold oriented_solver.
  assert (Hdiag : forall i, (i < 2)%nat ->
            entry (flip_column 3 M k) i i =
            if decide (k = i) then - entry M i i else entry M i i).
  { intros i Hi. rewrite entry_flip_column.
    destruct (decide (k = i)) as [->|Hki].
    - destruct (decide (i = i /\ (i < 3)%nat)) as [_|Hn]; [|exfalso; apply Hn; lia].
      destruct (Hok i) as (_ & _ & Hs); [lia|].
      apply flip_value_of_sign. apply Hs. lia.
    - destruct (decide (i = k /\ (i < 3)%nat)) as [[-> _]|_]; [contradiction|].
      reflexivity. }
  assert (H00 := Hdiag 0%nat ltac:(lia)). assert (H11 := Hdiag 1%nat ltac:(lia)).
  rewrite H00, H11.
  destruct l as [|[|l]]; [| |lia]; destruct k as [|[|k]]; try lia;
    cbn [lookup_total list_lookup_total decide]; simpl;
    rewrite ?inject_Z_opp; reflexivity.
Qed.





(** On the three-node example the return loop, which starts from the negated
    matrix, reverses both pipes once. *)
Example oriented_solver_run :
  solve_network_hydr oriented_solver oriented_solver 3 2 2 (make_matrix_coupl Example_tp) =
  Returned {| matrix_coupl_forerun := [[1; 0]; [-1; 1]; [0; -1]];
              matrix_coupl_return := [[1; 0]; [-1; 1]; [0; -1]];
              m_int_forerun := [1; 1]%Q;
              m_int_return := [1; 1]%Q |}.
Proof. vm_compute. reflexivity. Qed.

(** C3 (as amended).  The direction-correction loop has no iteration cutoff
    and no fatal exit: it never raises, and after any number of solves it is
    still iterating exactly when each of these solves reported a flow below
    [-1e-10]. *)
Theorem C3_loop_has_no_cutoff
    (fs : matrix -> list Q) (nn nl fuel : nat) (M : matrix) :
  (forall msg, correction_loop fs nn nl fuel M <> Fatal msg) /\
  (correction_loop fs nn nl fuel M = Running <->
   forall j, (j < fuel)%nat -> has_negative nl (fs (matrix_at fs nn nl j M))).
Proof.
  split.
  - intros msg. apply correction_loop_never_fatal.
  - apply correction_loop_running.
Qed.

Lemma always_negative_runs (fuel : nat) (M : matrix) :
  correction_loop always_negative 2 1 fuel M = Running.
Proof.
  apply correction_loop_running. intros j _. exists 0%nat. split; [lia|].
  unfold negative. vm_compute. reflexivity.
Qed.

(** C3, counterexample.  With a root finder that keeps reporting a negative
    flow, no number of solves makes the loop stop, whether by returning or by
    a fatal error. *)
Lemma C3_counterexample_never_stops :
  ~ exists N, correction_loop always_negative 2 1 N One_pipe <> Running.
Proof.
  intros [N HN]. apply HN. apply always_negative_runs.
Qed.

(** C10.  With well-formed endpoints that differ per pipe, every column of
    the matrix built by [make_matrix_coupl] holds exactly one +1 and one -1
    and zeros elsewhere; a column flip and the negation that forms the return
    matrix preserve this, so it holds for every matrix a solve of either loop
    works on and for the matrices [solve_network_hydr] returns. *)
Theorem C10_columns_one_start_one_end (tp : topology) :
  wf_topology tp -> distinct_endpoints tp ->
  let nn := n_node tp in
  let nl := n_line tp in
  let ok M := forall l, (l < nl)%nat -> column_ok nn M l in
  ok (make_matrix_coupl tp) /\
  (forall M k, ok M -> ok (flip_column nn M k)) /\
  (forall M, ok M -> ok (negate M)) /\
  (forall fs k M, ok M -> ok (matrix_at fs nn nl k M)) /\
  (forall fs_f fs_r fuel r,
     solve_network_hydr fs_f fs_r nn nl fuel (make_matrix_coupl tp) = Returned r ->
     ok (matrix_coupl_forerun r) /\ ok (matrix_coupl_return r)).
Proof.
  intros Hwf Hdist nn nl ok.
  assert (H0 : ok (make_matrix_coupl tp)).
  { intros l Hl. now apply column_ok_make_matrix_coupl. }
  split; [exact H0|].
  split; [intros M k HM l Hl; apply column_ok_flip; now apply HM|].
  split; [intros M HM l Hl; apply column_ok_negate; now apply HM|].
  split; [intros fs k M HM l Hl; now apply column_ok_matrix_at|].
  intros fs_f fs_r fuel r. unfold solve_network_hydr.
  destruct (correction_loop fs_f nn nl fuel (make_matrix_coupl tp)) as [f| |] eqn:Ef;
    try discriminate.
  destruct (correction_loop fs_r nn nl fuel (negate (matrix_coupl f))) as [b| |] eqn:Eb;
    try discriminate.
  intros [= <-]. cbn [matrix_coupl_forerun matrix_coupl_return].
  destruct (correction_loop_returned _ _ _ _ _ _ Ef) as (kf & _ & _ & _ & HMf & _).
  destruct (correction_loop_returned _ _ _ _ _ _ Eb) as (kr & _ & _ & _ & HMr & _).
  assert (Hf : ok (matrix_coupl f)).
  { rewrite HMf. intros l Hl. now apply column_ok_matrix_at. }
  split; [exact Hf|].
  rewrite HMr. intros l Hl. apply column_ok_matrix_at; [|exact Hl].
  intros l' Hl'. apply column_ok_negate. now apply Hf.
Qed.

Lemma C10_columns_one_start_one_end_witness :
  column_ok 3 (make_matrix_coupl Example_tp) 0 /\
  column_ok 3 (make_matrix_coupl Example_tp) 1.
Proof.
  assert (H : forall l, (l < 2)%nat -> column_ok 3 (make_matrix_coupl Example_tp) l).
  { refine (proj1 (C10_columns_one_start_one_end Example_tp _ _)).
    - intros [|[|k]] Hk; simpl in *; try lia; vm_compute; split; lia.
    - intros [|[|k]] Hk; simpl in *; try lia; vm_compute; lia. }
  split; apply H; lia.
Defined.

(** ** Continuity equations *)

(** C2.  In the residual vector assembled by [equ_network_forerun] and by
    [equ_network_return], the entry of every node is the signed sum (per the
    coupling matrix) of the mass flows of the pipes incident to the node,
    minus the node's external mass flow, with nothing subtracted when that
    flow is zero; so where the residual vanishes the signed sum equals the
    external mass flow, and where it is within a tolerance so is their
    difference. *)
Theorem C2_continuity_residual
    (catch : bool) (sv : list Q) (nn nl : nat) (line : line_data) (node : node_data)
    (M Mt : matrix) (rho g : Q) (ev : evaluation) :
  equ_network catch sv nn nl line node M Mt rho g = Some ev ->
  forall x, (x < nn)%nat ->
    exists m_x,
      m_ext (ev_node ev) !! x = Some (Some m_x) /\
      (ev_residuals ev !!! x == signed_sum M nl (ev_m_int ev) x - m_x)%Q /\
      ((m_x == 0)%Q -> ev_residuals ev !!! x = continuity_sum M nl (ev_m_int ev) x) /\
      ((ev_residuals ev !!! x == 0)%Q -> (signed_sum M nl (ev_m_int ev) x == m_x)%Q) /\
      (forall eps, (Qabs (ev_residuals ev !!! x) <= eps)%Q ->
                   (Qabs (signed_sum M nl (ev_m_int ev) x - m_x) <= eps)%Q).
Proof.
  unfold equ_network. intros Hev x Hx.
  destruct (mapM _ (seq 0 nl)) as [m_int'|] eqn:Em; [|discriminate].
  destruct (decide (nl = 0)%nat) as [|_]; [discriminate|].
  simpl in Hev.
  destruct (assign_unknowns false _ _ _ _ _) as [[p' c1]|]; [|discriminate].
  simpl in Hev.
  destruct (assign_unknowns catch _ _ _ _ _) as [[m_ext' c2]|]; [|discriminate].
  simpl in Hev.
  destruct (mapM (continuity_equ _ _ _ _) _) as [cont|] eqn:Ec; [|discriminate].
  simpl in Hev.
  destruct (mapM (pressure_equ _ _ _ _ _ _ _ _) _) as [pres|]; [|discriminate].
  injection Hev as <-. cbn [ev_node ev_m_int ev_residuals m_ext].
  destruct (mapM_seq_lookup _ _ _ x Ec Hx) as (res & Hres & Hcont).
  assert (Hget : (cont ++ pres) !!! x = res).
  { apply list_lookup_total_correct. rewrite lookup_app_l; [exact Hres|].
    eapply lookup_lt_Some. exact Hres. }
  rewrite Hget. unfold continuity_equ in Hcont.
  destruct (m_ext' !! x) as [[m_x|]|]; try discriminate.
  exists m_x. split; [reflexivity|].
  assert (Hval : (res == signed_sum M nl m_int' x - m_x)%Q).
  { destruct (Qeq_bool m_x 0) eqn:E0; injection Hcont as <-.
    - apply Qeq_bool_eq in E0. rewrite E0, continuity_sum_signed_sum. ring.
    - rewrite continuity_sum_signed_sum. reflexivity. }
  split; [exact Hval|]. split; [|split].
  - intros H0. apply Qeq_eq_bool in H0. rewrite H0 in Hcont. congruence.
  - intros Hroot. rewrite Hval in Hroot.
    rewrite <- (Qplus_0_l m_x), <- Hroot. ring.
  - intros eps Heps. rewrite <- Hval. exact Heps.
Qed.

Lemma C2_continuity_residual_witness :
  exists m_x,
    [Some 2; Some 0; Some (-2)]%Q !! 2%nat = Some (Some m_x) /\
    (0 == signed_sum (make_matrix_coupl Example_tp) 2 [2; 2]%Q 2 - m_x)%Q.
Proof.
  destruct (C2_continuity_residual true Example_start 3 2 Example_line Example_node
              (make_matrix_coupl Example_tp)
              (transpose 3 2 (make_matrix_coupl Example_tp)) 1000 (981 # 100)
              _ eq_refl 2%nat) as (m_x & Hm & Hres & _).
  - lia.
  - exists m_x. split; [exact Hm | exact Hres].
Defined.

(** ** Configuration validation *)

(** C9.  [main_program] does not reach its main loop, where the first
    hydraulic solve is made, when no node or more than one node is flagged
    as the pressure reference: it has raised while reading or it exits at
    the sanity check; and a flagged node without a feeder id makes
    [read_grid_setup] raise while the topology is read. *)
Theorem C9_reference_node_validation (rows : list node_row) :
  (length (filter flagged rows) <> 1%nat ->
   (exists msg, main_program_startup rows = RaisedWhileReading msg) \/
   (exists msg, main_program_startup rows = ExitedAtSanityCheck msg)) /\
  ((exists row, row ∈ rows /\ flagged row /\ col_feed_in row = None) ->
   exists msg, read_grid_setup rows = Raised msg /\
               main_program_startup rows = RaisedWhileReading msg).
Proof.
  unfold main_program_startup, read_grid_setup.
  destruct (foldl read_node_row (Ok no_nodes) rows) as [nd|msg] eqn:E.
  - destruct (read_rows_ok _ _ _ E) as [Hlen Hall]. simpl in Hlen. split.
    + intros Hcount.
      destruct (1 <? list_sum (gapfilling_node nd))%nat; [left; eauto|].
      right. destruct (Nat.eqb_spec (length (p_ref_nodes nd)) 0); [eauto|].
      destruct (Nat.ltb_spec 1 (length (p_ref_nodes nd))); [eauto|]. lia.
    + intros (row & Hin & Hflag & Hnone). exfalso.
      rewrite Forall_forall in Hall. now apply (Hall row Hin Hflag).
  - split; [left; eauto|]. intros _. eauto.
Qed.

Lemma C9_reference_node_validation_witness :
  ((exists msg, main_program_startup Example_rows_two_refs = RaisedWhileReading msg) \/
   (exists msg, main_program_startup Example_rows_two_refs = ExitedAtSanityCheck msg)) /\
  (exists msg, read_grid_setup Example_rows_ref_not_feeder = Raised msg /\
               main_program_startup Example_rows_ref_not_feeder = RaisedWhileReading msg).
Proof.
  split.
  - apply (proj1 (C9_reference_node_validation Example_rows_two_refs)).
    vm_compute. lia.
  - apply (proj2 (C9_reference_node_validation Example_rows_ref_not_feeder)).
    eexists. split; [right; left|split; [exact I | reflexivity]].
Defined.


(** ** Thermal propagation *)





(** ** Return-side node balances *)

(** C5 (as amended).  For a consumer node with positive external return mass
    flow [m], forerun temperature [T_f] and heat flow [Q], let
    [E = T_f - Q*1000/(m*c_p)].  If the node starts the return propagation
    (no incoming return pipe), the return temperature stored for it is [E]
    when [E] is at least the soil temperature, and exactly the soil
    temperature when [E] is below it.  If the node has incoming return pipes
    and [E] is at least the soil temperature, the stored temperature is the
    mass-flow-weighted average of [E] (weight [m]) and the outlets of the
    incoming pipes. *)
Theorem C5_consumer_return_temperature
    (inp : therm_input) (ctx : return_context) (st : therm_state) (x : nat)
    (tf Qd : Q) :
  (0 < m_ext_trans inp !!! x)%Q ->
  ~ (rho inp == 0)%Q -> ~ (c_p inp == 0)%Q ->
  default None (feed_in inp !! x) = None ->
  mjoin (t_forerun_now ctx !! x) = Some tf ->
  mjoin (Q_dot_sim inp !! x) = Some Qd ->
  let m := m_ext_trans inp !!! x in
  let E := (tf - Qd * 1000 / (m * c_p inp))%Q in
  (count_row inp x (-1) = 0%nat -> (x < length (t_trans st))%nat ->
   exists st' t,
     return_seed_node inp ctx (Ok st) x = Ok st' /\
     t_trans st' !! x = Some (Some t) /\
     ((temp_soil inp <= E)%Q -> (t == E)%Q) /\
     ((E < temp_soil inp)%Q -> t = temp_soil inp)) /\
  (forall V T,
     mjoin (V_dot_sim inp !! x) = Some V -> (m == V * rho inp / 1000)%Q ->
     (forall l, l ∈ incoming inp x -> outlet st l = Some (T l)) ->
     ~ (m + flow_sum inp (incoming inp x) == 0)%Q ->
     (temp_soil inp <= E)%Q ->
     exists writes t,
       return_node_balance inp ctx st x = Ok writes /\
       stored writes = Some t /\
       (t == (E * m + heat_sum inp T (incoming inp x)) /
             (m + flow_sum inp (incoming inp x)))%Q).
Proof.
  intros Hm Hrho Hcp Hfeed HTf HQ m E.
  assert (Hm0 : ~ (m == 0)%Q).
  { intros H0. unfold m in H0. rewrite H0 in Hm. now apply (Qlt_irrefl 0). }
  split.
  - intros Hin Hx. unfold return_seed_node. cbn [mbind result_bind].
    assert (Hq : Qle_bool 0 (m_ext_trans inp !!! x) = true)
      by (apply Qle_bool_iff; now apply Qlt_le_weak).
    rewrite Hq, Hin. simpl. unfold return_seed_temp.
    fold m. rewrite (Qeq_bool_false m 0 Hm0), Hfeed, HQ, HTf.
    destruct (energy_balance_value inp tf Qd (m / rho inp * 1000) m Hm0 Hcp)
      as (e & Ee & He).
    { field. exact Hrho. }
    rewrite Ee. cbn [mbind result_bind]. unfold clip_at_soil.
    destruct (Qlt_bool e (temp_soil inp)) eqn:Eclip.
    + eexists _, (temp_soil inp). split; [reflexivity|].
      rewrite return_seed_lines_t_trans. simpl_state.
      split; [now apply list_lookup_insert_eq|].
      apply Qlt_bool_true in Eclip. split; [|reflexivity].
      intros Hle. exfalso. fold E in He. rewrite He in Eclip.
      now apply (Qlt_not_le E (temp_soil inp)).
    + eexists _, e. split; [reflexivity|].
      rewrite return_seed_lines_t_trans. simpl_state.
      split; [now apply list_lookup_insert_eq|].
      apply Qlt_bool_false in Eclip. split; [intros _; exact He|].
      intros Hlt. exfalso. fold E in He. rewrite He in Eclip.
      now apply (Qlt_not_le E (temp_soil inp)).
  - intros V T HV HmV Hout Hflow Hsoil. unfold return_node_balance.
    fold m. rewrite (Qeq_bool_false m 0 Hm0).
    assert (Hpos : Qlt_bool 0 m = true) by now apply Qlt_bool_true.
    rewrite Hpos, Hfeed, HQ, HV, HTf. cbn [is_Some_b negb andb].
    destruct (energy_balance_value inp tf Qd V m Hm0 Hcp) as (e & Ee & He).
    { rewrite HmV. field. }
    rewrite Ee. cbn [mbind option_bind].
    destruct (mix_sums_spec inp st x T (e * m) m Hout) as (s1 & s2 & Es & H1 & H2).
    rewrite Es. unfold guarded_quotient, quotient, stored. simpl.
    assert (Hs2 : ~ (s2 == 0)%Q) by (rewrite H2; exact Hflow).
    rewrite (Qeq_bool_false s2 0 Hs2), (np_div_nonzero s1 s2 Hs2).
    eexists _, _. split; [reflexivity|]. split; [reflexivity|].
    fold E in He. rewrite H1, H2, He. reflexivity.
Qed.

Lemma C5_consumer_return_temperature_witness :
  (exists st' t,
     return_seed_node Consumer_input Consumer_context
       (Ok (initial_state Consumer_input [[Some 40]; [Some 40]]%Q)) 0 = Ok st' /\
     t_trans st' !! 0%nat = Some (Some t) /\
     ((10 <= 80 - (627 # 5) * 1000 / (1 * 4180))%Q ->
      (t == 80 - (627 # 5) * 1000 / (1 * 4180))%Q)) /\
  (exists writes t,
     return_node_balance Consumer_input Consumer_context Consumer_state 1 = Ok writes /\
     stored writes = Some t /\
     (t == ((80 - (627 # 5) * 1000 / (1 * 4180)) * 1
            + heat_sum Consumer_input (fun _ => 40) (incoming Consumer_input 1)) /
           (1 + flow_sum Consumer_input (incoming Consumer_input 1)))%Q).
Proof.
  split.
  - destruct (C5_consumer_return_temperature Consumer_input Consumer_context
                (initial_state Consumer_input [[Some 40]; [Some 40]]%Q) 0 80 (627 # 5))
      as [Hseed _]; try (vm_compute; reflexivity); try (vm_compute; discriminate).
    destruct Hseed as (st' & t & E1 & E2 & E3 & _);
      [vm_compute; reflexivity | vm_compute; lia |].
    exists st', t. split; [exact E1|]. split; [exact E2 | exact E3].
  - destruct (C5_consumer_return_temperature Consumer_input Consumer_context
                Consumer_state 1 80 (627 # 5))
      as [_ Hmix]; try (vm_compute; reflexivity); try (vm_compute; discriminate).
    apply (Hmix 1%Q (fun _ => 40%Q)).
    + vm_compute. reflexivity.
    + vm_compute. reflexivity.
    + intros l Hl. vm_compute in Hl.
      apply list_elem_of_singleton in Hl. subst l. vm_compute. reflexivity.
    + vm_compute. discriminate.
    + vm_compute. discriminate.
Defined.

(** C5, counterexample.  Consumer node 1 has an incoming return pipe whose
    outlet is at 40; its energy balance gives 50, above the soil temperature
    of 10, and yet the return temperature stored for it is 45.  So it is in
    a whole return substep from segment temperatures of 40: the substep
    returns and the temperature of node 1 is not 50. *)
Lemma C5_counterexample_consumer_with_incoming_pipe :
  (exists writes t,
     return_node_balance Consumer_input Consumer_context Consumer_state 1 = Ok writes /\
     stored writes = Some t /\
     (temp_soil Consumer_input <= 80 - (627 # 5) * 1000 / (1 * 4180))%Q /\
     (80 - (627 # 5) * 1000 / (1 * 4180) == 50)%Q /\
     (t == 45)%Q /\
     ~ (t == 80 - (627 # 5) * 1000 / (1 * 4180))%Q) /\
  (exists st t,
     return_substep 5 Consumer_input Consumer_context Two_lines = Returned st /\
     t_trans st !! 1%nat = Some (Some t) /\
     ~ (t == 80 - (627 # 5) * 1000 / (1 * 4180))%Q).
Proof.
  split.
  - eexists _, _. split; [vm_compute; reflexivity|].
    split; [vm_compute; reflexivity|].
    split; [vm_compute; discriminate|].
    split; [vm_compute; reflexivity|].
    split; [vm_compute; reflexivity|].
    vm_compute. discriminate.
  - eexists _, _. split; [vm_compute; reflexivity|].
    split; [vm_compute; reflexivity|].
    vm_compute. discriminate.
Qed.

(** C6, at the failing input.  Node 1 is a feeder that is not the pressure
    reference; it injects 1 kg/s at 75 and its only incoming pipe, already
    advanced, delivers 1 kg/s at 40.  The balance of the node raises instead
    of assigning the weighted average (75*1 + 40*1)/(1 + 1), and the forerun
    propagation of a substep on this network stops with that error. *)
Theorem C6_non_reference_feeder_balance_raises :
  (0 < m_ext_trans Two_feeder_input !!! 1%nat)%Q /\
  feed_in Two_feeder_input !! 1%nat = Some (Some "HW2") /\
  incoming Two_feeder_input 1 = [0%nat] /\
  flag (line_calc Two_feeder_state) 0 = true /\
  outlet Two_feeder_state 0 = Some 40%Q /\
  forerun_node_balance Two_feeder_input Two_feeder_state 1 =
    Raised "TypeError: 'float' object is not subscriptable" /\
  forall fuel,
    forerun_substep (S fuel) Two_feeder_input Two_lines =
    Fatal "TypeError: 'float' object is not subscriptable".
Proof.
  split_and!; vm_compute; reflexivity.
Qed.

(** C7, at the failing input.  At a junction fed by two pipes that carry no
    flow, the forerun balance evaluates the quotient 0/0 and stores its
    result, where the return balance of a node without external flow falls
    back to the previous value.  So it is in whole substeps: the forerun
    returns with nan at the junction, the return with the previous value.
    The return balance of a feeder is unguarded as well: fed by a pipe
    without flow it stores nan. *)
Theorem C7_forerun_mixing_divides_by_zero :
  incoming Merge_input 2 = [0%nat; 1%nat] /\
  (flow_sum Merge_input (incoming Merge_input 2) == 0)%Q /\
  forerun_node_balance Merge_input Merge_state 2 = Ok (Some None) /\
  return_node_balance Merge_input Merge_context Merge_state 2 = Ok [Some 55%Q] /\
  (exists st, forerun_substep 5 Merge_input Two_lines = Returned st /\
              t_trans st !! 2%nat = Some None) /\
  (exists st, return_substep 5 Merge_input Merge_context Two_lines = Returned st /\
              t_trans st !! 2%nat = Some (Some 55%Q)) /\
  (exists st, return_substep 5 Idle_consumer_input Two_feeder_context Two_lines =
                Returned st /\
              t_trans st !! 1%nat = Some None).
Proof.
  split_and!; try (vm_compute; reflexivity);
    eexists; (split; [vm_compute; reflexivity|]); vm_compute; reflexivity.
Qed.

(** C8, at the failing input.  Node 1 is a feeder with positive external
    return mass flow and an incoming return pipe.  The return propagation of
    the substep returns, having assigned node 1 a return temperature once,
    and raises nothing; where a feeder with positive external return flow
    and no incoming pipe (node 0 of the second network) stops the run with a
    [ValueError]. *)
Theorem C8_reversed_feeder_with_incoming_pipe_assigned :
  (0 < m_ext_trans Reversed_feeder_input !!! 1%nat)%Q /\
  feed_in Reversed_feeder_input !! 1%nat = Some (Some "HW1") /\
  incoming Reversed_feeder_input 1 = [0%nat] /\
  return_node_balance Reversed_feeder_input Two_feeder_context Two_feeder_state 1 =
    Ok [Some 40%Q] /\
  (exists st t,
     return_substep 5 Reversed_feeder_input Two_feeder_context Two_lines = Returned st /\
     t_trans st !! 1%nat = Some (Some t) /\
     count_event (NodeAssigned 1) (events st) = 1%nat) /\
  forall fuel,
    return_substep fuel Two_feeder_input Two_feeder_context Two_lines =
    Fatal "ValueError: Umkehr der Strömungsrichtung bei Einspeiser HW1 festgestellt!".
Proof.
  split_and!; try (vm_compute; reflexivity).
  eexists _, _. split; [vm_compute; reflexivity|].
  split; vm_compute; reflexivity.
Qed.

(** * Further properties *)

(** ** Coupling matrix *)

Lemma lookup_total_Some_nat (xs : list nat) (i v : nat) :
  (i < length xs)%nat -> (xs !! i = Some v <-> xs !!! i = v).
Proof.
  intros Hi. destruct (lookup_lt_is_Some_2 xs i Hi) as [w Hw].
  rewrite (list_lookup_total_correct _ _ _ Hw), Hw. split; congruence.
Qed.

(** What [make_matrix_coupl] builds: a matrix with one row per node and one
    column per pipe whose entry is -1 at the pipe's end node, +1 at its start
    node unless that is also its end node, and 0 elsewhere.  A pipe that
    starts where it ends gets a column with a single -1 and no +1. *)
Theorem make_matrix_coupl_entries (tp : topology) :
  wf_topology tp ->
  length (node_start tp) = n_line tp -> length (node_end tp) = n_line tp ->
  shaped (n_node tp) (n_line tp) (make_matrix_coupl tp) /\
  (forall x l, (x < n_node tp)%nat -> (l < n_line tp)%nat ->
     (entry (make_matrix_coupl tp) x l = -1 <-> node_end tp !! l = Some x) /\
     (entry (make_matrix_coupl tp) x l = 1 <->
        node_start tp !! l = Some x /\ node_end tp !! l <> Some x) /\
     (entry (make_matrix_coupl tp) x l = 0 <->
        node_start tp !! l <> Some x /\ node_end tp !! l <> Some x)) /\
  (forall l, (l < n_line tp)%nat -> node_start tp !! l = node_end tp !! l ->
     count_in_column (n_node tp) (make_matrix_coupl tp) l 1 = 0%nat /\
     count_in_column (n_node tp) (make_matrix_coupl tp) l (-1) = 1%nat).
Proof.
  intros Hwf Hls Hle.
  destruct (make_matrix_coupl_spec tp Hwf) as [Hshape Hent].
  split; [exact Hshape|].
  assert (Hval : forall x l, (l < n_line tp)%nat ->
            entry (make_matrix_coupl tp) x l = coupled_value tp x l).
  { intros x l Hl. rewrite Hent. case_decide; [reflexivity | lia]. }
  split.
  - intros x l Hx Hl. rewrite (Hval x l Hl). unfold coupled_value.
    rewrite !lookup_total_Some_nat by lia.
    repeat case_decide; subst; split_and!; split; intros; destruct_and?;
      try lia; try congruence; try (split; congruence).
  - intros l Hl Heq.
    assert (Hse : node_start tp !!! l = node_end tp !!! l).
    { destruct (lookup_lt_is_Some_2 (node_end tp) l) as [e He]; [lia|].
      rewrite He in Heq.
      now rewrite (list_lookup_total_correct _ _ _ Heq),
                  (list_lookup_total_correct _ _ _ He). }
    destruct (Hwf l Hl) as [_ He].
    unfold count_in_column. split.
    + rewrite (filter_ext_in _ (fun _ => False)).
      * clear. induction (seq 0 (n_node tp)) as [|a s IH]; [reflexivity|].
        rewrite filter_cons. destruct (decide False); [tauto | exact IH].
      * intros x Hx. rewrite (Hval x l Hl). unfold coupled_value.
        repeat case_decide; split; intros; try lia; try tauto; congruence.
    + apply (count_unique _ _ (node_end tp !!! l) He).
      intros x Hx. rewrite (Hval x l Hl). unfold coupled_value.
      repeat case_decide; split; intros; try lia; try tauto; congruence.
Qed.

Lemma make_matrix_coupl_entries_witness :
  shaped 3 2 (make_matrix_coupl Example_tp) /\
  (entry (make_matrix_coupl Example_tp) 1 0 = -1 <-> node_end Example_tp !! 0%nat = Some 1%nat).
Proof.
  destruct (make_matrix_coupl_entries Example_tp) as (Hs & He & _).
  - intros [|[|k]] Hk; simpl in *; try lia; vm_compute; split; lia.
  - reflexivity.
  - reflexivity.
  - split; [exact Hs|]. apply (He 1%nat 0%nat); simpl; lia.
Defined.

(** Two matrices of the same shape with the same entries are the same. *)
Lemma matrix_ext (nn nl : nat) (A B : matrix) :
  shaped nn nl A -> shaped nn nl B ->
  (forall x l, (x < nn)%nat -> (l < nl)%nat -> entry A x l = entry B x l) ->
  A = B.
Proof.
  intros [HlA HrA] [HlB HrB] Hent.
  apply list_eq_same_length with nn; [exact HlB | exact HlA |].
  intros x rA rB Hx HA HB.
  rewrite Forall_lookup in HrA, HrB.
  apply list_eq_same_length with nl; [eauto | eauto |].
  intros l a b Hl Ha Hb.
  specialize (Hent x l Hx Hl). unfold entry in Hent.
  rewrite HA, HB, Ha, Hb in Hent. exact Hent.
Qed.

Lemma shaped_flip_column (nn nl : nat) (M : matrix) (l : nat) :
  shaped nn nl M -> shaped nn nl (flip_column nn M l).
Proof.
  intros HM. unfold flip_column.
  pose proof (foldl_seq_ind (fun (k : nat) M' => shaped nn nl M')
                (fun M' x_node => flip_entry M' l x_node) M nn) as Hind.
  cbv beta in Hind. apply Hind; clear Hind; [exact HM|].
  intros i M' _ IH. unfold flip_entry.
  destruct (Z.eqb _ 1); [now apply shaped_set_entry|].
  destruct (Z.eqb _ (-1)); [now apply shaped_set_entry | exact IH].
Qed.

Lemma shaped_negate (nn nl : nat) (M : matrix) :
  shaped nn nl M -> shaped nn nl (negate M).
Proof.
  intros [Hl Hr]. split.
  - unfold negate. now rewrite length_fmap.
  - unfold negate. apply Forall_fmap. eapply Forall_impl; [exact Hr|].
    intros row Hrow. simpl. now rewrite length_fmap.
Qed.

(** Correcting the direction of a pipe twice restores the matrix, the order
    in which two pipes are corrected does not matter, and on a column with
    one +1 and one -1 the correction is the negation of the column: the
    start node and the end node of the pipe change places. *)
Theorem flip_column_involutive_commutes (nn nl : nat) (M : matrix) (k l : nat) :
  shaped nn nl M ->
  flip_column nn (flip_column nn M l) l = M /\
  flip_column nn (flip_column nn M k) l = flip_column nn (flip_column nn M l) k /\
  (column_ok nn M l ->
   forall x, (x < nn)%nat ->
     entry (flip_column nn M l) x l = - entry M x l /\
     (entry (flip_column nn M l) x l = 1 <-> entry M x l = -1) /\
     (entry (flip_column nn M l) x l = -1 <-> entry M x l = 1)).
Proof.
  intros HM. split; [|split].
  - apply (matrix_ext nn nl); [now do 2 apply shaped_flip_column | exact HM |].
    intros x c Hx Hc. rewrite !entry_flip_column.
    repeat case_decide; destruct_and?; subst;
      try reflexivity; try apply flip_value_involutive; contra.
  - apply (matrix_ext nn nl); [now do 2 apply shaped_flip_column
                              | now do 2 apply shaped_flip_column |].
    intros x c Hx Hc. rewrite !entry_flip_column.
    repeat case_decide; destruct_and?; subst; try reflexivity; try lia; try contra.
  - intros Hok x Hx. rewrite entry_flip_column.
    case_decide; [|contra].
    destruct Hok as (_ & _ & Hsign). specialize (Hsign x Hx).
    rewrite (flip_value_of_sign _ Hsign). split; [reflexivity|]. lia.
Qed.

Lemma flip_column_involutive_commutes_witness :
  flip_column 3 (flip_column 3 (make_matrix_coupl Example_tp) 0) 0 =
    make_matrix_coupl Example_tp /\
  entry (flip_column 3 (make_matrix_coupl Example_tp) 0) 0 0 =
    - entry (make_matrix_coupl Example_tp) 0 0.
Proof.
  destruct (flip_column_involutive_commutes 3 2 (make_matrix_coupl Example_tp) 1 0)
    as (Hinv & _ & Hneg).
  - vm_compute. split; [reflexivity|]. repeat constructor.
  - split; [exact Hinv|].
    assert (Hok : column_ok 3 (make_matrix_coupl Example_tp) 0).
    { vm_compute. split; [reflexivity|]. split; [reflexivity|].
      intros [|[|[|x]]] Hx; try lia; vm_compute; tauto. }
    assert (H0 : (0 < 3)%nat) by lia.
    exact (proj1 (Hneg Hok 0%nat H0)).
Defined.

(** The matrix the return loop starts from, [matrix_coupl_forerun*(-1)], is
    the forerun matrix with the direction of every pipe corrected once, and
    negating it gives the forerun matrix back. *)
Theorem negate_reverses_every_pipe (nn nl : nat) (M : matrix) :
  shaped nn nl M -> (forall l, (l < nl)%nat -> column_ok nn M l) ->
  negate M = foldl (flip_column nn) M (seq 0 nl) /\
  negate (negate M) = M.
Proof.
  intros HM Hok.
  assert (Hall : shaped nn nl (foldl (flip_column nn) M (seq 0 nl)) /\
            forall x c, entry (foldl (flip_column nn) M (seq 0 nl)) x c =
              if decide ((c < nl)%nat /\ (x < nn)%nat)
              then flip_value (entry M x c) else entry M x c).
  { pose proof (foldl_seq_ind
      (fun k M' => shaped nn nl M' /\
         forall x c, entry M' x c =
           if decide ((c < k)%nat /\ (x < nn)%nat)
           then flip_value (entry M x c) else entry M x c)
      (flip_column nn) M nl) as Hind.
    cbv beta in Hind. apply Hind; clear Hind.
    - split; [exact HM|]. intros x c. case_decide; [lia | reflexivity].
    - intros i M' Hi [Hs He]. split; [now apply shaped_flip_column|].
      intros x c. rewrite entry_flip_column, !He.
      repeat case_decide; destruct_and?; subst; try reflexivity; try lia; contra. }
  destruct Hall as [Hs He].
  split.
  - apply (matrix_ext nn nl); [now apply shaped_negate | exact Hs |].
    intros x c Hx Hc. rewrite entry_negate, He.
    case_decide; [|contra].
    destruct (Hok c Hc) as (_ & _ & Hsign).
    now rewrite (flip_value_of_sign _ (Hsign x Hx)).
  - apply (matrix_ext nn nl); [now do 2 apply shaped_negate | exact HM |].
    intros x c _ _. rewrite !entry_negate. lia.
Qed.

Lemma negate_reverses_every_pipe_witness :
  negate (make_matrix_coupl Example_tp) =
  foldl (flip_column 3) (make_matrix_coupl Example_tp) (seq 0 2).
Proof.
  refine (proj1 (negate_reverses_every_pipe 3 2 (make_matrix_coupl Example_tp) _ _)).
  - vm_compute. split; [reflexivity|]. repeat constructor.
  - exact Example_columns_ok.
Defined.

(** ** Pressure equations *)


Lemma column_ok_unique (nn : nat) (M : matrix) (l x y : nat) (v : Z) :
  column_ok nn M l -> v = 1 \/ v = -1 ->
  (x < nn)%nat -> (y < nn)%nat ->
  entry M x l = v -> entry M y l = v -> x = y.
Proof.
  intros (H1 & H2 & _) Hv Hx Hy Ex Ey.
  assert (Hc : count_in_column nn M l v = 1%nat) by (destruct Hv; subst; assumption).
  unfold count_in_column in Hc.
  destruct (filter (fun x_node => entry M x_node l = v) (seq 0 nn))
    as [|z [|z' zs]] eqn:E; try discriminate.
  assert (Hinx : x ∈ [z]).
  { rewrite <- E. apply list_elem_of_filter. split; [exact Ex|]. apply elem_of_seq. lia. }
  assert (Hiny : y ∈ [z]).
  { rewrite <- E. apply list_elem_of_filter. split; [exact Ey|]. apply elem_of_seq. lia. }
  apply list_elem_of_singleton in Hinx, Hiny. congruence.
Qed.






(** ** Reading the nodes *)

Lemma foldl_snoc {A B : Type} (f : A -> B -> A) (a : A) (l : list B) (b : B) :
  foldl f a (l ++ [b]) = f (foldl f a l) b.
Proof. now rewrite foldl_app. Qed.

(** What the loop over the rows of sheet "Knoten" has built when it ends
    without an exception. *)
Lemma read_rows_spec (rows : list node_row) (nd : grid_nodes) :
  foldl read_node_row (Ok no_nodes) rows = Ok nd ->
  let used := filter (fun row => is_cell (col_in_use row) "ja") rows in
  nbr_matrix nd = seq 0 (length used) /\
  Forall2 (fun row n => romanToInt_cell (col_number row) = Ok n)
          used (nbr_orig_arabic nd) /\
  feed_in_ids nd = map col_feed_in used /\
  gapfilling_node nd =
    map (fun row => if is_cell (col_gapfilling row) "x" then 1%nat else 0%nat) used /\
  (forall x, x ∈ p_ref_nodes nd <->
     exists row, used !! x = Some row /\ is_cell (col_p_ref row) "x") /\
  NoDup (p_ref_nodes nd) /\
  (forall x, x ∈ p_ref_nodes nd -> exists id, feed_in_ids nd !! x = Some (Some id)).
Proof.
  revert nd. induction rows as [|row rows IH] using rev_ind; intros nd.
  - intros [= <-]. simpl. split_and!; try reflexivity.
    + constructor.
    + intros x. split; [intros H; inversion H | intros (r & H & _); discriminate].
    + constructor.
    + intros x H. inversion H.
  - rewrite foldl_snoc.
    destruct (foldl read_node_row (Ok no_nodes) rows) as [nd0|msg] eqn:E0;
      [|discriminate].
    destruct (IH nd0 eq_refl) as (Hn & Ha & Hf & Hg & Hp & Hnd & Hpf).
    rewrite filter_app, filter_cons, filter_nil.
    set (used0 := filter (fun row => is_cell (col_in_use row) "ja") rows) in *.
    cbn [read_node_row].
    destruct (is_cell (col_in_use row) "ja") eqn:Euse.
    + destruct (decide (is_cell (col_in_use row) "ja")) as [_|Hn0];
        [|rewrite Euse in Hn0; exfalso; apply Hn0; exact I].
      assert (Hlen0 : length (nbr_matrix nd0) = length used0)
        by (rewrite Hn; apply length_seq).
      destruct (romanToInt_cell (col_number row)) as [arabic|msg] eqn:Enum;
        [|discriminate].
      assert (Ha' : Forall2 (fun row n => romanToInt_cell (col_number row) = Ok n)
                            (used0 ++ [row]) (nbr_orig_arabic nd0 ++ [arabic])).
      { apply Forall2_app; [exact Ha|]. constructor; [exact Enum | constructor]. }
      destruct (is_cell (col_p_ref row) "x") eqn:Eref.
      * destruct (col_feed_in row) as [id|] eqn:Efeed; [|discriminate].
        intros [= <-].
        cbn [nbr_orig_arabic nbr_matrix feed_in_ids gapfilling_node p_ref_nodes].
        rewrite Hlen0, Hn, Hf, Hg, length_app, !map_app. simpl.
        split_and!; try reflexivity.
        -- now rewrite Nat.add_1_r, seq_S.
        -- exact Ha'.
        -- now rewrite Efeed.
        -- intros x. rewrite elem_of_app, Hp, list_elem_of_singleton. split.
           ++ intros [(r & Hr & Hx) | ->].
              ** exists r. split; [|exact Hx]. rewrite lookup_app_l; [exact Hr|].
                 eapply lookup_lt_Some. exact Hr.
              ** exists row. split; [|now rewrite Eref].
                 rewrite lookup_app_r by lia. now rewrite Nat.sub_diag.
           ++ intros (r & Hr & Hx).
              destruct (decide (x < length used0)%nat) as [Hlt|Hge].
              ** left. exists r. split; [|exact Hx].
                 now rewrite lookup_app_l in Hr by exact Hlt.
              ** right. apply lookup_lt_Some in Hr.
                 rewrite length_app in Hr. simpl in Hr. lia.
        -- apply NoDup_app. split; [exact Hnd|]. split; [|apply NoDup_singleton].
           intros x Hx Hx'. apply list_elem_of_singleton in Hx'. subst x.
           apply Hp in Hx as (r & Hr & _). apply lookup_lt_Some in Hr. lia.
        -- intros x Hx. apply elem_of_app in Hx as [Hx|Hx].
           ++ destruct (Hpf x Hx) as [id' Hid]. exists id'.
              rewrite Hf in Hid. rewrite lookup_app_l; [exact Hid|].
              eapply lookup_lt_Some. exact Hid.
           ++ apply list_elem_of_singleton in Hx. subst x. exists id.
              rewrite lookup_app_r by (rewrite length_map; lia).
              rewrite length_map, Nat.sub_diag. reflexivity.
      * intros [= <-].
        cbn [nbr_orig_arabic nbr_matrix feed_in_ids gapfilling_node p_ref_nodes].
        rewrite Hlen0, Hn, Hf, Hg, length_app, !map_app. simpl.
        split_and!; try reflexivity.
        -- now rewrite Nat.add_1_r, seq_S.
        -- exact Ha'.
        -- intros x. rewrite Hp. split.
           ++ intros (r & Hr & Hx). exists r. split; [|exact Hx].
              rewrite lookup_app_l; [exact Hr|]. eapply lookup_lt_Some. exact Hr.
           ++ intros (r & Hr & Hx).
              destruct (decide (x < length used0)%nat) as [Hlt|Hge].
              ** exists r. split; [|exact Hx].
                 now rewrite lookup_app_l in Hr by exact Hlt.
              ** rewrite lookup_app_r in Hr by lia.
                 destruct (x - length used0)%nat; [|discriminate].
                 injection Hr as <-. rewrite Eref in Hx. destruct Hx.
        -- exact Hnd.
        -- intros x Hx. destruct (Hpf x Hx) as [id' Hid]. exists id'.
           rewrite Hf in Hid. rewrite lookup_app_l; [exact Hid|].
           eapply lookup_lt_Some. exact Hid.
    + destruct (decide (is_cell (col_in_use row) "ja")) as [Hy|_];
        [rewrite Euse in Hy; destruct Hy|].
      intros [= <-]. rewrite app_nil_r.
      split_and!; assumption.
Qed.

(** The loop over the rows raises exactly when there is such a row. *)
Lemma read_rows_raises_iff (rows : list node_row) :
  (exists msg, foldl read_node_row (Ok no_nodes) rows = Raised msg) <->
  exists row, row ∈ rows /\ bad_node_row row.
Proof.
  induction rows as [|row rows IH] using rev_ind.
  - simpl. split; [intros [msg H]; discriminate|].
    intros (row & Hin & _). inversion Hin.
  - rewrite foldl_snoc.
    destruct (foldl read_node_row (Ok no_nodes) rows) as [nd0|msg0] eqn:E0.
    + assert (Hno : ~ exists row, row ∈ rows /\ bad_node_row row).
      { intros H. apply IH in H as [msg H]. discriminate. }
      assert (Hlast : forall r, r ∈ rows ++ [row] -> bad_node_row r -> bad_node_row row).
      { intros r Hin Hbad. apply elem_of_app in Hin as [Hin|Hin].
        - exfalso. apply Hno. eauto.
        - apply list_elem_of_singleton in Hin. now subst r. }
      assert (Hin : row ∈ rows ++ [row]) by (apply elem_of_app; right; left).
      cbn [read_node_row]. unfold bad_node_row in *.
      destruct (is_cell (col_in_use row) "ja") eqn:Euse.
      * destruct (romanToInt_cell (col_number row)) as [arabic|msg] eqn:Enum.
        -- destruct (is_cell (col_p_ref row) "x") eqn:Eref;
             [destruct (col_feed_in row) as [id|] eqn:Efeed|].
           ++ split; [intros [msg H]; discriminate|].
              intros (r & Hr & Hbad).
              destruct (Hlast r Hr Hbad) as [_ [H|[_ H]]];
                [destruct (H arabic); reflexivity | discriminate].
           ++ split; [|eauto]. intros _. exists row. split; [exact Hin|].
              rewrite Euse, Eref. split; [exact I|]. right. split; [exact I | exact Efeed].
           ++ split; [intros [msg H]; discriminate|].
              intros (r & Hr & Hbad).
              destruct (Hlast r Hr Hbad) as [_ [H|[H _]]];
                [destruct (H arabic); reflexivity | destruct H].
        -- split; [|eauto]. intros _. exists row. split; [exact Hin|].
           rewrite Euse, Enum. split; [exact I|]. left. intros n Hn. discriminate.
      * split; [intros [msg H]; discriminate|].
        intros (r & Hr & Hbad). destruct (Hlast r Hr Hbad) as [H _]. destruct H.
    + simpl. split; [|eauto]. intros _.
      destruct (proj1 IH) as (r & Hin & H); [eauto|].
      exists r. split; [|exact H]. apply elem_of_app. now left.
Qed.

Lemma list_sum_flags {A : Type} (P : A -> bool) (l : list A) :
  list_sum (map (fun a => if P a then 1%nat else 0%nat) l) =
  length (filter (fun a => P a) l).
Proof.
  induction l as [|a l IH]; [reflexivity|].
  simpl. rewrite filter_cons, IH.
  destruct (P a) eqn:E.
  - destruct (decide (true)) as [_|H]; [reflexivity | exfalso; apply H; exact I].
  - destruct (decide (false)) as [H|_]; [destruct H | reflexivity].
Qed.

(** The node part of [read_grid_setup] with its closing check.  It returns
    exactly when [romanToInt] can read the numeral of every row in use, no
    row in use is flagged as the pressure reference without having a feeder
    id, and at most one row in use is flagged as the gapfilling node.  The
    nodes it returns are numbered 0, 1, ... in the order of the rows in use,
    [nbr_orig_arabic] holds the numbers of their numerals, [feed_in] their
    feeder ids, and [p_ref] holds, without repetition, the numbers of the
    rows flagged as pressure reference, each of which has a feeder id. *)
Theorem read_grid_setup_returns_iff (rows : list node_row) :
  let used := filter (fun row => is_cell (col_in_use row) "ja") rows in
  ((exists nd, read_grid_setup rows = Ok nd) <->
   (forall row, row ∈ used -> exists n, romanToInt_cell (col_number row) = Ok n) /\
   (forall row, row ∈ used -> is_cell (col_p_ref row) "x" -> col_feed_in row <> None) /\
   (length (filter (fun row => is_cell (col_gapfilling row) "x") used) <= 1)%nat) /\
  (forall nd, read_grid_setup rows = Ok nd ->
     nbr_matrix nd = seq 0 (length used) /\
     Forall2 (fun row n => romanToInt_cell (col_number row) = Ok n)
             used (nbr_orig_arabic nd) /\
     feed_in_ids nd = map col_feed_in used /\
     (forall x, x ∈ p_ref_nodes nd <->
        exists row, used !! x = Some row /\ is_cell (col_p_ref row) "x") /\
     NoDup (p_ref_nodes nd) /\
     (forall x, x ∈ p_ref_nodes nd ->
        (x < length used)%nat /\ exists id, feed_in_ids nd !! x = Some (Some id))).
Proof.
  intros used. unfold read_grid_setup.
  destruct (foldl read_node_row (Ok no_nodes) rows) as [nd0|msg0] eqn:E0.
  - destruct (read_rows_spec rows nd0 E0) as (Hn & Ha & Hf & Hg & Hp & Hnd & Hpf).
    fold used in Hn, Ha, Hf, Hg, Hp.
    assert (Hgood : forall row, row ∈ used -> ~ bad_node_row row).
    { intros row Hin Hbad.
      assert (Hr : exists msg, foldl read_node_row (Ok no_nodes) rows = Raised msg).
      { apply read_rows_raises_iff. exists row.
        apply list_elem_of_filter in Hin as [_ Hin]. split; assumption. }
      destruct Hr as [msg Hr]. congruence. }
    assert (Hnum : forall row, row ∈ used ->
                     exists n, romanToInt_cell (col_number row) = Ok n).
    { intros row Hin. destruct (romanToInt_cell (col_number row)) as [n|msg] eqn:E;
        [eauto|]. exfalso. apply (Hgood row Hin).
      apply list_elem_of_filter in Hin as [Huse _].
      split; [exact Huse|]. left. intros n' Hn'. rewrite E in Hn'. discriminate. }
    assert (Hfeed : forall row, row ∈ used -> is_cell (col_p_ref row) "x" ->
                      col_feed_in row <> None).
    { intros row Hin Hx Hnone. apply (Hgood row Hin).
      apply list_elem_of_filter in Hin as [Huse _].
      split; [exact Huse|]. right. split; assumption. }
    assert (Hsum : list_sum (gapfilling_node nd0) =
              length (filter (fun row => is_cell (col_gapfilling row) "x") used)).
    { rewrite Hg. apply (list_sum_flags (fun row => is_cell (col_gapfilling row) "x")). }
    split.
    + destruct (Nat.ltb_spec 1 (list_sum (gapfilling_node nd0))) as [Hgt|Hle].
      * split; [intros [nd H]; discriminate|]. intros (_ & _ & H). lia.
      * split; [|eauto]. intros _. split; [exact Hnum|]. split; [exact Hfeed | lia].
    + intros nd. destruct (1 <? _)%nat; [discriminate|]. intros [= <-].
      split_and!; try assumption.
      intros x Hx. split; [|now apply Hpf].
      apply Hp in Hx as (r & Hr & _). eapply lookup_lt_Some. exact Hr.
  - split; [|discriminate]. split; [intros [nd H]; discriminate|].
    intros (Hnum & Hfeed & _). exfalso.
    destruct (proj1 (read_rows_raises_iff rows)) as (row & Hin & Huse & Hbad); [eauto|].
    assert (Hu : row ∈ used) by (apply list_elem_of_filter; split; assumption).
    destruct Hbad as [Hbad|[Hx Hnone]].
    + destruct (Hnum row Hu) as [n' Hn']. now apply (Hbad n').
    + now apply (Hfeed row Hu Hx).
Qed.

Lemma read_grid_setup_returns_iff_witness :
  exists nd, read_grid_setup Example_rows_two_refs = Ok nd.
Proof.
  apply (proj2 (proj1 (read_grid_setup_returns_iff Example_rows_two_refs))).
  split; [|split; [|vm_compute; lia]].
  - intros row Hin. vm_compute in Hin.
    repeat (apply elem_of_cons in Hin as [-> | Hin]);
      first [inversion Hin | eexists; vm_compute; reflexivity].
  - intros row Hin Hx. vm_compute in Hin.
    repeat (apply elem_of_cons in Hin as [-> | Hin]);
      first [discriminate | destruct Hx | inversion Hin].
Defined.

(** ** Roman numerals *)

Example romanToInt_examples :
  romanToInt "MCMXCIV" = Ok 1994%nat /\ romanToInt "IIII" = Ok 4%nat /\
  romanToInt "IM" = Ok 1001%nat /\ standard_numeral 1994 = "MCMXCIV" /\
  romanToInt "" = Ok 0%nat /\ romanToInt "XIa" = Raised "KeyError: a".
Proof. vm_compute. repeat split. Qed.

Lemma roman_lookup_Some (k : string) (v : nat) :
  roman !! k = Some v ->
  (k, v) ∈ [("I", 1); ("V", 5); ("X", 10); ("L", 50); ("C", 100); ("D", 500);
            ("M", 1000); ("IV", 4); ("IX", 9); ("XL", 40); ("XC", 90); ("CD", 400);
            ("CM", 900)]%nat.
Proof. unfold roman. apply elem_of_list_to_map_2. Qed.

Lemma roman_single_letter (a : ascii) :
  is_Some (roman !! String a EmptyString) <-> roman_letter a.
Proof.
  unfold roman_letter. split.
  - intros [v Hv]. apply roman_lookup_Some in Hv.
    repeat (apply elem_of_cons in Hv as [Hv|Hv];
            [injection Hv as <- _; set_solver|]); try discriminate.
    inversion Hv.
  - intros H.
    repeat (apply elem_of_cons in H as [->|H]; [vm_compute; eauto|]).
    inversion H.
Qed.

Lemma roman_pair_letters (a b : ascii) :
  is_Some (roman !! String a (String b EmptyString)) ->
  roman_letter a /\ roman_letter b.
Proof.
  unfold roman_letter. intros [v Hv]. apply roman_lookup_Some in Hv.
  repeat (apply elem_of_cons in Hv as [Hv|Hv];
          [first [discriminate | injection Hv as <- <- _; set_solver]|]).
  inversion Hv.
Qed.

Lemma romanToInt_from_cons2 (a b : ascii) (rest : string) (num : nat) :
  romanToInt_from (String a (String b rest)) num =
  match roman !! String a (String b EmptyString) with
  | Some v => romanToInt_from rest (num + v)%nat
  | None =>
      match roman !! String a EmptyString with
      | Some v => romanToInt_from (String b rest) (num + v)%nat
      | None => Raised ("KeyError: " +:+ String a EmptyString)
      end
  end.
Proof. reflexivity. Qed.

(** [romanToInt] returns exactly for the strings made of the letters I, V,
    X, L, C, D and M, the empty string among them; any other character
    raises [KeyError]. *)
Theorem romanToInt_returns_iff (s : string) :
  (exists n, romanToInt s = Ok n) <-> Forall roman_letter (letters s).
Proof.
  unfold romanToInt. generalize 0%nat as num.
  assert (H : (forall num, (exists n, romanToInt_from s num = Ok n) <->
                           Forall roman_letter (letters s)) /\
              (forall a num, (exists n, romanToInt_from (String a s) num = Ok n) <->
                             Forall roman_letter (letters (String a s)))).
  { induction s as [|b s [IH1 IH2]].
    - split.
      + intros num. simpl. split; [constructor | eauto].
      + intros a num. simpl.
        destruct (roman !! String a EmptyString) as [v|] eqn:E.
        * split; [|eauto]. intros _. constructor; [|constructor].
          apply roman_single_letter. eauto.
        * split; [intros [n H]; discriminate|].
          intros H. apply Forall_cons in H as [H _].
          apply roman_single_letter in H as [v Hv]. congruence.
    - split; [intros num; apply IH2|].
      intros a num. rewrite romanToInt_from_cons2. cbn [letters].
      destruct (roman !! String a (String b EmptyString)) as [v|] eqn:E2.
      + destruct (roman_pair_letters a b) as [Ha Hb]; [eauto|].
        rewrite IH1. split.
        * intros H. constructor; [exact Ha|]. constructor; [exact Hb | exact H].
        * intros H. apply Forall_cons in H as [_ H]. now apply Forall_cons in H as [_ H].
      + destruct (roman !! String a EmptyString) as [v|] eqn:E1.
        * rewrite IH2. cbn [letters]. split.
          -- intros H. constructor; [|exact H]. apply roman_single_letter. eauto.
          -- intros H. now apply Forall_cons in H as [_ H].
        * split; [intros [n H]; discriminate|].
          intros H. apply Forall_cons in H as [H _].
          apply roman_single_letter in H as [v Hv]. congruence. }
  apply H.
Qed.

Lemma romanToInt_standard_check :
  forallb (fun n => match romanToInt (standard_numeral n) with
                    | Ok m => (m =? n)%nat
                    | Raised _ => false
                    end) (seq 0 4000) = true.
Proof. vm_compute. reflexivity. Qed.

(** [romanToInt] reads the standard numeral of every number up to 3999 as
    that number. *)
Theorem romanToInt_standard_numeral (n : nat) :
  (n <= 3999)%nat -> romanToInt (standard_numeral n) = Ok n.
Proof.
  intros Hn. pose proof romanToInt_standard_check as Hall.
  rewrite forallb_forall in Hall.
  specialize (Hall n). rewrite in_seq in Hall.
  assert (Hin : (0 <= n < 0 + 4000)%nat) by lia.
  specialize (Hall Hin).
  destruct (romanToInt (standard_numeral n)) as [m|msg]; [|discriminate].
  apply Nat.eqb_eq in Hall. now subst.
Qed.

Lemma romanToInt_standard_numeral_witness :
  romanToInt (standard_numeral 1994) = Ok 1994%nat.
Proof. apply romanToInt_standard_numeral. lia. Defined.

(** ** Reading the pipes *)

Lemma match_nodes_spec (arabic : list nat) (row : line_row) (ln : grid_lines)
    (s e : nat) (n : nat) :
  romanToInt_cell (line_start_cell row) = Ok s ->
  romanToInt_cell (line_end_cell row) = Ok e ->
  foldl (match_node arabic row) (Ok ln) (seq 0 n) =
  Ok {| line_nbr_matrix := line_nbr_matrix ln;
        line_node_start :=
          line_node_start ln ++ filter (fun x => s = arabic !!! x) (seq 0 n);
        line_node_end :=
          line_node_end ln ++ filter (fun x => e = arabic !!! x) (seq 0 n);
        lines_dia := lines_dia ln |}.
Proof.
  intros Hs He. induction n as [|n IH].
  - simpl. rewrite !app_nil_r. now destruct ln.
  - rewrite seq_S, foldl_app, IH, !filter_app. simpl.
    unfold match_node. cbn [mbind result_bind]. rewrite Hs, He.
    cbn [mbind result_bind].
    rewrite !filter_cons, !filter_nil.
    destruct (Nat.eqb_spec s (arabic !!! n)) as [E1|E1];
      destruct (Nat.eqb_spec e (arabic !!! n)) as [E2|E2];
      destruct (decide (s = arabic !!! n)); try contradiction;
      destruct (decide (e = arabic !!! n)); try contradiction;
      cbn [line_nbr_matrix line_node_start line_node_end lines_dia];
      rewrite ?app_nil_r, ?app_assoc; reflexivity.
Qed.

Lemma match_nodes_raises (arabic : list nat) (row : line_row) (ln : grid_lines) (n : nat) :
  (0 < n)%nat ->
  (forall s, romanToInt_cell (line_start_cell row) <> Ok s) \/
  (forall e, romanToInt_cell (line_end_cell row) <> Ok e) ->
  exists msg, foldl (match_node arabic row) (Ok ln) (seq 0 n) = Raised msg.
Proof.
  intros Hn Hbad. destruct n as [|n]; [lia|]. clear Hn.
  rewrite seq_S, foldl_app. simpl.
  destruct (foldl (match_node arabic row) (Ok ln) (seq 0 n)) as [ln'|msg]; [|eauto].
  unfold match_node. cbn [mbind result_bind].
  destruct (romanToInt_cell (line_start_cell row)) as [s|msg] eqn:Es; [|eauto].
  cbn [mbind result_bind].
  destruct (romanToInt_cell (line_end_cell row)) as [e|msg] eqn:Ee; [|eauto].
  destruct Hbad as [H|H]; [destruct (H s) | destruct (H e)]; reflexivity.
Qed.

Lemma read_line_rows_raised (arabic : list nat) (msg : string) (rows : list line_row) :
  foldl (read_line_row arabic) (Raised msg) rows = Raised msg.
Proof. induction rows as [|row rows IH]; [reflexivity | exact IH]. Qed.

(** One row in use: what is appended when it can be read, and that the
    loop raises when it cannot. *)
Lemma read_line_row_in_use (arabic : list nat) (ln : grid_lines) (row : line_row) :
  is_cell (line_in_use row) "ja" = true ->
  (forall s e v,
     arabic <> [] ->
     romanToInt_cell (line_start_cell row) = Ok s ->
     romanToInt_cell (line_end_cell row) = Ok e ->
     line_dia_cell row = CellNumber v ->
     read_line_row arabic (Ok ln) row =
     Ok {| line_nbr_matrix := line_nbr_matrix ln ++ [length (line_nbr_matrix ln)];
           line_node_start := line_node_start ln ++ resolved arabic (line_start_cell row);
           line_node_end := line_node_end ln ++ resolved arabic (line_end_cell row);
           lines_dia := lines_dia ln ++ [(v / 1000)%Q] |}) /\
  (~ (arabic <> [] /\
      (exists s, romanToInt_cell (line_start_cell row) = Ok s) /\
      (exists e, romanToInt_cell (line_end_cell row) = Ok e) /\
      (exists v, line_dia_cell row = CellNumber v)) ->
   exists msg, read_line_row arabic (Ok ln) row = Raised msg).
Proof.
  intros Huse. cbn [read_line_row mbind result_bind]. rewrite Huse. split.
  - intros s e v Hne Hs He Hv.
    destruct arabic as [|a0 arabic'] eqn:Earabic; [contradiction|]. rewrite <- Earabic.
    rewrite (match_nodes_spec arabic row _ s e _ Hs He).
    cbn [mbind result_bind line_nbr_matrix line_node_start line_node_end lines_dia].
    rewrite Hv. cbn [dia_of_cell mbind result_bind].
    unfold resolved. rewrite Hs, He. reflexivity.
  - intros Hbad.
    destruct arabic as [|a0 arabic'] eqn:Earabic; [eauto|]. rewrite <- Earabic.
    destruct (romanToInt_cell (line_start_cell row)) as [s|ms] eqn:Es.
    + destruct (romanToInt_cell (line_end_cell row)) as [e|me] eqn:Ee.
      * rewrite (match_nodes_spec arabic row _ s e _ Es Ee).
        cbn [mbind result_bind].
        destruct (line_dia_cell row) as [v| |] eqn:Ev;
          cbn [dia_of_cell mbind result_bind]; [|eauto..].
        exfalso. apply Hbad. split_and!; [discriminate | eauto..].
      * destruct (match_nodes_raises arabic row
                    {| line_nbr_matrix :=
                         line_nbr_matrix ln ++ [length (line_nbr_matrix ln)];
                       line_node_start := line_node_start ln;
                       line_node_end := line_node_end ln;
                       lines_dia := lines_dia ln |}
                    (length arabic)) as [msg Hmsg].
        { subst arabic. simpl. lia. }
        { right. intros e' He'. congruence. }
        rewrite Hmsg. eauto.
    + destruct (match_nodes_raises arabic row
                  {| line_nbr_matrix :=
                       line_nbr_matrix ln ++ [length (line_nbr_matrix ln)];
                     line_node_start := line_node_start ln;
                     line_node_end := line_node_end ln;
                     lines_dia := lines_dia ln |}
                  (length arabic)) as [msg Hmsg].
      { subst arabic. simpl. lia. }
      { left. intros s' Hs'. congruence. }
      rewrite Hmsg. eauto.
Qed.

Lemma line_row_readable_dec (arabic : list nat) (row : line_row) :
  let readable :=
    arabic <> [] /\
    (exists s, romanToInt_cell (line_start_cell row) = Ok s) /\
    (exists e, romanToInt_cell (line_end_cell row) = Ok e) /\
    (exists v, line_dia_cell row = CellNumber v) in
  readable \/ ~ readable.
Proof.
  cbv zeta.
  destruct arabic as [|a0 arabic']; [right; intros [H _]; now apply H|].
  destruct (romanToInt_cell (line_start_cell row)) as [s|ms];
    [|right; intros (_ & [s H] & _); discriminate].
  destruct (romanToInt_cell (line_end_cell row)) as [e|me];
    [|right; intros (_ & _ & [e H] & _); discriminate].
  destruct (line_dia_cell row) as [v| |];
    [|right; intros (_ & _ & _ & [v H]); discriminate..].
  left. split_and!; [discriminate | eauto..].
Qed.

Lemma read_lines_returns_iff_holds (arabic : list nat) (rows : list line_row) :
  let used := filter (fun row => is_cell (line_in_use row) "ja") rows in
  ((exists ln, read_lines arabic rows = Ok ln) <->
   forall row, row ∈ used ->
     arabic <> [] /\
     (exists s, romanToInt_cell (line_start_cell row) = Ok s) /\
     (exists e, romanToInt_cell (line_end_cell row) = Ok e) /\
     (exists v, line_dia_cell row = CellNumber v)) /\
  (forall ln, read_lines arabic rows = Ok ln ->
     line_nbr_matrix ln = seq 0 (length used) /\
     line_node_start ln = concat (map (fun row => resolved arabic (line_start_cell row)) used) /\
     line_node_end ln = concat (map (fun row => resolved arabic (line_end_cell row)) used) /\
     Forall2 (fun row d => exists v, line_dia_cell row = CellNumber v /\ d = (v / 1000)%Q)
             used (lines_dia ln)).
Proof.
  unfold read_lines.
  induction rows as [|row rows IH] using rev_ind.
  - simpl. split.
    + split; [intros _ row H; inversion H | eauto].
    + intros ln [= <-]. split_and!; try reflexivity. constructor.
  - simpl in IH. destruct IH as [IHiff IHspec].
    rewrite foldl_snoc, filter_app, filter_cons, filter_nil.
    set (used0 := filter (fun row => is_cell (line_in_use row) "ja") rows) in *.
    destruct (foldl (read_line_row arabic) (Ok no_lines) rows) as [ln0|msg0] eqn:E0.
    + destruct (IHspec ln0 eq_refl) as (Hn & Hs & He & Hd).
      pose proof (proj1 IHiff ltac:(eauto)) as Hgood0.
      destruct (is_cell (line_in_use row) "ja") eqn:Euse.
      * destruct (decide (is_cell (line_in_use row) "ja")) as [_|Hn0];
          [|rewrite Euse in Hn0; exfalso; apply Hn0; exact I].
        destruct (read_line_row_in_use arabic ln0 row Euse) as [Hok Hraise].
        destruct (line_row_readable_dec arabic row)
          as [(Hne & [s Hs'] & [e He'] & [v Hv])|Hbad].
        -- rewrite (Hok s e v Hne Hs' He' Hv). split.
           ++ split; [|eauto]. intros _ r Hr.
              apply elem_of_app in Hr as [Hr|Hr]; [now apply Hgood0|].
              apply list_elem_of_singleton in Hr. subst r. eauto 10.
           ++ intros ln [= <-].
              cbn [line_nbr_matrix line_node_start line_node_end lines_dia].
              rewrite !map_app, !concat_app, length_app, Hn, Hs, He, length_seq.
              simpl. rewrite !app_nil_r.
              split_and!; try reflexivity; [now rewrite Nat.add_1_r, seq_S|].
              apply Forall2_app; [exact Hd|]. constructor; [eauto | constructor].
        -- destruct (Hraise Hbad) as [msg Hmsg]. rewrite Hmsg.
           split; [|discriminate]. split; [intros [ln H]; discriminate|].
           intros H. exfalso. apply Hbad. apply H.
           apply elem_of_app. right. now left.
      * destruct (decide (is_cell (line_in_use row) "ja")) as [Hy|_];
          [rewrite Euse in Hy; destruct Hy|].
        cbn [read_line_row mbind result_bind]. rewrite Euse, app_nil_r. split.
        -- split; [intros _; exact Hgood0 | eauto].
        -- intros ln [= <-]. split_and!; assumption.
    + simpl. split; [|discriminate].
      split; [intros [ln H]; discriminate|].
      intros Hgood. exfalso.
      assert (Hex : exists ln : grid_lines, Raised msg0 = Ok ln); [|destruct Hex; discriminate].
      apply IHiff. intros r Hr. apply Hgood. apply elem_of_app. now left.
Qed.

(** What [read_grid_setup] reads from sheet "Leitungen".  It returns exactly
    when, for every pipe in use, there is at least one node, [romanToInt]
    can read both the start and the end numeral, and the diameter cell holds
    a number.  When it returns, the pipes in use are numbered 0, 1, ... in
    the order of their rows, [line.dia] holds their diameters divided by
    1000, and [line.node_start] is the concatenation, over the pipes in use,
    of the nodes that carry the number of the start numeral, likewise
    [line.node_end]: a pipe whose numeral is the number of no node adds no
    entry, one whose numeral is the number of two nodes adds two. *)
Theorem read_lines_returns_iff (arabic : list nat) (rows : list line_row) :
  let used := filter (fun row => is_cell (line_in_use row) "ja") rows in
  ((exists ln, read_lines arabic rows = Ok ln) <->
   forall row, row ∈ used ->
     arabic <> [] /\
     (exists s, romanToInt_cell (line_start_cell row) = Ok s) /\
     (exists e, romanToInt_cell (line_end_cell row) = Ok e) /\
     (exists v, line_dia_cell row = CellNumber v)) /\
  (forall ln, read_lines arabic rows = Ok ln ->
     line_nbr_matrix ln = seq 0 (length used) /\
     line_node_start ln = concat (map (fun row => resolved arabic (line_start_cell row)) used) /\
     line_node_end ln = concat (map (fun row => resolved arabic (line_end_cell row)) used) /\
     Forall2 (fun row d => exists v, line_dia_cell row = CellNumber v /\ d = (v / 1000)%Q)
             used (lines_dia ln)).
Proof. exact (read_lines_returns_iff_holds arabic rows). Qed.

Lemma read_lines_returns_iff_witness :
  exists ln, read_lines [1; 2; 4]%nat Example_line_rows = Ok ln.
Proof.
  apply (proj2 (proj1 (read_lines_returns_iff [1; 2; 4]%nat Example_line_rows))).
  intros row Hin. vm_compute in Hin.
  repeat (apply elem_of_cons in Hin as [-> | Hin]);
    first [inversion Hin
          | split; [discriminate|]; split_and!; eexists; vm_compute; reflexivity].
Defined.

Lemma concat_singletons {A B : Type} (f : A -> list B) (Q : A -> B -> Prop) (l : list A) :
  (forall a, a ∈ l -> exists b, f a = [b] /\ Q a b) ->
  length (concat (map f l)) = length l /\
  forall i a, l !! i = Some a -> exists b, concat (map f l) !! i = Some b /\ Q a b.
Proof.
  induction l as [|a0 l IH]; intros H.
  - split; [reflexivity|]. intros i a Hi. discriminate.
  - destruct (H a0) as (b0 & Hb0 & HQ0); [left|].
    destruct IH as [IHlen IHget]; [intros a Ha; apply H; now right|].
    simpl. rewrite Hb0. simpl. split; [now rewrite IHlen|].
    intros [|i] a Hi; simpl in *.
    + injection Hi as <-. eauto.
    + now apply IHget.
Qed.

Lemma resolved_unique (arabic : list nat) (c : option string) (s x : nat) :
  NoDup arabic -> romanToInt_cell c = Ok s -> arabic !! x = Some s ->
  resolved arabic c = [x].
Proof.
  intros Hnd Hc Hx. unfold resolved. rewrite Hc.
  assert (Hlt : (x < length arabic)%nat) by (eapply lookup_lt_Some; exact Hx).
  assert (Hlen : length (filter (fun y => s = arabic !!! y) (seq 0 (length arabic))) = 1%nat).
  { apply (count_unique _ _ x Hlt). intros y Hy. split.
    - intros Hs. destruct (lookup_lt_is_Some_2 arabic y Hy) as [v Hv].
      rewrite (list_lookup_total_correct _ _ _ Hv) in Hs. subst v.
      eapply NoDup_lookup; eassumption.
    - intros ->. now rewrite (list_lookup_total_correct _ _ _ Hx). }
  assert (Hin : x ∈ filter (fun y => s = arabic !!! y) (seq 0 (length arabic))).
  { apply list_elem_of_filter. split; [|apply elem_of_seq; lia].
    now rewrite (list_lookup_total_correct _ _ _ Hx). }
  destruct (filter _ _) as [|z [|z' zs]]; try discriminate.
  apply list_elem_of_singleton in Hin. now subst.
Qed.

(** When the numbers of the nodes are pairwise different, both numerals of
    every pipe in use denote the number of a node and its diameter cell
    holds a number, [read_grid_setup] gets through sheet "Leitungen",
    [line.node_start] and [line.node_end] hold one entry per pipe, the entry
    of a pipe is the matrix number of the node that carries the numeral's
    number, and the topology handed to [make_matrix_coupl] is well formed. *)
Theorem read_lines_resolves_endpoints (arabic : list nat) (rows : list line_row) :
  let used := filter (fun row => is_cell (line_in_use row) "ja") rows in
  NoDup arabic ->
  (forall row, row ∈ used ->
     exists s e v, romanToInt_cell (line_start_cell row) = Ok s /\
                   romanToInt_cell (line_end_cell row) = Ok e /\
                   s ∈ arabic /\ e ∈ arabic /\
                   line_dia_cell row = CellNumber v) ->
  exists ln, read_lines arabic rows = Ok ln /\
    length (line_nbr_matrix ln) = length used /\
    length (line_node_start ln) = length used /\
    length (line_node_end ln) = length used /\
    (forall l row, used !! l = Some row ->
       exists xs xe s e,
         line_node_start ln !! l = Some xs /\ line_node_end ln !! l = Some xe /\
         romanToInt_cell (line_start_cell row) = Ok s /\
         romanToInt_cell (line_end_cell row) = Ok e /\
         arabic !! xs = Some s /\ arabic !! xe = Some e) /\
    wf_topology (topology_of (length arabic) ln).
Proof.
  intros used Hnd Hrows.
  destruct (read_lines_returns_iff_holds arabic rows) as [Hiff Hspec].
  fold used in Hiff, Hspec.
  destruct (proj2 Hiff) as [ln Hln].
  { intros row Hin. destruct (Hrows row Hin) as (s & e & v & Hs & He & Hins & _ & Hv).
    split; [intros ->; inversion Hins|]. eauto 10. }
  destruct (Hspec ln Hln) as (Hn & Hst & Hen & _).
  destruct (concat_singletons (fun row => resolved arabic (line_start_cell row))
              (fun row x => exists s, romanToInt_cell (line_start_cell row) = Ok s /\
                                      arabic !! x = Some s) used) as [Hls Hgs].
  { intros row Hin. destruct (Hrows row Hin) as (s & e & v & Hs & _ & Hins & _).
    apply list_elem_of_lookup in Hins as [x Hx]. exists x.
    split; [now apply (resolved_unique arabic _ s) | eauto]. }
  destruct (concat_singletons (fun row => resolved arabic (line_end_cell row))
              (fun row x => exists e, romanToInt_cell (line_end_cell row) = Ok e /\
                                      arabic !! x = Some e) used) as [Hle Hge].
  { intros row Hin. destruct (Hrows row Hin) as (s & e & v & _ & He & _ & Hine & _).
    apply list_elem_of_lookup in Hine as [x Hx]. exists x.
    split; [now apply (resolved_unique arabic _ e) | eauto]. }
  rewrite <- Hst in Hls, Hgs. rewrite <- Hen in Hle, Hge.
  exists ln. split; [exact Hln|].
  split; [now rewrite Hn, length_seq|]. split; [exact Hls|]. split; [exact Hle|].
  assert (Hget : forall l row, used !! l = Some row ->
            exists xs xe s e,
              line_node_start ln !! l = Some xs /\ line_node_end ln !! l = Some xe /\
              romanToInt_cell (line_start_cell row) = Ok s /\
              romanToInt_cell (line_end_cell row) = Ok e /\
              arabic !! xs = Some s /\ arabic !! xe = Some e).
  { intros l row Hl.
    destruct (Hgs l row Hl) as (xs & Hxs & s & Hs & Has).
    destruct (Hge l row Hl) as (xe & Hxe & e & He & Hae).
    exists xs, xe, s, e. split_and!; assumption. }
  split; [exact Hget|].
  intros l Hl. cbn [topology_of n_line n_node node_start node_end] in *.
  rewrite Hn, length_seq in Hl.
  destruct (lookup_lt_is_Some_2 used l Hl) as [row Hrow].
  destruct (Hget l row Hrow) as (xs & xe & s & e & Hxs & Hxe & _ & _ & Has & Hae).
  rewrite (list_lookup_total_correct _ _ _ Hxs), (list_lookup_total_correct _ _ _ Hxe).
  split; eapply lookup_lt_Some; eassumption.
Qed.

Lemma read_lines_resolves_endpoints_witness :
  exists ln, read_lines [1; 2; 4]%nat Example_line_rows = Ok ln /\
             wf_topology (topology_of 3 ln).
Proof.
  destruct (read_lines_resolves_endpoints [1; 2; 4]%nat Example_line_rows)
    as (ln & Hln & _ & _ & _ & _ & Hwf).
  - repeat constructor; set_solver.
  - intros row Hin. vm_compute in Hin.
    repeat (apply elem_of_cons in Hin as [-> | Hin]); [| |inversion Hin].
    + exists 1%nat, 2%nat, 100%Q. split_and!; try (vm_compute; reflexivity); set_solver.
    + exists 2%nat, 4%nat, 80%Q. split_and!; try (vm_compute; reflexivity); set_solver.
  - exists ln. split; [exact Hln | exact Hwf].
Defined.

(** ** Start values and unknowns *)

Example step_setup_example :
  step_setup Example_step_nodes 3 1000 =
  Ok ({| p := [Some 500000%Q; None; None]; p_ref := [Some 500000%Q; None; None];
         m_ext := [None; Some 0%Q; Some (-(2 * 1000 / 1000))%Q];
         m_ext_check := [None; Some 0%Q; Some (-(2 * 1000 / 1000))%Q];
         h_coord := [0; 0; 0]%Q |},
      {| p := [Some 300000%Q; None; None]; p_ref := [Some 300000%Q; None; None];
         m_ext := [None; Some 0%Q; Some (2 * 1000 / 1000)%Q];
         m_ext_check := [None; Some 0%Q; Some (2 * 1000 / 1000)%Q];
         h_coord := [0; 0; 0]%Q |}).
Proof. reflexivity. Qed.








(** *** The start vectors *)



(** *** The node arrays of a step *)








(** ** Direction correction with a root finder that follows the orientation *)

(** With a root finder that follows the orientation, each
    direction-correction loop of [solve_network_hydr] stops after at most
    two solves: the pipes the first solve reports below [-1e-10] are
    flipped, the second solve reports their flows with the opposite sign and
    the others unchanged, and nothing is left to correct. *)
Theorem correction_stops_after_two_solves
    (fs : matrix -> list Q) (nn nl : nat) (M : matrix) :
  follows_orientation fs nn nl ->
  (forall c, (c < nl)%nat -> column_ok nn M c) ->
  exists r,
    (forall fuel, (2 <= fuel)%nat -> correction_loop fs nn nl fuel M = Returned r) /\
    (forall l, (l < nl)%nat ->
       (m_int r !!! l ==
        if decide (negative (fs M) l) then - (fs M !!! l) else fs M !!! l)%Q) /\
    (forall x l, (x < nn)%nat -> (l < nl)%nat ->
       entry (matrix_coupl r) x l =
       if decide (negative (fs M) l) then - entry M x l else entry M x l).
Proof. exact (oriented_loop_returns fs nn nl M). Qed.

Lemma correction_stops_after_two_solves_witness :
  exists r, correction_loop oriented_solver 3 2 2 (negate (make_matrix_coupl Example_tp))
            = Returned r.
Proof.
  destruct (correction_stops_after_two_solves oriented_solver 3 2
              (negate (make_matrix_coupl Example_tp))) as (r & Hr & _).
  - exact oriented_solver_follows.
  - intros c Hc. apply column_ok_negate. now apply Example_columns_ok.
  - exists r. apply Hr. lia.
Defined.

(** ** Explicit upwind step of a pipe *)

Lemma segment_capacity_pos (inp : therm_input) (x_line : nat) :
  (0 < rho inp)%Q -> (0 < c_p inp)%Q -> (0 < line_dx inp !!! x_line)%Q ->
  (0 < line_dia inp !!! x_line)%Q -> (0 < segment_capacity inp x_line)%Q.
Proof.
  intros Hr Hc Hdx Hd. unfold segment_capacity.
  apply Qlt_shift_div_l; [reflexivity|]. rewrite Qmult_0_l.
  repeat apply Qmult_lt_0_compat; try assumption; reflexivity.
Qed.

(** The explicit step of one segment as a weighted mean. *)
Lemma segment_update_value (inp : therm_input) (loss_area : Q) (x_line : nat) (t_up t : Q) :
  (0 < segment_capacity inp x_line)%Q ->
  exists t', segment_update inp loss_area x_line (Some t_up) (Some t) = Some t' /\
    (t' * segment_capacity inp x_line ==
     t * segment_capacity inp x_line
     + delta_time_therm inp *
       ((m_int_trans inp !!! x_line) * c_p inp * (t_up - t)
        - (line_htc inp !!! x_line) * (t - temp_soil inp) * loss_area))%Q.
Proof.
  intros HD. unfold segment_update. cbn [mbind option_bind].
  fold (segment_capacity inp x_line).
  assert (Hnz : ~ (segment_capacity inp x_line == 0)%Q) by lra.
  rewrite (np_div_nonzero _ _ Hnz). cbn [mbind option_bind].
  eexists. split; [reflexivity|]. field. exact Hnz.
Qed.

Lemma segment_update_within (inp : therm_input) (loss_area : Q) (x_line : nat)
    (t_up t lo hi : Q) :
  stable_step inp loss_area x_line ->
  within lo hi t_up -> within lo hi t -> within lo hi (temp_soil inp) ->
  exists t', segment_update inp loss_area x_line (Some t_up) (Some t) = Some t' /\
             within lo hi t'.
Proof.
  intros (Hr & Hc & Hdx & Hd & Hdt & Hm & Hh & Hl & Hcfl) [Hu1 Hu2] [Ht1 Ht2] [Hs1 Hs2].
  pose proof (segment_capacity_pos inp x_line Hr Hc Hdx Hd) as HD.
  destruct (segment_update_value inp loss_area x_line t_up t HD) as (t' & E & Hv).
  exists t'. split; [exact E|].
  set (D := segment_capacity inp x_line) in *.
  set (m := m_int_trans inp !!! x_line) in *.
  set (h := line_htc inp !!! x_line) in *.
  set (dt := delta_time_therm inp) in *.
  set (c := c_p inp) in *. set (soil := temp_soil inp) in *.
  assert (Hmc : (0 <= dt * (m * c))%Q).
  { apply Qmult_le_0_compat; [exact Hdt|]. apply Qmult_le_0_compat; [exact Hm | lra]. }
  assert (Hhl : (0 <= dt * (h * loss_area))%Q).
  { apply Qmult_le_0_compat; [exact Hdt|]. now apply Qmult_le_0_compat. }
  assert (Hrest : (0 <= D - dt * (m * c) - dt * (h * loss_area))%Q) by lra.
  assert (L1 : (0 <= (D - dt * (m * c) - dt * (h * loss_area)) * (t - lo))%Q)
    by (apply Qmult_le_0_compat; lra).
  assert (L2 : (0 <= dt * (m * c) * (t_up - lo))%Q)
    by (apply Qmult_le_0_compat; lra).
  assert (L3 : (0 <= dt * (h * loss_area) * (soil - lo))%Q)
    by (apply Qmult_le_0_compat; lra).
  assert (U1 : (0 <= (D - dt * (m * c) - dt * (h * loss_area)) * (hi - t))%Q)
    by (apply Qmult_le_0_compat; lra).
  assert (U2 : (0 <= dt * (m * c) * (hi - t_up))%Q)
    by (apply Qmult_le_0_compat; lra).
  assert (U3 : (0 <= dt * (h * loss_area) * (hi - soil))%Q)
    by (apply Qmult_le_0_compat; lra).
  assert (Hlo : (lo * D <= t' * D)%Q) by (rewrite Hv; lra).
  assert (Hhi : (t' * D <= hi * D)%Q) by (rewrite Hv; lra).
  split.
  - apply (Qmult_le_r _ _ D HD). exact Hlo.
  - apply (Qmult_le_r _ _ D HD). exact Hhi.
Qed.

(** Every place that advances a pipe ([advance_line] with either heat-loss
    factor) keeps the number of segments, and under the stability condition
    of the explicit step it obeys the maximum principle: when the inlet
    temperature, the segment temperatures and the soil temperature lie
    between two bounds, so do the new segment temperatures. *)
Theorem advance_line_maximum_principle
    (inp : therm_input) (loss_area : Q) (x_line : nat) (inlet : Q) (ts : list Q)
    (lo hi : Q) :
  stable_step inp loss_area x_line ->
  within lo hi inlet -> Forall (within lo hi) ts -> within lo hi (temp_soil inp) ->
  exists ts',
    advance_line inp loss_area x_line (Some inlet) (map Some ts) = map Some ts' /\
    length ts' = length ts /\ Forall (within lo hi) ts'.
Proof.
  intros Hst Hin Hts Hsoil. unfold advance_line.
  revert inlet Hin. induction Hts as [|t ts Ht Hts IH]; intros inlet Hin.
  - exists []. split; [reflexivity|]. split; [reflexivity | constructor].
  - destruct (segment_update_within inp loss_area x_line inlet t lo hi Hst Hin Ht Hsoil)
      as (t' & E & Ht').
    destruct (IH t Ht) as (ts' & Ets & Hlen & Hall).
    exists (t' :: ts'). cbn [map zip_with]. rewrite E.
    split; [f_equal; exact Ets|]. split; [simpl; now rewrite Hlen|].
    constructor; assumption.
Qed.

Lemma advance_line_maximum_principle_witness :
  exists ts',
    advance_line Tree_input (loss_dx Tree_input 0) 0 (Some 80%Q) (map Some [10; 10]%Q)
      = map Some ts' /\
    Forall (within 10 80) ts'.
Proof.
  destruct (advance_line_maximum_principle Tree_input (loss_dx Tree_input 0) 0
              80 [10; 10]%Q 10 80) as (ts' & E & _ & Hall).
  - unfold stable_step. vm_compute. split_and!; try reflexivity; discriminate.
  - split; vm_compute; discriminate.
  - repeat constructor; vm_compute; discriminate.
  - split; vm_compute; discriminate.
  - exists ts'. split; assumption.
Defined.

(** The heat-loss term differs between the places that advance a pipe.  In
    the forerun the first loop multiplies the loss by [pi*dia*dx] and the
    propagation loop by [dx] alone; in the return it is the other way
    round.  For the same inlet and segment temperatures the two steps of a
    segment differ by [delta_t*htc*(T - T_soil)*dx*(pi*dia - 1)] over the
    segment's capacity, so they agree only when that product is zero. *)
Theorem heat_loss_factor_by_call_site
    (inp : therm_input) (st : therm_state)
    (x_node x_line : nat) (T_feed : Q) (T : fl) (t_up t : Q) :
  (0 < segment_capacity inp x_line)%Q ->
  entry (coupling inp) x_node x_line = 1 ->
  flag (line_calc_now st) x_line = true ->
  first_start inp x_line = Some x_node ->
  t_line (forerun_seed_line inp x_node T_feed st x_line) !! x_line =
    (fun _ => advance_line inp (loss_pi_dia_dx inp x_line) x_line (Some T_feed)
                (t_line st !!! x_line)) <$> (t_line st !! x_line) /\
  (exists st', forerun_solve_line inp (Ok st) x_line = Ok st' /\
     t_line st' !! x_line =
     (fun _ => advance_line inp (loss_dx inp x_line) x_line
                 (mjoin (t_trans st !! x_node)) (t_line st !!! x_line))
       <$> (t_line st !! x_line)) /\
  t_line (return_seed_line inp x_node T st x_line) !! x_line =
    (fun _ => advance_line inp (loss_dx inp x_line) x_line T (t_line st !!! x_line))
      <$> (t_line st !! x_line) /\
  (exists st', return_solve_line inp (Ok st) x_line = Ok st' /\
     t_line st' !! x_line =
     (fun _ => advance_line inp (loss_pi_dia_dx inp x_line) x_line
                 (mjoin (t_trans st !! x_node)) (t_line st !!! x_line))
       <$> (t_line st !! x_line)) /\
  exists t_area t_dx,
    segment_update inp (loss_pi_dia_dx inp x_line) x_line (Some t_up) (Some t)
      = Some t_area /\
    segment_update inp (loss_dx inp x_line) x_line (Some t_up) (Some t) = Some t_dx /\
    ((t_dx - t_area) * segment_capacity inp x_line ==
     delta_time_therm inp * (line_htc inp !!! x_line) * (t - temp_soil inp)
     * (line_dx inp !!! x_line) * (math_pi * (line_dia inp !!! x_line) - 1))%Q /\
    ((t_area == t_dx)%Q <->
     (delta_time_therm inp * (line_htc inp !!! x_line) * (t - temp_soil inp)
      * (line_dx inp !!! x_line) * (math_pi * (line_dia inp !!! x_line) - 1) == 0)%Q).
Proof.
  intros HD Hentry Hflag Hstart.
  assert (Hlk : forall (v : list fl),
            <[x_line := v]> (t_line st) !! x_line = (fun _ => v) <$> (t_line st !! x_line)).
  { intros v. rewrite list_lookup_insert.
    destruct (t_line st !! x_line) as [old|] eqn:E.
    - apply lookup_lt_Some in E.
      destruct (decide (x_line = x_line /\ (x_line < length (t_line st))%nat))
        as [_|Hn]; [reflexivity | exfalso; apply Hn; split; [reflexivity | exact E]].
    - apply lookup_ge_None in E.
      destruct (decide (x_line = x_line /\ (x_line < length (t_line st))%nat))
        as [[_ H]|_]; [lia | reflexivity]. }
  split_and!.
  - unfold forerun_seed_line. rewrite Hentry. cbn [Z.eqb Pos.eqb].
    simpl_state. apply Hlk.
  - unfold forerun_solve_line. cbn [mbind result_bind]. rewrite Hflag, Hstart.
    eexists. split; [reflexivity|]. simpl_state. apply Hlk.
  - unfold return_seed_line. rewrite Hentry. cbn [Z.eqb Pos.eqb].
    simpl_state. apply Hlk.
  - unfold return_solve_line. cbn [mbind result_bind]. rewrite Hflag, Hstart.
    eexists. split; [reflexivity|]. simpl_state. apply Hlk.
  - destruct (segment_update_value inp (loss_pi_dia_dx inp x_line) x_line t_up t HD)
      as (ta & Ea & Ha).
    destruct (segment_update_value inp (loss_dx inp x_line) x_line t_up t HD)
      as (td & Ed & Hd).
    exists ta, td. split; [exact Ea|]. split; [exact Ed|].
    unfold loss_pi_dia_dx, loss_dx in *.
    set (D := segment_capacity inp x_line) in *.
    assert (Hdiff : ((td - ta) * D ==
              delta_time_therm inp * (line_htc inp !!! x_line) * (t - temp_soil inp)
              * (line_dx inp !!! x_line) * (math_pi * (line_dia inp !!! x_line) - 1))%Q).
    { assert (E : ((td - ta) * D == td * D - ta * D)%Q) by ring.
      rewrite E, Ha, Hd. ring. }
    split; [exact Hdiff|]. rewrite <- Hdiff. split.
    + intros ->. ring.
    + intros H0. apply Qmult_integral in H0 as [H0|H0]; [lra | lra].
Qed.

Lemma heat_loss_factor_by_call_site_witness :
  exists t_area t_dx,
    segment_update Tree_input (loss_pi_dia_dx Tree_input 0) 0 (Some 80%Q) (Some 40%Q)
      = Some t_area /\
    segment_update Tree_input (loss_dx Tree_input 0) 0 (Some 80%Q) (Some 40%Q)
      = Some t_dx /\
    ~ (t_area == t_dx)%Q.
Proof.
  destruct (heat_loss_factor_by_call_site Tree_input
              (set_line_calc_now [true; false; false; false]
                 (initial_state Tree_input Tree_lines))
              0 0 80 (Some 80%Q) 80 40)
    as (_ & _ & _ & _ & ta & td & Ea & Ed & _ & Hiff); try reflexivity.
  exists ta, td. split; [exact Ea|]. split; [exact Ed|].
  intros Heq. apply Hiff in Heq. vm_compute in Heq. discriminate.
Defined.

(** ** Mixing at a node *)

Lemma weighted_sum_bounds (inp : therm_input) (T : nat -> Q) (lo hi : Q) (ls : list nat) :
  (forall l, l ∈ ls -> within lo hi (T l) /\ (0 <= m_int_trans inp !!! l)%Q) ->
  (0 <= flow_sum inp ls)%Q /\
  (lo * flow_sum inp ls <= heat_sum inp T ls)%Q /\
  (heat_sum inp T ls <= hi * flow_sum inp ls)%Q.
Proof.
  induction ls as [|l ls IH]; intros H.
  - simpl. split_and!; lra.
  - destruct IH as (I0 & I1 & I2); [intros k Hk; apply H; now right|].
    destruct (H l) as [[Hlo Hhi] Hm]; [left|].
    cbn [flow_sum heat_sum foldr].
    fold (flow_sum inp ls). fold (heat_sum inp T ls).
    assert (P1 : (0 <= (T l - lo) * m_int_trans inp !!! l)%Q)
      by (apply Qmult_le_0_compat; lra).
    assert (P2 : (0 <= (hi - T l) * m_int_trans inp !!! l)%Q)
      by (apply Qmult_le_0_compat; lra).
    split_and!; lra.
Qed.

(** In the forerun, a node that does not inject gets a temperature between
    the lowest and the highest outlet temperature of the pipes that flow
    into it: the outlet temperature itself when there is one such pipe,
    whatever its flow, and the flow-weighted mean when there are several
    and their flows, none negative, are not all zero. *)
Theorem forerun_mixed_temperature_within_bounds
    (inp : therm_input) (st : therm_state) (x : nat) (T : nat -> Q) (lo hi : Q) :
  (m_ext_trans inp !!! x <= 0)%Q ->
  (forall l, l ∈ incoming inp x ->
     outlet st l = Some (T l) /\ within lo hi (T l) /\ (0 <= m_int_trans inp !!! l)%Q) ->
  length (incoming inp x) = 1%nat \/ (0 < flow_sum inp (incoming inp x))%Q ->
  exists t, forerun_node_balance inp st x = Ok (Some (Some t)) /\ within lo hi t /\
    (forall l, incoming inp x = [l] -> t = T l) /\
    (length (incoming inp x) <> 1%nat ->
     (t == heat_sum inp T (incoming inp x) / flow_sum inp (incoming inp x))%Q).
Proof.
  intros Hm Hin Hcase.
  assert (Hcount : count_row inp x (-1) = length (incoming inp x)) by reflexivity.
  destruct (decide (length (incoming inp x) = 1%nat)) as [H1|H1].
  - destruct (incoming inp x) as [|l [|l' ls]] eqn:E; try discriminate.
    destruct (Hin l) as (Hout & Hw & _); [left|].
    exists (T l). split; [|split; [exact Hw|split; [|intros; contradiction]]].
    + unfold forerun_node_balance.
      assert (Hbr : Qeq_bool (m_ext_trans inp !!! x) 0 ||
                    Qlt_bool (m_ext_trans inp !!! x) 0 = true).
      { destruct (Qeq_bool (m_ext_trans inp !!! x) 0) eqn:E0; [reflexivity|]. simpl.
        apply Qlt_bool_true. apply Qeq_bool_neq in E0. lra. }
      rewrite Hbr, Hcount. cbn [length Nat.eqb].
      unfold first_incoming. unfold incoming in E. rewrite E. cbn [head].
      now rewrite Hout.
    + intros l0 [= <-]. reflexivity.
  - destruct Hcase as [|Hflow]; [contradiction|].
    destruct (forerun_mixing_law inp st x T Hm) as (t & Et & Hv).
    + now rewrite Hcount.
    + intros l Hl. now apply Hin.
    + lra.
    + exists t. split; [exact Et|].
      destruct (weighted_sum_bounds inp T lo hi (incoming inp x)) as (_ & B1 & B2).
      { intros l Hl. destruct (Hin l Hl) as (_ & Hw & Hf). now split. }
      split; [|split; [|intros _; exact Hv]].
      * unfold within. rewrite Hv. split.
        -- apply Qle_shift_div_l; [exact Hflow | exact B1].
        -- apply Qle_shift_div_r; [exact Hflow | exact B2].
      * intros l El. rewrite El in H1. simpl in H1. lia.
Qed.

Lemma forerun_mixed_temperature_within_bounds_witness :
  exists t, forerun_node_balance Two_feeder_input Two_feeder_state 2
            = Ok (Some (Some t)) /\ within 40 40 t.
Proof.
  destruct (forerun_mixed_temperature_within_bounds Two_feeder_input Two_feeder_state 2
              (fun _ => 40%Q) 40 40) as (t & Et & Hw & _).
  - vm_compute. discriminate.
  - intros l Hl. vm_compute in Hl. apply list_elem_of_singleton in Hl. subst l.
    split; [reflexivity|]. split; [split|]; vm_compute; discriminate.
  - left. reflexivity.
  - exists t. split; assumption.
Defined.

(** ** Propagation that cannot finish *)

(** The node balances of a pass mark no node that "FIND NODES" has not
    selected, and touch nothing of the pipes. *)
Lemma solve_nodes_marks (inp : therm_input) (st st' : therm_state) (n : nat) :
  foldl (forerun_solve_node inp) (Ok st) (seq 0 n) = Ok st' ->
  line_calc st' = line_calc st /\ node_calc_now st' = node_calc_now st /\
  line_calc_now st' = line_calc_now st /\
  length (node_calc st') = length (node_calc st) /\
  forall y, flag (node_calc st') y = true ->
    flag (node_calc st) y = true \/ flag (node_calc_now st) y = true.
Proof.
  apply (foldl_result_ind
    (fun (k : nat) s =>
       line_calc s = line_calc st /\ node_calc_now s = node_calc_now st /\
       line_calc_now s = line_calc_now st /\
       length (node_calc s) = length (node_calc st) /\
       forall y, flag (node_calc s) y = true ->
         flag (node_calc st) y = true \/ flag (node_calc_now st) y = true)).
  - reflexivity.
  - split_and!; try reflexivity. intros y Hy. now left.
  - intros i s s' Hi (H1 & H2 & H3 & H4 & H5). unfold forerun_solve_node.
    cbn [mbind result_bind].
    destruct (flag (node_calc_now s) i) eqn:Enow; [|intros [= <-]; split_and!; assumption].
    destruct (forerun_node_balance inp s i) as [[t|]|msg]; cbn [mbind result_bind];
      [| intros [= <-]; split_and!; assumption | discriminate].
    intros [= <-]. simpl_state. split_and!; try assumption.
    + now rewrite length_insert.
    + intros y Hy. rewrite flag_insert in Hy.
      destruct (decide (i = y /\ (i < length (node_calc s))%nat)) as [[-> _]|_].
      * right. now rewrite <- H2.
      * now apply H5.
Qed.

Lemma solve_lines_marks (inp : therm_input) (st st' : therm_state) (n : nat) :
  foldl (forerun_solve_line inp) (Ok st) (seq 0 n) = Ok st' ->
  node_calc st' = node_calc st /\ node_calc_now st' = node_calc_now st /\
  line_calc_now st' = line_calc_now st /\
  length (line_calc st') = length (line_calc st) /\
  forall l, flag (line_calc st') l = true ->
    flag (line_calc st) l = true \/ flag (line_calc_now st) l = true.
Proof.
  apply (foldl_result_ind
    (fun (k : nat) s =>
       node_calc s = node_calc st /\ node_calc_now s = node_calc_now st /\
       line_calc_now s = line_calc_now st /\
       length (line_calc s) = length (line_calc st) /\
       forall l, flag (line_calc s) l = true ->
         flag (line_calc st) l = true \/ flag (line_calc_now st) l = true)).
  - reflexivity.
  - split_and!; try reflexivity. intros y Hy. now left.
  - intros i s s' Hi (H1 & H2 & H3 & H4 & H5). unfold forerun_solve_line.
    cbn [mbind result_bind].
    destruct (flag (line_calc_now s) i) eqn:Enow; [|intros [= <-]; split_and!; assumption].
    destruct (first_start inp i) as [x_ref|]; [|discriminate].
    intros [= <-]. simpl_state. split_and!; try assumption.
    + now rewrite length_insert.
    + intros l Hl. rewrite flag_insert in Hl.
      destruct (decide (i = l /\ (i < length (line_calc s))%nat)) as [[-> _]|_].
      * right. now rewrite <- H3.
      * now apply H5.
Qed.

Lemma all_done_flag (a : list bool) (i : nat) :
  all_done a = true -> (i < length a)%nat -> flag a i = true.
Proof.
  unfold all_done, flag. intros Hall Hi.
  destruct (lookup_lt_is_Some_2 a i Hi) as [b Hb]. rewrite Hb. simpl.
  rewrite forallb_forall in Hall. apply Hall.
  apply list_elem_of_In. eapply list_elem_of_lookup_2. exact Hb.
Qed.

Lemma incoming_row_pos (inp : therm_input) (y l : nat) :
  (l < line_count inp)%nat -> entry (coupling inp) y l = -1 ->
  count_row inp y (-1) <> 0%nat.
Proof.
  intros Hl He Hc. unfold count_row in Hc.
  assert (Hin : l ∈ filter (fun x_line => entry (coupling inp) y x_line = -1)
                          (seq 0 (line_count inp))).
  { apply list_elem_of_filter. split; [exact He|]. apply elem_of_seq. lia. }
  destruct (filter _ _); [inversion Hin | discriminate].
Qed.

Section Waiting.
Variable inp : therm_input.
Variables S L : nat -> Prop.
Hypothesis Hwait : waiting inp S L.

Lemma seed_node_blocked (st st' : therm_state) (x : nat) :
  (x < node_count inp)%nat -> blocked inp S L st ->
  forerun_seed_node inp (Ok st) x = Ok st' -> blocked inp S L st'.
Proof.
  intros Hx (Hlen & HbS & HbL & Hn & Hl). unfold forerun_seed_node.
  cbn [mbind result_bind].
  destruct (Qle_bool 0 (m_ext_trans inp !!! x) && (count_row inp x (-1) =? 0)%nat) eqn:Ec;
    [|intros [= <-]; split_and!; assumption].
  apply andb_true_iff in Ec as [_ Ec]. apply Nat.eqb_eq in Ec.
  assert (HnS : ~ S x).
  { intros Hs. destruct (proj1 Hwait x Hs) as (_ & l & Hll & _ & He).
    exact (incoming_row_pos inp x l Hll He Ec). }
  destruct (mjoin (temp_flow_feed inp !! x)) as [T|]; [|discriminate].
  intros [= <-].
  destruct (seed_lines_spec inp x T (assign_node x (Some T) st) (line_count inp))
    as (H1 & H2 & H3 & H4 & H5 & H6 & _).
  simpl_state. split_and!.
  - now rewrite H3.
  - intros y Hy. rewrite H5. destruct (decide _) as [[-> _]|_]; [contradiction|].
    now apply HbS.
  - intros l Hll. rewrite H6. destruct (decide _) as [(_ & _ & He)|_].
    + exfalso. apply HnS. exact (proj2 Hwait l x Hll Hx He).
    + now apply HbL.
  - intros y. now rewrite H1.
  - intros l. now rewrite H2.
Qed.

Lemma seed_nodes_blocked (st st' : therm_state) (n : nat) :
  (n <= node_count inp)%nat -> blocked inp S L st ->
  foldl (forerun_seed_node inp) (Ok st) (seq 0 n) = Ok st' -> blocked inp S L st'.
Proof.
  intros Hn Hb.
  apply (foldl_result_ind (fun (k : nat) s => blocked inp S L s)).
  - reflexivity.
  - exact Hb.
  - intros i s s' Hi Hs. apply seed_node_blocked; [lia | exact Hs].
Qed.

Lemma waiting_node_not_ready (st : therm_state) (y : nat) :
  blocked inp S L st -> S y -> node_ready inp st y = false.
Proof.
  intros (_ & _ & HbL & _) Hy.
  destruct (proj1 Hwait y Hy) as (_ & l & Hll & HL & He).
  unfold node_ready. apply andb_false_iff. right. apply andb_false_iff. left.
  apply Nat.eqb_neq. unfold incoming_with. intros Hc.
  assert (Hin : l ∈ filter (fun x_line => entry (coupling inp) y x_line = -1 /\
                                          flag (line_calc st) x_line = false)
                          (seq 0 (line_count inp))).
  { apply list_elem_of_filter. split; [split; [exact He | now apply HbL]|].
    apply elem_of_seq. lia. }
  destruct (filter _ _); [inversion Hin | discriminate].
Qed.

Lemma waiting_line_not_ready (st : therm_state) (l : nat) :
  (forall y, S y -> flag (node_calc st) y = false) -> L l -> line_ready inp st l = false.
Proof.
  intros HbS Hl. unfold line_ready. apply andb_false_iff. right.
  apply bool_decide_eq_false. rewrite Exists_exists.
  intros (z & Hz & He & Hf). apply elem_of_seq in Hz.
  rewrite (HbS z) in Hf; [discriminate|].
  apply (proj2 Hwait l z Hl); [lia | exact He].
Qed.

Lemma iteration_blocked (st st' : therm_state) :
  blocked inp S L st -> forerun_iteration inp st = Ok st' -> blocked inp S L st'.
Proof.
  intros Hb. pose proof Hb as (Hlen & HbS & HbL & Hn & Hl).
  unfold forerun_iteration. cbv zeta.
  destruct (find_nodes_spec inp st (node_count inp))
    as (A1 & A2 & A3 & _ & _ & _ & A7 & A8).
  set (stA := foldl (find_node inp) st (seq 0 (node_count inp))) in *.
  destruct (foldl (forerun_solve_node inp) (Ok stA) (seq 0 (node_count inp)))
    as [stB|msg] eqn:EB; [|discriminate].
  cbn [mbind result_bind].
  destruct (solve_nodes_marks inp stA stB _ EB) as (B1 & B2 & B3 & B4 & B5).
  set (stC := set_node_calc_now (zeros_flags (node_count inp)) stB).
  destruct (find_lines_spec inp stC (line_count inp))
    as (C1 & C2 & C3 & _ & _ & _ & C7 & C8).
  set (stD := foldl (find_line inp) stC (seq 0 (line_count inp))) in *.
  destruct (foldl (forerun_solve_line inp) (Ok stD) (seq 0 (line_count inp)))
    as [stE|msg] eqn:EE; [|discriminate].
  cbn [mbind result_bind]. intros [= <-].
  destruct (solve_lines_marks inp stD stE _ EE) as (D1 & D2 & D3 & D4 & D5).
  assert (HSB : forall y, S y -> flag (node_calc stB) y = false).
  { intros y Hy. destruct (flag (node_calc stB) y) eqn:E; [|reflexivity].
    destruct (B5 y E) as [E'|E'].
    - rewrite A1, (HbS y Hy) in E'. discriminate.
    - rewrite A8, (waiting_node_not_ready st y Hb Hy), Hn in E'.
      destruct (decide _) as [(_ & _ & Hd)|_]; discriminate. }
  subst stC. unfold blocked. simpl_state. split_and!.
  - rewrite D1, C1. simpl_state. now rewrite B4, A1.
  - intros y Hy. rewrite D1, C1. simpl_state. now apply HSB.
  - intros l Hll. destruct (flag (line_calc stE) l) eqn:E; [|reflexivity].
    destruct (D5 l E) as [E'|E'].
    + rewrite C2 in E'. simpl_state. rewrite B1, A2, (HbL l Hll) in E'. discriminate.
    + rewrite C8 in E'. simpl_state.
      rewrite (waiting_line_not_ready (set_node_calc_now (zeros_flags (node_count inp)) stB) l HSB Hll) in E'.
      rewrite B3, A3, Hl in E'. destruct (decide _) as [(_ & _ & Hd)|_]; discriminate.
  - intros y. rewrite D2, C3. simpl_state. apply flag_zeros.
  - intros l. apply flag_zeros.
Qed.

Lemma loop_blocked (fuel : nat) (st r : therm_state) (y : nat) :
  S y -> blocked inp S L st -> forerun_loop fuel inp st <> Returned r.
Proof.
  intros Hy. revert st. induction fuel as [|fuel IH]; intros st Hb; [discriminate|].
  cbn [forerun_loop].
  destruct (forerun_iteration inp st) as [st'|msg] eqn:E; [|discriminate].
  pose proof (iteration_blocked st st' Hb E) as Hb'.
  destruct (all_done (line_calc st') && all_done (node_calc st')) eqn:Ed.
  - exfalso. apply andb_true_iff in Ed as [_ Ed].
    destruct Hb' as (Hlen & HbS & _).
    pose proof (all_done_flag _ y Ed) as Hf.
    rewrite (HbS y Hy) in Hf. 
    assert (y < length (node_calc st'))%nat by (rewrite Hlen; apply (proj1 Hwait y Hy)).
    specialize (Hf H). discriminate.
  - now apply IH.
Qed.

End Waiting.

Lemma tc_last_step {A : Type} (R : relation A) (x y : A) :
  tc R x y -> exists z, (z = x \/ tc R x z) /\ R z y.
Proof.
  induction 1 as [x y HR | x x' y HR Htc (z & Hz & HRz)].
  - exists x. split; [now left | exact HR].
  - exists z. split; [|exact HRz]. right.
    destruct Hz as [-> | Hz]; [now apply tc_once | now apply (tc_l _ x x' z)].
Qed.

Lemma initial_state_blocked (inp : therm_input) (S L : nat -> Prop) (t0 : list (list fl)) :
  blocked inp S L (initial_state inp t0).
Proof.
  unfold blocked, initial_state. simpl_state. split_and!.
  - apply length_replicate.
  - intros y _. apply flag_zeros.
  - intros l _. apply flag_zeros.
  - intros y. apply flag_zeros.
  - intros l. apply flag_zeros.
Qed.

(** Nodes on a directed cycle of the coupling matrix, and everything
    downstream of them, wait for each other. *)
Lemma cycle_waiting (inp : therm_input) (x : nat) :
  (forall l, (l < line_count inp)%nat ->
     column_ok (node_count inp) (coupling inp) l) ->
  tc (edge inp) x x ->
  waiting inp (fun y => tc (edge inp) x y)
    (fun l => (l < line_count inp)%nat /\
              exists z, tc (edge inp) x z /\ entry (coupling inp) z l = 1).
Proof.
  intros Hcol Hcyc. split.
  - intros y Hy. destruct (tc_last_step _ x y Hy) as (z & Hz & Hzy & Hyn & l & Hl & E1 & E2).
    split; [exact Hyn|]. exists l. split; [exact Hl|]. split; [|exact E2].
    split; [exact Hl|]. exists z. split; [|exact E1].
    destruct Hz as [-> | Hz]; assumption.
  - intros l z (Hl & z' & Hz' & E') Hz E.
    assert (Hz'n : (z' < node_count inp)%nat).
    { destruct (tc_last_step _ x z' Hz') as (w & _ & _ & Hn & _). exact Hn. }
    rewrite (column_ok_unique (node_count inp) (coupling inp) l z z' 1); auto.
Qed.

(** A directed cycle among the pipes, as the corrected matrix orients them,
    keeps the forerun propagation of a thermal substep from ever finishing:
    whatever the number of passes, the [while calc_therm == 1] loop has not
    returned (it raises or is still running). *)
Theorem forerun_substep_never_returns_on_cycle (inp : therm_input) (x : nat)
    (t0 : list (list fl)) (fuel : nat) :
  (forall l, (l < line_count inp)%nat ->
     column_ok (node_count inp) (coupling inp) l) ->
  tc (edge inp) x x ->
  ~ exists st, forerun_substep fuel inp t0 = Returned st.
Proof.
  intros Hcol Hcyc [st Hst]. unfold forerun_substep in Hst.
  pose proof (cycle_waiting inp x Hcol Hcyc) as Hw.
  destruct (foldl (forerun_seed_node inp) (Ok (initial_state inp t0))
              (seq 0 (node_count inp))) as [st0|msg] eqn:E; [|discriminate].
  eapply (loop_blocked inp _ _ Hw fuel st0 st x Hcyc); [|exact Hst].
  eapply seed_nodes_blocked; [exact Hw | | apply initial_state_blocked | exact E]. lia.
Qed.

Lemma forerun_substep_never_returns_on_cycle_witness :
  ~ exists st, forerun_substep 50 Ring_input [[Some 20]; [Some 20]; [Some 20]]%Q = Returned st.
Proof.
  apply (forerun_substep_never_returns_on_cycle Ring_input 1).
  - intros l Hl. destruct l as [|[|[|l]]]; [| | |simpl in Hl; lia].
    all: split; [vm_compute; reflexivity|]; split; [vm_compute; reflexivity|].
    all: intros y Hy; destruct y as [|[|[|y]]]; [| | |simpl in Hy; lia].
    all: vm_compute; auto.
  - apply (tc_l _ 1%nat 2%nat 1%nat); [|apply tc_once].
    + split; [simpl; lia|]. split; [simpl; lia|]. exists 1%nat.
      split; [simpl; lia|]. split; reflexivity.
    + split; [simpl; lia|]. split; [simpl; lia|]. exists 2%nat.
      split; [simpl; lia|]. split; reflexivity.
Defined.

Example Ring_input_keeps_running :
  forerun_substep 50 Ring_input [[Some 20]; [Some 20]; [Some 20]]%Q = Running.
Proof. vm_compute. reflexivity. Qed.

(** ** Seasons *)

Lemma ts_le_spec (a b : time_stamp) :
  ts_le a b = true <->
  ts_year a < ts_year b \/
  ts_year a = ts_year b /\
  (ts_month a < ts_month b \/
   ts_month a = ts_month b /\
   (ts_day a < ts_day b \/ ts_day a = ts_day b /\ ts_nanos a <= ts_nanos b)).
Proof.
  unfold ts_le.
  destruct (Z.ltb_spec (ts_year a) (ts_year b)), (Z.eqb_spec (ts_year a) (ts_year b)),
    (Z.ltb_spec (ts_month a) (ts_month b)), (Z.eqb_spec (ts_month a) (ts_month b)),
    (Z.ltb_spec (ts_day a) (ts_day b)), (Z.eqb_spec (ts_day a) (ts_day b)),
    (Z.leb_spec (ts_nanos a) (ts_nanos b)); cbn [orb andb];
    split; try discriminate; try reflexivity; try lia.
Qed.

(** [get_season] never answers 1 (winter): the winter interval runs from
    1 November to 20 March of the same year and is empty.  It answers 0
    from 15 May 00:00 up to and including 14 September 00:00, and 2 at every
    other time, the rest of 14 September included. *)
Theorem get_season_never_winter (ts : time_stamp) :
  0 <= ts_nanos ts ->
  get_season ts <> 1 /\
  (get_season ts = 0 <->
     (ts_month ts = 5 /\ 15 <= ts_day ts) \/
     (5 < ts_month ts < 9) \/
     (ts_month ts = 9 /\ (ts_day ts < 14 \/ ts_day ts = 14 /\ ts_nanos ts = 0))) /\
  (get_season ts <> 0 -> get_season ts = 2).
Proof.
  intros Hn. unfold get_season. cbv zeta.
  destruct (ts_le (Timestamp (ts_year ts) 5 15) ts) eqn:E1;
  destruct (ts_le ts (Timestamp (ts_year ts) 9 14)) eqn:E2;
  destruct (ts_le (Timestamp (ts_year ts) 11 1) ts) eqn:E3;
  destruct (ts_le ts (Timestamp (ts_year ts) 3 20)) eqn:E4;
  cbn [andb];
  try (apply ts_le_spec in E1; cbn [Timestamp ts_year ts_month ts_day ts_nanos] in E1);
  try (apply ts_le_spec in E2; cbn [Timestamp ts_year ts_month ts_day ts_nanos] in E2);
  try (apply ts_le_spec in E3; cbn [Timestamp ts_year ts_month ts_day ts_nanos] in E3);
  try (apply ts_le_spec in E4; cbn [Timestamp ts_year ts_month ts_day ts_nanos] in E4);
  try (apply not_true_iff_false in E1; rewrite ts_le_spec in E1;
       cbn [Timestamp ts_year ts_month ts_day ts_nanos] in E1);
  try (apply not_true_iff_false in E2; rewrite ts_le_spec in E2;
       cbn [Timestamp ts_year ts_month ts_day ts_nanos] in E2);
  try (apply not_true_iff_false in E3; rewrite ts_le_spec in E3;
       cbn [Timestamp ts_year ts_month ts_day ts_nanos] in E3);
  try (apply not_true_iff_false in E4; rewrite ts_le_spec in E4;
       cbn [Timestamp ts_year ts_month ts_day ts_nanos] in E4);
  (split; [lia|split; [split; [intros H|intros H; try reflexivity]; lia | intros; try lia; try reflexivity]]).
Qed.

Lemma get_season_never_winter_witness :
  get_season {| ts_year := 2023; ts_month := 12; ts_day := 24; ts_nanos := 0 |} = 2 /\
  get_season {| ts_year := 2023; ts_month := 9; ts_day := 14; ts_nanos := 1 |} = 2.
Proof.
  split.
  - apply (get_season_never_winter
             {| ts_year := 2023; ts_month := 12; ts_day := 24; ts_nanos := 0 |});
      [simpl; lia | vm_compute; discriminate].
  - apply (get_season_never_winter
             {| ts_year := 2023; ts_month := 9; ts_day := 14; ts_nanos := 1 |});
      [simpl; lia | vm_compute; discriminate].
Defined.

(** ** Discretisation of the pipes *)

Lemma linspace_length (a b : Q) (n : nat) : length (linspace a b n) = n.
Proof.
  destruct n as [|[|n]]; [reflexivity..|].
  unfold linspace. rewrite length_app, length_map, length_seq. simpl. lia.
Qed.

Lemma linspace_midpoints (l dx : Q) (n : nat) (i : nat) :
  (inject_Z (Z.of_nat n) * dx == l)%Q -> (i < n)%nat ->
  exists xi, linspace (dx / 2) (l - dx / 2) n !! i = Some xi /\
             (xi == (inject_Z (Z.of_nat i) + (1 # 2)) * dx)%Q.
Proof.
  intros Hl Hi. destruct n as [|[|n]]; [lia| |].
  - assert (i = 0)%nat as -> by lia. exists (dx / 2)%Q. split; [reflexivity|].
    change (inject_Z (Z.of_nat 0)) with 0%Q. field.
  - unfold linspace. set (div := S n) in *.
    assert (Hdiv : (inject_Z (Z.of_nat (S div)) == inject_Z (Z.of_nat div) + 1)%Q).
    { rewrite Nat2Z.inj_succ. unfold Z.succ. rewrite inject_Z_plus. reflexivity. }
    assert (Hpos : (0 < inject_Z (Z.of_nat div))%Q).
    { change 0%Q with (inject_Z 0). rewrite <- Zlt_Qlt. subst div. lia. }
    rewrite Hdiv in Hl.
    destruct (decide (i < div)%nat) as [Hlt|Hge].
    + rewrite lookup_app_l by (rewrite length_map, length_seq; exact Hlt).
      rewrite list_lookup_fmap, lookup_seq_lt by exact Hlt. simpl.
      eexists. split; [reflexivity|].
      assert (E : (l - dx / 2 - dx / 2 == inject_Z (Z.of_nat div) * dx)%Q).
      { rewrite <- Hl. field. }
      rewrite E. field. lra.
    + assert (i = div) as -> by lia.
      rewrite lookup_app_r by (rewrite length_map, length_seq; lia).
      rewrite length_map, length_seq, Nat.sub_diag. simpl.
      eexists. split; [reflexivity|]. rewrite <- Hl. field.
Qed.

(** A pipe of positive length is cut into [ceil(l * n_m)] segments, at least
    one: the segments have the same length [dx], together they make up the
    pipe, none is longer than [1 / n_m], and [line.x] holds their
    midpoints. *)
Theorem discretise_tiles_pipe (l n_m : Q) :
  (0 < l)%Q -> (0 < n_m)%Q ->
  exists (n : nat) (dx : Q) (x : list Q),
    discretise l n_m = Ok (Z.of_nat n, Some dx, x) /\
    (1 <= n)%nat /\
    (inject_Z (Z.of_nat n) * dx == l)%Q /\
    (0 < dx)%Q /\ (dx * n_m <= 1)%Q /\
    length x = n /\
    forall i, (i < n)%nat ->
      exists xi, x !! i = Some xi /\ (xi == (inject_Z (Z.of_nat i) + (1 # 2)) * dx)%Q.
Proof.
  intros Hl Hn.
  assert (Hprod : (0 < l * n_m)%Q) by nra.
  pose proof (Qle_ceiling (l * n_m)) as Hceil.
  set (c := Qceiling (l * n_m)) in *.
  assert (Hc : (0 < inject_Z c)%Q) by lra.
  assert (Hcz : 0 < c).
  { rewrite Zlt_Qlt. exact Hc. }
  assert (Hnd : Qeq_bool (inject_Z c) 0 = false).
  { apply not_true_iff_false. intros H. apply Qeq_bool_eq in H. lra. }
  exists (Z.to_nat c), (l / inject_Z c)%Q,
    (linspace (l / inject_Z c / 2) (l - l / inject_Z c / 2) (Z.to_nat c)).
  assert (Hback : Z.of_nat (Z.to_nat c) = c) by lia.
  assert (Hmul : (inject_Z (Z.of_nat (Z.to_nat c)) * (l / inject_Z c) == l)%Q).
  { rewrite Hback. field. lra. }
  split_and!.
  - unfold discretise. cbv zeta. fold c. unfold np_div. rewrite Hnd.
    destruct (Z.ltb_spec c 0) as [?|_]; [lia|]. rewrite Hback. reflexivity.
  - lia.
  - exact Hmul.
  - apply Qlt_shift_div_l; lra.
  - assert (E : (l / inject_Z c * n_m == l * n_m / inject_Z c)%Q) by (field; lra).
    rewrite E. apply Qle_shift_div_r; lra.
  - apply linspace_length.
  - intros i Hi. apply linspace_midpoints; assumption.
Qed.

Lemma discretise_tiles_pipe_witness :
  exists (n : nat) (dx : Q) (x : list Q),
    discretise (5 # 2) 2 = Ok (Z.of_nat n, Some dx, x) /\
    (1 <= n)%nat /\
    (inject_Z (Z.of_nat n) * dx == (5 # 2))%Q /\
    (0 < dx)%Q /\ (dx * 2 <= 1)%Q /\
    length x = n /\
    forall i, (i < n)%nat ->
      exists xi, x !! i = Some xi /\ (xi == (inject_Z (Z.of_nat i) + (1 # 2)) * dx)%Q.
Proof.
  apply (discretise_tiles_pipe (5 # 2) 2); reflexivity.
Defined.

Example discretise_examples :
  discretise (5 # 2) 2 = Ok (5, Some ((5 # 2) / 5)%Q, linspace ((5 # 2) / 5 / 2) ((5 # 2) - (5 # 2) / 5 / 2) 5) /\
  discretise 0 2 = Ok (0, None, []) /\
  discretise (-3) 2 = Raised "ValueError: Number of samples must be non-negative".
Proof. split_and!; reflexivity. Qed.

(** ** Gap filling *)

Lemma foldl_result_total {A : Type} (P : nat -> A -> Prop) (f : result A -> nat -> result A)
    (a : A) (n : nat) :
  P 0%nat a ->
  (forall i s, (i < n)%nat -> P i s -> exists s', f (Ok s) i = Ok s' /\ P (S i) s') ->
  exists r, foldl f (Ok a) (seq 0 n) = Ok r /\ P n r.
Proof.
  intros H0 Hstep. induction n as [|n IH].
  - exists a. split; [reflexivity | exact H0].
  - destruct IH as (s & Es & Ps).
    { intros i s Hi. apply Hstep. lia. }
    destruct (Hstep n s (Nat.lt_succ_diag_r n) Ps) as (s' & Es' & Ps').
    exists s'. split; [|exact Ps'].
    rewrite seq_S, foldl_app. simpl. rewrite Es. exact Es'.
Qed.

Lemma at_index_Some {A : Type} (a : list A) (i : nat) (v : A) :
  a !! i = Some v -> at_index a i = Ok v.
Proof. unfold at_index. now intros ->. Qed.

Lemma at_index_lt {A : Type} (a : list A) (i : nat) :
  (i < length a)%nat -> exists v, a !! i = Some v /\ at_index a i = Ok v.
Proof.
  intros Hi. destruct (lookup_lt_is_Some_2 a i Hi) as [v Hv].
  exists v. split; [exact Hv | now apply at_index_Some].
Qed.

Lemma set_value_Some (table : list (option (list fl))) (x i : nat) (arr : list fl) (v : fl) :
  table !! x = Some (Some arr) -> (i < length arr)%nat ->
  set_value table x i v = Ok (<[x := Some (<[i := v]> arr)]> table).
Proof.
  intros Hx Hi. unfold set_value. rewrite (at_index_Some _ _ _ Hx).
  cbn [mbind result_bind]. destruct (decide (i < length arr)%nat); [reflexivity | lia].
Qed.

Lemma written_step (cntr : nat) (w : nat -> option fl) (i : nat)
    (before table : list (option (list fl))) (arr : list fl) (v : fl) :
  (forall x, table !! x = written cntr w i before x) ->
  before !! i = Some (Some arr) -> w i = Some v ->
  forall x, <[i := Some (<[cntr := v]> arr)]> table !! x = written cntr w (S i) before x.
Proof.
  intros Hinv Hb Hw x. unfold written.
  destruct (decide (x = i)) as [->|Hne].
  - destruct (decide (i < S i)%nat); [|lia]. rewrite Hw, Hb. simpl.
    apply list_lookup_insert_eq.
    assert (Hl : is_Some (table !! i)).
    { rewrite Hinv. unfold written. destruct (decide (i < i)%nat); [lia|]. now rewrite Hb. }
    now apply lookup_lt_is_Some_1.
  - rewrite list_lookup_insert_ne by congruence. rewrite Hinv. unfold written.
    destruct (decide (x < i)%nat), (decide (x < S i)%nat); try lia; reflexivity.
Qed.

Lemma written_skip (cntr : nat) (w : nat -> option fl) (i : nat)
    (before table : list (option (list fl))) :
  (forall x, table !! x = written cntr w i before x) -> w i = None ->
  forall x, table !! x = written cntr w (S i) before x.
Proof.
  intros Hinv Hw x. rewrite Hinv. unfold written.
  destruct (decide (x = i)) as [->|Hne].
  - destruct (decide (i < i)%nat), (decide (i < S i)%nat); try lia. now rewrite Hw.
  - destruct (decide (x < i)%nat), (decide (x < S i)%nat); try lia; reflexivity.
Qed.

Lemma written_current (cntr : nat) (w : nat -> option fl) (i : nat)
    (before table : list (option (list fl))) :
  (forall x, table !! x = written cntr w i before x) -> table !! i = before !! i.
Proof.
  intros Hinv. rewrite Hinv. unfold written.
  destruct (decide (i < i)%nat); [lia | reflexivity].
Qed.

(** A loop over the nodes whose body writes [wv x], [wq x] to the entries
    of the step, or nothing. *)
Lemma write_loop_spec (body : result sim_data -> nat -> result sim_data)
    (wv wq : nat -> option fl) (sim1 : sim_data) (n cntr : nat) :
  (forall sim x, (x < n)%nat ->
     sim_V_dot sim !! x = sim_V_dot sim1 !! x ->
     sim_Q_dot sim !! x = sim_Q_dot sim1 !! x ->
     (exists v q, wv x = Some v /\ wq x = Some q /\
        body (Ok sim) x = write_sim x cntr v q sim /\
        exists a b, sim_V_dot sim1 !! x = Some (Some a) /\ (cntr < length a)%nat /\
                    sim_Q_dot sim1 !! x = Some (Some b) /\ (cntr < length b)%nat) \/
     (wv x = None /\ wq x = None /\ body (Ok sim) x = Ok sim)) ->
  exists sim', foldl body (Ok sim1) (seq 0 n) = Ok sim' /\
    (forall x, sim_V_dot sim' !! x = written cntr wv n (sim_V_dot sim1) x) /\
    (forall x, sim_Q_dot sim' !! x = written cntr wq n (sim_Q_dot sim1) x).
Proof.
  intros Hbody.
  apply (foldl_result_total
    (fun i sim =>
       (forall x, sim_V_dot sim !! x = written cntr wv i (sim_V_dot sim1) x) /\
       (forall x, sim_Q_dot sim !! x = written cntr wq i (sim_Q_dot sim1) x))).
  - split; intros x; unfold written; destruct (decide (x < 0)%nat); (lia || reflexivity).
  - intros i sim Hi [HV HQ].
    destruct (Hbody sim i Hi (written_current _ _ _ _ _ HV) (written_current _ _ _ _ _ HQ))
      as [(v & q & Ev & Eq & Eb & a & b & Ha & Hla & Hb & Hlb) | (Ev & Eq & Eb)].
    + rewrite Eb. unfold write_sim.
      assert (HVi : sim_V_dot sim !! i = Some (Some a)).
      { rewrite (written_current _ _ _ _ _ HV). exact Ha. }
      assert (HQi : sim_Q_dot sim !! i = Some (Some b)).
      { rewrite (written_current _ _ _ _ _ HQ). exact Hb. }
      rewrite (set_value_Some _ _ _ a v HVi Hla). cbn [mbind result_bind].
      rewrite (set_value_Some _ _ _ b q HQi Hlb). cbn [mbind result_bind].
      eexists. split; [reflexivity|]. simpl. split.
      * now apply written_step.
      * now apply written_step.
    + rewrite Eb. exists sim. split; [reflexivity|]. split; now apply written_skip.
Qed.

Lemma sim_at_written (cntr : nat) (w : nat -> option fl) (n : nat)
    (before table : list (option (list fl))) (x k : nat) :
  (forall x, table !! x = written cntr w n before x) ->
  sim_at table x k =
  match (if decide (x < n)%nat then w x else None) with
  | Some v => if decide (k = cntr) then
                (a ← before !! x; arr ← a;
                 if decide (cntr < length arr)%nat then Some v else None)
              else sim_at before x k
  | None => sim_at before x k
  end.
Proof.
  intros Hinv. unfold sim_at. rewrite Hinv. unfold written.
  destruct (if decide (x < n)%nat then w x else None) as [v|]; [|reflexivity].
  destruct (before !! x) as [[arr|]|]; simpl; try (now destruct (decide (k = cntr))).
  destruct (decide (k = cntr)) as [->|Hne].
  - destruct (decide (cntr < length arr)%nat).
    + now apply list_lookup_insert_eq.
    + apply lookup_ge_None_2. rewrite length_insert. lia.
  - apply list_lookup_insert_ne. congruence.
Qed.

Lemma appended_current (sel : gap_node -> list fl) (nodes : list gap_node) (cntr i : nat)
    (before table : list (option (list fl))) :
  (forall x, table !! x = appended sel nodes cntr i before x) -> table !! i = before !! i.
Proof.
  intros Hinv. rewrite Hinv. unfold appended.
  destruct (nodes !! i); [|reflexivity]. destruct (decide (i < i)%nat); [lia | reflexivity].
Qed.

Lemma appended_step (sel : gap_node -> list fl) (nodes : list gap_node) (cntr i : nat)
    (before table : list (option (list fl))) (r : gap_node) (o : option (list fl)) (v : fl) :
  (forall x, table !! x = appended sel nodes cntr i before x) ->
  nodes !! i = Some r -> is_consumer r = true ->
  before !! i = Some o -> sel r !! cntr = Some v ->
  forall x, <[i := Some (np_append o v)]> table !! x = appended sel nodes cntr (S i) before x.
Proof.
  intros Hinv Hr Hc Hb Hv x. unfold appended.
  destruct (decide (x = i)) as [->|Hne].
  - rewrite Hr, Hc, Hb, Hv. destruct (decide (i < S i)%nat); [|lia]. simpl.
    apply list_lookup_insert_eq. apply lookup_lt_is_Some_1.
    rewrite (appended_current _ _ _ _ _ _ Hinv), Hb. eauto.
  - rewrite list_lookup_insert_ne by congruence. rewrite Hinv. unfold appended.
    destruct (nodes !! x); [|reflexivity].
    destruct (decide (x < i)%nat), (decide (x < S i)%nat); try lia; reflexivity.
Qed.

Lemma appended_skip (sel : gap_node -> list fl) (nodes : list gap_node) (cntr i : nat)
    (before table : list (option (list fl))) (r : gap_node) :
  (forall x, table !! x = appended sel nodes cntr i before x) ->
  nodes !! i = Some r -> is_consumer r = false ->
  forall x, table !! x = appended sel nodes cntr (S i) before x.
Proof.
  intros Hinv Hr Hc x. rewrite Hinv. unfold appended.
  destruct (decide (x = i)) as [->|Hne].
  - rewrite Hr, Hc. destruct (decide (i < i)%nat), (decide (i < S i)%nat); try lia; reflexivity.
  - destruct (nodes !! x); [|reflexivity].
    destruct (decide (x < i)%nat), (decide (x < S i)%nat); try lia; reflexivity.
Qed.

Lemma init_loop_spec (nodes : list gap_node) (cntr : nat) (sim0 : sim_data) :
  step_data nodes cntr ->
  table_ready nodes cntr (sim_V_dot sim0) -> table_ready nodes cntr (sim_Q_dot sim0) ->
  exists sim1,
    foldl (init_node nodes cntr) (Ok sim0) (seq 0 (length nodes)) = Ok sim1 /\
    (forall x, sim_V_dot sim1 !! x =
               appended gn_V_dot nodes cntr (length nodes) (sim_V_dot sim0) x) /\
    (forall x, sim_Q_dot sim1 !! x =
               appended gn_Q_dot nodes cntr (length nodes) (sim_Q_dot sim0) x).
Proof.
  intros Hdata HV0 HQ0.
  apply (foldl_result_total
    (fun i sim =>
       (forall x, sim_V_dot sim !! x = appended gn_V_dot nodes cntr i (sim_V_dot sim0) x) /\
       (forall x, sim_Q_dot sim !! x = appended gn_Q_dot nodes cntr i (sim_Q_dot sim0) x))).
  - split; intros x; unfold appended; destruct (nodes !! x); try reflexivity;
      destruct (decide (x < 0)%nat); (lia || reflexivity).
  - intros i sim Hi [HV HQ].
    destruct (at_index_lt nodes i Hi) as (r & Hr & Er).
    unfold init_node. cbn [mbind result_bind]. rewrite Er. cbn [mbind result_bind].
    destruct (is_consumer r) eqn:Ec.
    + destruct (Hdata i r Hr Ec) as (_ & HlV & HlQ).
      destruct (at_index_lt _ _ HlV) as (v & Hv & Ev).
      destruct (at_index_lt _ _ HlQ) as (q & Hq & Eq).
      destruct (HV0 i r Hr Ec) as (a & Ha & _).
      destruct (HQ0 i r Hr Ec) as (b & Hb & _).
      assert (HVi : at_index (sim_V_dot sim) i = Ok (Some a)).
      { apply at_index_Some. rewrite (appended_current _ _ _ _ _ _ HV). exact Ha. }
      assert (HQi : at_index (sim_Q_dot sim) i = Ok (Some b)).
      { apply at_index_Some. rewrite (appended_current _ _ _ _ _ _ HQ). exact Hb. }
      rewrite Ev. cbn [mbind result_bind]. unfold append_value.
      rewrite HVi. cbn [mbind result_bind]. rewrite Eq. cbn [mbind result_bind].
      cbn [sim_Q_dot sim_V_dot]. rewrite HQi.
      cbn [mbind result_bind]. eexists. split; [reflexivity|].
      cbn [sim_V_dot sim_Q_dot]. split.
      * now apply (appended_step gn_V_dot nodes cntr i _ _ r (Some a) v).
      * now apply (appended_step gn_Q_dot nodes cntr i _ _ r (Some b) q).
    + exists sim. split; [reflexivity|].
      split; now apply (appended_skip _ nodes cntr i _ _ r).
Qed.

Lemma empty_sim_ready (nodes : list gap_node) :
  table_ready nodes 0 (sim_V_dot (empty_sim nodes)) /\
  table_ready nodes 0 (sim_Q_dot (empty_sim nodes)).
Proof.
  split; intros x r Hr Hc; exists []; (split; [|reflexivity]); simpl;
    rewrite list_lookup_fmap, Hr; simpl; now rewrite Hc.
Qed.

(** [init_sim_data]: every consumer's arrays grow by the measurements of
    the step; what they held stays. *)
Lemma init_sim_data_spec (nodes : list gap_node) (cntr : nat) (sim : sim_data) :
  step_data nodes cntr -> sim_ready nodes cntr sim ->
  exists sim1, init_sim_data nodes cntr sim = Ok sim1 /\
    table_ready nodes (S cntr) (sim_V_dot sim1) /\
    table_ready nodes (S cntr) (sim_Q_dot sim1) /\
    (forall x r, nodes !! x = Some r -> is_consumer r = true ->
       sim_at (sim_V_dot sim1) x cntr = gn_V_dot r !! cntr /\
       sim_at (sim_Q_dot sim1) x cntr = gn_Q_dot r !! cntr) /\
    (forall x k, (k < cntr)%nat ->
       sim_at (sim_V_dot sim1) x k = sim_at (sim_V_dot sim) x k /\
       sim_at (sim_Q_dot sim1) x k = sim_at (sim_Q_dot sim) x k).
Proof.
  intros Hdata Hready. unfold init_sim_data. cbv zeta.
  set (sim0 := if (cntr =? 0)%nat then empty_sim nodes else sim).
  assert (H0 : table_ready nodes cntr (sim_V_dot sim0) /\
               table_ready nodes cntr (sim_Q_dot sim0)).
  { subst sim0. destruct (Nat.eqb_spec cntr 0) as [->|Hne].
    - apply empty_sim_ready.
    - now apply Hready. }
  assert (Hhist : forall k, (k < cntr)%nat -> sim0 = sim).
  { intros k Hk. subst sim0. destruct (Nat.eqb_spec cntr 0); [lia | reflexivity]. }
  destruct H0 as [HV0 HQ0].
  destruct (init_loop_spec nodes cntr sim0 Hdata HV0 HQ0) as (sim1 & E1 & HV & HQ).
  exists sim1. split; [exact E1|].
  assert (Hcons : forall (sel : gap_node -> list fl) (t0 t1 : list (option (list fl))),
    table_ready nodes cntr t0 ->
    (forall x r, nodes !! x = Some r -> is_consumer r = true ->
       (cntr < length (sel r))%nat) ->
    (forall x, t1 !! x = appended sel nodes cntr (length nodes) t0 x) ->
    table_ready nodes (S cntr) t1 /\
    (forall x r, nodes !! x = Some r -> is_consumer r = true ->
       sim_at t1 x cntr = sel r !! cntr) /\
    (forall x k, (k < cntr)%nat -> sim_at t1 x k = sim_at t0 x k)).
  { intros sel t0 t1 Hr0 Hlen Ht. split_and!.
    - intros x r Hr Hc. destruct (Hr0 x r Hr Hc) as (a & Ha & Hla).
      destruct (lookup_lt_is_Some_2 _ _ (Hlen x r Hr Hc)) as [v Hv].
      exists (a ++ [v]). rewrite Ht. unfold appended. rewrite Hr, Hc, Ha, Hv.
      assert (x < length nodes)%nat by (apply lookup_lt_is_Some_1; eauto).
      destruct (decide (x < length nodes)%nat); [|lia]. simpl.
      split; [reflexivity|]. rewrite length_app. simpl. lia.
    - intros x r Hr Hc. destruct (Hr0 x r Hr Hc) as (a & Ha & Hla).
      destruct (lookup_lt_is_Some_2 _ _ (Hlen x r Hr Hc)) as [v Hv].
      unfold sim_at. rewrite Ht. unfold appended. rewrite Hr, Hc, Ha, Hv.
      assert (x < length nodes)%nat by (apply lookup_lt_is_Some_1; eauto).
      destruct (decide (x < length nodes)%nat); [|lia]. simpl.
      rewrite lookup_app_r by lia. now rewrite Hla, Nat.sub_diag.
    - intros x k Hk. unfold sim_at. rewrite Ht. unfold appended.
      destruct (nodes !! x) as [r|] eqn:Hr; [|reflexivity].
      destruct (decide (x < length nodes)%nat); [|reflexivity].
      destruct (is_consumer r) eqn:Hc; [|reflexivity].
      destruct (Hr0 x r Hr Hc) as (a & Ha & Hla).
      destruct (lookup_lt_is_Some_2 _ _ (Hlen x r Hr Hc)) as [v Hv].
      rewrite Ha, Hv. simpl. apply lookup_app_l. lia. }
  destruct (Hcons gn_V_dot _ _ HV0 (fun x r Hr Hc => proj1 (proj2 (Hdata x r Hr Hc))) HV)
    as (A1 & A2 & A3).
  destruct (Hcons gn_Q_dot _ _ HQ0 (fun x r Hr Hc => proj2 (proj2 (Hdata x r Hr Hc))) HQ)
    as (B1 & B2 & B3).
  split_and!; try assumption.
  - intros x r Hr Hc. split; [now apply A2 | now apply B2].
  - intros x k Hk. rewrite <- (Hhist k Hk). split; [now apply A3 | now apply B3].
Qed.

Lemma has_error_gap_at (r : gap_node) (cntr : nat) :
  (cntr < length (gn_error r))%nat -> has_error r cntr = Ok (gap_at r cntr).
Proof.
  intros Hl. unfold has_error, gap_at.
  destruct (at_index_lt _ _ Hl) as (e & He & Ee). now rewrite Ee, He.
Qed.

(** The first loop of [fill_mode_1] returns only if every consumer with an
    error flag has a maximum power. *)
Lemma add_max_error_powers (nodes : list gap_node) (cntr : nat) (total : Q) (n : nat) :
  step_data nodes cntr -> (n <= length nodes)%nat ->
  foldl (add_max_error nodes cntr) (Ok 0%Q) (seq 0 n) = Ok total ->
  forall x r, (x < n)%nat -> nodes !! x = Some r -> is_consumer r = true ->
    gap_at r cntr = true -> is_Some (gn_Q_dot_max r).
Proof.
  intros Hdata Hn.
  apply (foldl_result_ind
    (fun (i : nat) (s : Q) =>
       forall x r, (x < i)%nat -> nodes !! x = Some r -> is_consumer r = true ->
         gap_at r cntr = true -> is_Some (gn_Q_dot_max r)) (add_max_error nodes cntr)).
  - reflexivity.
  - intros x r Hx. lia.
  - intros i s s' Hi IH. unfold add_max_error. cbn [mbind result_bind].
    destruct (at_index_lt nodes i ltac:(lia)) as (ri & Hri & Eri). rewrite Eri.
    cbn [mbind result_bind]. intros Hstep x r Hx Hr Hc Hg.
    destruct (decide (x = i)) as [->|Hne]; [|apply (IH x r); (lia || assumption)].
    assert (r = ri) as -> by congruence.
    rewrite Hc in Hstep.
    rewrite (has_error_gap_at ri cntr) in Hstep by (apply (Hdata i ri Hri Hc)).
    cbn [mbind result_bind] in Hstep. rewrite Hg in Hstep.
    destruct (gn_Q_dot_max ri); [eauto | discriminate].
Qed.

(** The volumes written sum to the gap of the balance. *)
Lemma shares_sum (nodes : list gap_node) (cntr : nat) (delta total : Q) (sim : sim_data)
    (n : nat) :
  step_data nodes cntr -> (n <= length nodes)%nat ->
  (forall x r, nodes !! x = Some r -> is_consumer r = true -> gap_at r cntr = true ->
     sim_at (sim_V_dot sim) x cntr = share nodes cntr delta total x) ->
  (forall x r, nodes !! x = Some r -> is_consumer r = true -> gap_at r cntr = true ->
     is_Some (gn_Q_dot_max r)) ->
  ~ (total == 0)%Q ->
  exists t s, foldl (gap_volume nodes cntr sim) (Some 0%Q) (seq 0 n) = Some t /\
              foldl (add_max_error nodes cntr) (Ok 0%Q) (seq 0 n) = Ok s /\
              (t * total == delta * s)%Q.
Proof.
  intros Hdata Hn Hsim Hmax Htot. induction n as [|n IH].
  - exists 0%Q, 0%Q. split_and!; [reflexivity.. | ring].
  - destruct IH as (t & s & Et & Es & Hts); [lia|].
    destruct (at_index_lt nodes n ltac:(lia)) as (r & Hr & Er).
    rewrite !seq_S, !foldl_app. simpl foldl at 1 3. rewrite Et, Es.
    unfold gap_volume, add_max_error. cbn [mbind result_bind option_bind].
    rewrite Hr, Er. cbn [mbind result_bind].
    destruct (is_consumer r) eqn:Hc; [|exists t, s; split_and!; [reflexivity.. | exact Hts]].
    rewrite (has_error_gap_at r cntr) by (apply (Hdata n r Hr Hc)).
    cbn [mbind result_bind andb].
    destruct (gap_at r cntr) eqn:Hg; [|exists t, s; split_and!; [reflexivity.. | exact Hts]].
    destruct (Hmax n r Hr Hc Hg) as [qm Hqm].
    rewrite (Hsim n r Hr Hc Hg). unfold share. rewrite Hr, Hc, Hg, Hqm. simpl.
    eexists _, _. split_and!; [reflexivity.. |].
    assert (E : ((t + delta * qm / total) * total == t * total + delta * qm)%Q)
      by (field; exact Htot).
    rewrite E, Hts. ring.
Qed.

Lemma distribute_loop_spec (vg : var_gaps) (nodes : list gap_node) (cntr : nat)
    (delta total : Q) (sim1 : sim_data) :
  step_data nodes cntr ->
  table_ready nodes (S cntr) (sim_V_dot sim1) ->
  table_ready nodes (S cntr) (sim_Q_dot sim1) ->
  (forall x r, nodes !! x = Some r -> is_consumer r = true -> gn_gapfilling_node r <> 1) ->
  (forall x r, nodes !! x = Some r -> is_consumer r = true -> gap_at r cntr = true ->
     is_Some (gn_Q_dot_max r)) ->
  (0 < total)%Q ->
  exists sim', foldl (distribute vg nodes cntr delta total) (Ok sim1)
                 (seq 0 (length nodes)) = Ok sim' /\
    (forall x, sim_V_dot sim' !! x =
       written cntr (share nodes cntr delta total) (length nodes) (sim_V_dot sim1) x) /\
    (forall x, sim_Q_dot sim' !! x =
       written cntr (share_heat vg nodes cntr delta total) (length nodes) (sim_Q_dot sim1) x).
Proof.
  intros Hdata HV HQ Hdummy Hmax Htot.
  apply write_loop_spec. intros sim x Hx _ _.
  destruct (at_index_lt nodes x Hx) as (r & Hr & Er).
  unfold distribute, share, share_heat. cbn [mbind result_bind]. rewrite Er, Hr.
  cbn [mbind result_bind].
  destruct (is_consumer r) eqn:Hc; [|right; split_and!; reflexivity].
  destruct (Z.eqb_spec (gn_gapfilling_node r) 1) as [E|_]; [now destruct (Hdummy x r Hr Hc)|].
  rewrite (has_error_gap_at r cntr) by (apply (Hdata x r Hr Hc)).
  cbn [mbind result_bind andb].
  destruct (gap_at r cntr) eqn:Hg; [|right; split_and!; reflexivity].
  destruct (Hmax x r Hr Hc Hg) as [qm Hqm]. rewrite Hqm.
  assert (Hlt : Qlt_bool 0 total = true).
  { unfold Qlt_bool. apply negb_true_iff. apply not_true_iff_false.
    intros H. apply Qle_bool_iff in H. lra. }
  rewrite Hlt. left. eexists _, _. split; [reflexivity|]. split; [reflexivity|].
  split; [reflexivity|].
  destruct (HV x r Hr Hc) as (a & Ha & Hla). destruct (HQ x r Hr Hc) as (b & Hb & Hlb).
  exists a, b. split_and!; (assumption || lia).
Qed.

(** [fill_mode_1] with an open balance: the volume missing in the balance is
    divided among the consumers with an error flag in proportion to their
    maximum powers, so that their simulated volume flows add up to
    [balance.delta_V_dot[cntr]]; the consumers without a flag keep their
    measurement and the earlier steps their values. *)
Theorem fill_mode_1_closes_balance (vg : var_gaps) (nodes : list gap_node) (cntr : nat)
    (delta total : Q) (sim : sim_data) :
  step_data nodes cntr -> sim_ready nodes cntr sim ->
  (0 < delta)%Q ->
  (forall x r, nodes !! x = Some r -> is_consumer r = true -> gn_gapfilling_node r <> 1) ->
  foldl (add_max_error nodes cntr) (Ok 0%Q) (seq 0 (length nodes)) = Ok total ->
  (0 < total)%Q ->
  exists sim', fill_mode_1 vg nodes cntr (Some delta) sim = Ok sim' /\
    (exists filled, total_gap_volume nodes cntr sim' = Some filled /\ (filled == delta)%Q) /\
    (forall x r, nodes !! x = Some r -> is_consumer r = true -> gap_at r cntr = false ->
       sim_at (sim_V_dot sim') x cntr = gn_V_dot r !! cntr /\
       sim_at (sim_Q_dot sim') x cntr = gn_Q_dot r !! cntr) /\
    (forall x k, (k < cntr)%nat ->
       sim_at (sim_V_dot sim') x k = sim_at (sim_V_dot sim) x k /\
       sim_at (sim_Q_dot sim') x k = sim_at (sim_Q_dot sim) x k).
Proof.
  intros Hdata Hready Hdelta Hdummy Hsum Htot.
  destruct (init_sim_data_spec nodes cntr sim Hdata Hready)
    as (sim1 & E1 & HV1 & HQ1 & Hmeas & Hhist).
  pose proof (add_max_error_powers nodes cntr total (length nodes) Hdata (le_n _) Hsum) as Hmax0.
  assert (Hmax : forall x r, nodes !! x = Some r -> is_consumer r = true ->
            gap_at r cntr = true -> is_Some (gn_Q_dot_max r)).
  { intros x r Hr. apply (Hmax0 x r); [|exact Hr]. apply lookup_lt_is_Some_1. eauto. }
  destruct (distribute_loop_spec vg nodes cntr delta total sim1 Hdata HV1 HQ1 Hdummy Hmax Htot)
    as (sim' & E' & HV' & HQ').
  exists sim'. split_and!.
  - unfold fill_mode_1. rewrite E1. cbn [mbind result_bind].
    assert (Hlt : Qlt_bool 0 delta = true).
    { unfold Qlt_bool. apply negb_true_iff. apply not_true_iff_false.
      intros H. apply Qle_bool_iff in H. lra. }
    rewrite Hlt, Hsum. cbn [mbind result_bind]. exact E'.
  - destruct (shares_sum nodes cntr delta total sim' (length nodes) Hdata (le_n _))
      as (t & s & Et & Es & Hts).
    + intros x r Hr Hc Hg. rewrite (sim_at_written _ _ _ _ _ x cntr HV').
      assert (Hx : (x < length nodes)%nat) by (apply lookup_lt_is_Some_1; eauto).
      destruct (decide (x < length nodes)%nat); [|lia].
      destruct (share nodes cntr delta total x) as [v|] eqn:Es.
      * destruct (decide (cntr = cntr)); [|congruence].
        destruct (HV1 x r Hr Hc) as (a & Ha & Hla). rewrite Ha. simpl.
        destruct (decide (cntr < length a)%nat); [reflexivity | lia].
      * exfalso. unfold share in Es. rewrite Hr, Hc, Hg in Es. simpl in Es.
        destruct (Hmax x r Hr Hc Hg) as [qm Hqm]. rewrite Hqm in Es. discriminate.
    + exact Hmax.
    + intros H. lra.
    + rewrite Hsum in Es. injection Es as <-.
      exists t. split; [exact Et|].
      apply (Qmult_inj_r _ _ total); [intros H; lra | exact Hts].
  - intros x r Hr Hc Hg.
    rewrite (sim_at_written _ _ _ _ _ x cntr HV'), (sim_at_written _ _ _ _ _ x cntr HQ').
    unfold share, share_heat. rewrite Hr, Hc, Hg. simpl.
    destruct (decide (x < length nodes)%nat); now apply Hmeas.
  - intros x k Hk.
    rewrite (sim_at_written _ _ _ _ _ x k HV'), (sim_at_written _ _ _ _ _ x k HQ').
    destruct (if decide (x < length nodes)%nat then share nodes cntr delta total x else None);
    destruct (if decide (x < length nodes)%nat then share_heat vg nodes cntr delta total x
              else None);
    try (destruct (decide (k = cntr)); [lia|]); now apply Hhist.
Qed.

Lemma fill_mode_1_closes_balance_witness :
  exists sim', fill_mode_1 Example_var_gaps Example_gap_nodes 1 (Some 2%Q)
                 {| sim_V_dot := [None; Some [Some 1%Q]; Some [Some 2%Q]; Some [Some 3%Q]];
                    sim_Q_dot := [None; Some [Some 40%Q]; Some [Some 80%Q]; Some [Some 90%Q]] |}
               = Ok sim' /\
    exists filled, total_gap_volume Example_gap_nodes 1 sim' = Some filled /\ (filled == 2)%Q.
Proof.
  destruct (fill_mode_1_closes_balance Example_var_gaps Example_gap_nodes 1 2 40
              {| sim_V_dot := [None; Some [Some 1%Q]; Some [Some 2%Q]; Some [Some 3%Q]];
                 sim_Q_dot := [None; Some [Some 40%Q]; Some [Some 80%Q]; Some [Some 90%Q]] |})
    as (sim' & E & Hsum & _).
  - intros x r Hr Hc. destruct x as [|[|[|[|x]]]]; inversion Hr; subst;
      try discriminate; simpl; lia.
  - intros _. split; intros x r Hr Hc; destruct x as [|[|[|[|x]]]]; inversion Hr; subst;
      try discriminate; eexists; (split; [reflexivity|reflexivity]).
  - reflexivity.
  - intros x r Hr Hc. destruct x as [|[|[|[|x]]]]; inversion Hr; subst;
      try discriminate; simpl; lia.
  - vm_compute. reflexivity.
  - reflexivity.
  - exists sim'. split; [exact E | exact Hsum].
Defined.

Example fill_mode_1_example :
  (sim ← fill_mode_1 Example_var_gaps Example_gap_nodes 1 (Some 2%Q)
           {| sim_V_dot := [None; Some [Some 1%Q]; Some [Some 2%Q]; Some [Some 3%Q]];
              sim_Q_dot := [None; Some [Some 40%Q]; Some [Some 80%Q]; Some [Some 90%Q]] |};
   Ok (sim_V_dot sim)) =
  Ok [None; Some [Some 1%Q; Some (2 * 30 / 40)%Q]; Some [Some 2%Q; Some (2 * 10 / 40)%Q];
      Some [Some 3%Q; Some 4%Q]].
Proof. reflexivity. Qed.

Lemma get_value_sim_at (table : list (option (list fl))) (x i : nat) (arr : list fl) :
  table !! x = Some (Some arr) -> (i < length arr)%nat ->
  exists v, sim_at table x i = Some v /\ get_value table x i = Ok v.
Proof.
  intros Hx Hi. destruct (at_index_lt arr i Hi) as (v & Hv & Ev).
  exists v. unfold sim_at, get_value. rewrite Hx, (at_index_Some _ _ _ Hx). simpl.
  split; [exact Hv | exact Ev].
Qed.

Lemma carry_loop_spec (nodes : list gap_node) (cntr : nat) (sim1 : sim_data) :
  cntr <> 0%nat -> step_data nodes cntr ->
  table_ready nodes (S cntr) (sim_V_dot sim1) ->
  table_ready nodes (S cntr) (sim_Q_dot sim1) ->
  exists sim', foldl (carry_last nodes cntr) (Ok sim1) (seq 0 (length nodes)) = Ok sim' /\
    (forall x, sim_V_dot sim' !! x =
       written cntr (carried nodes cntr (sim_V_dot sim1)) (length nodes) (sim_V_dot sim1) x) /\
    (forall x, sim_Q_dot sim' !! x =
       written cntr (carried nodes cntr (sim_Q_dot sim1)) (length nodes) (sim_Q_dot sim1) x).
Proof.
  intros Hcntr Hdata HV HQ.
  apply write_loop_spec. intros sim x Hx EV EQ.
  destruct (at_index_lt nodes x Hx) as (r & Hr & Er).
  unfold carry_last, carried. cbn [mbind result_bind]. rewrite Er, Hr.
  cbn [mbind result_bind].
  destruct (is_consumer r) eqn:Hc; [|right; split_and!; reflexivity].
  rewrite (has_error_gap_at r cntr) by (apply (Hdata x r Hr Hc)).
  cbn [mbind result_bind andb]. fold (held r cntr).
  destruct (held r cntr) eqn:Hh; [|right; split_and!; reflexivity].
  destruct (Nat.eqb_spec cntr 0) as [?|_]; [contradiction|].
  destruct (HV x r Hr Hc) as (a & Ha & Hla). destruct (HQ x r Hr Hc) as (b & Hb & Hlb).
  destruct (get_value_sim_at _ x (cntr - 1) a Ha ltac:(lia)) as (v & Sv & Gv).
  destruct (get_value_sim_at _ x (cntr - 1) b Hb ltac:(lia)) as (q & Sq & Gq).
  left. exists v, q. split; [exact Sv|]. split; [exact Sq|]. split.
  - assert (GV : get_value (sim_V_dot sim) x (cntr - 1) = Ok v).
    { unfold get_value, at_index in *. rewrite EV. exact Gv. }
    assert (GQ : get_value (sim_Q_dot sim) x (cntr - 1) = Ok q).
    { unfold get_value, at_index in *. rewrite EQ. exact Gq. }
    rewrite GV. cbn [mbind result_bind]. unfold write_sim.
    destruct (set_value (sim_V_dot sim) x cntr v); cbn [mbind result_bind]; [|reflexivity].
    rewrite GQ. reflexivity.
  - exists a, b. split_and!; (assumption || lia).
Qed.

(** One call of [fill_mode_2] after the first step. *)
Lemma fill_mode_2_step (nodes : list gap_node) (cntr : nat) (sim : sim_data) :
  cntr <> 0%nat -> step_data nodes cntr ->
  table_ready nodes cntr (sim_V_dot sim) -> table_ready nodes cntr (sim_Q_dot sim) ->
  exists sim', fill_mode_2 nodes cntr sim = Ok sim' /\
    table_ready nodes (S cntr) (sim_V_dot sim') /\
    table_ready nodes (S cntr) (sim_Q_dot sim') /\
    (forall x r, nodes !! x = Some r -> is_consumer r = true ->
       sim_at (sim_V_dot sim') x cntr =
         (if held r cntr then sim_at (sim_V_dot sim) x (cntr - 1) else gn_V_dot r !! cntr) /\
       sim_at (sim_Q_dot sim') x cntr =
         (if held r cntr then sim_at (sim_Q_dot sim) x (cntr - 1) else gn_Q_dot r !! cntr)) /\
    (forall x k, (k < cntr)%nat ->
       sim_at (sim_V_dot sim') x k = sim_at (sim_V_dot sim) x k /\
       sim_at (sim_Q_dot sim') x k = sim_at (sim_Q_dot sim) x k).
Proof.
  intros Hcntr Hdata HV0 HQ0.
  destruct (init_sim_data_spec nodes cntr sim Hdata (fun _ => conj HV0 HQ0))
    as (sim1 & E1 & HV1 & HQ1 & Hmeas & Hhist).
  destruct (carry_loop_spec nodes cntr sim1 Hcntr Hdata HV1 HQ1) as (sim' & E' & HV' & HQ').
  exists sim'.
  assert (Htab : forall (t1 t' : list (option (list fl))),
    table_ready nodes (S cntr) t1 ->
    (forall x, t' !! x = written cntr (carried nodes cntr t1) (length nodes) t1 x) ->
    table_ready nodes (S cntr) t' /\
    (forall x r, nodes !! x = Some r -> is_consumer r = true ->
       sim_at t' x cntr =
         if held r cntr then sim_at t1 x (cntr - 1) else sim_at t1 x cntr) /\
    (forall x k, (k < cntr)%nat -> sim_at t' x k = sim_at t1 x k)).
  { intros t1 t' Hr1 Ht. split_and!.
    - intros x r Hr Hc. destruct (Hr1 x r Hr Hc) as (a & Ha & Hla).
      rewrite Ht. unfold written.
      destruct (if decide (x < length nodes)%nat then carried nodes cntr t1 x else None).
      + rewrite Ha. simpl. eexists. split; [reflexivity|]. now rewrite length_insert.
      + now exists a.
    - intros x r Hr Hc. rewrite (sim_at_written _ _ _ _ _ x cntr Ht).
      assert (Hx : (x < length nodes)%nat) by (apply lookup_lt_is_Some_1; eauto).
      destruct (decide (x < length nodes)%nat); [|lia].
      destruct (Hr1 x r Hr Hc) as (a & Ha & Hla).
      unfold carried. rewrite Hr, Hc. cbn [andb].
      destruct (held r cntr); [|reflexivity].
      destruct (get_value_sim_at _ x (cntr - 1) a Ha ltac:(lia)) as (v & Sv & _).
      rewrite Sv. destruct (decide (cntr = cntr)); [|congruence].
      rewrite Ha. simpl. destruct (decide (cntr < length a)%nat); [reflexivity | lia].
    - intros x k Hk. rewrite (sim_at_written _ _ _ _ _ x k Ht).
      destruct (if decide (x < length nodes)%nat then carried nodes cntr t1 x else None);
        [|reflexivity].
      destruct (decide (k = cntr)); [lia | reflexivity]. }
  destruct (Htab _ _ HV1 HV') as (A1 & A2 & A3).
  destruct (Htab _ _ HQ1 HQ') as (B1 & B2 & B3).
  split_and!; try assumption.
  - unfold fill_mode_2. rewrite E1. exact E'.
  - intros x r Hr Hc. rewrite (A2 x r Hr Hc), (B2 x r Hr Hc).
    destruct (Hmeas x r Hr Hc) as [MV MQ].
    destruct (held r cntr).
    + split; [apply Hhist | apply Hhist]; lia.
    + split; assumption.
  - intros x k Hk. rewrite (A3 x k Hk), (B3 x k Hk). now apply Hhist.
Qed.

Lemma carry_first_ok (nodes : list gap_node) (sim1 sim' : sim_data) (n : nat) :
  (n <= length nodes)%nat ->
  foldl (carry_last nodes 0) (Ok sim1) (seq 0 n) = Ok sim' ->
  forall x r, (x < n)%nat -> nodes !! x = Some r -> is_consumer r = true ->
    held r 0 = false.
Proof.
  intros Hn.
  apply (foldl_result_ind
    (fun (i : nat) (s : sim_data) =>
       forall x r, (x < i)%nat -> nodes !! x = Some r -> is_consumer r = true ->
         held r 0 = false) (carry_last nodes 0)).
  - reflexivity.
  - intros x r Hx. lia.
  - intros i s s' Hi IH. unfold carry_last. cbn [mbind result_bind].
    destruct (at_index_lt nodes i ltac:(lia)) as (ri & Hri & Eri). rewrite Eri.
    cbn [mbind result_bind]. intros Hstep x r Hx Hr Hc.
    destruct (decide (x = i)) as [->|Hne]; [|apply (IH x r); (lia || assumption)].
    assert (r = ri) as -> by congruence. rewrite Hc in Hstep.
    unfold held, gap_at. unfold has_error, at_index in Hstep.
    destruct (gn_error ri !! 0%nat) as [e|]; [|discriminate].
    cbn [mbind result_bind] in Hstep.
    destruct (contains "FEHLER" e && (gn_gapfilling_node ri =? 0)); [|reflexivity].
    discriminate.
Qed.

Lemma carry_first_spec (nodes : list gap_node) (sim1 : sim_data) :
  step_data nodes 0 ->
  (forall x r, nodes !! x = Some r -> is_consumer r = true -> held r 0 = false) ->
  foldl (carry_last nodes 0) (Ok sim1) (seq 0 (length nodes)) = Ok sim1.
Proof.
  intros Hdata Hfree.
  destruct (foldl_result_total (fun (i : nat) (s : sim_data) => s = sim1)
              (carry_last nodes 0) sim1 (length nodes)) as (r & Er & ->);
    [reflexivity | | exact Er].
  intros i s Hi ->. exists sim1. split; [|reflexivity].
  destruct (at_index_lt nodes i Hi) as (r & Hr & Er).
  unfold carry_last. cbn [mbind result_bind]. rewrite Er. cbn [mbind result_bind].
  destruct (is_consumer r) eqn:Hc; [|reflexivity].
  rewrite (has_error_gap_at r 0) by (apply (Hdata i r Hr Hc)).
  cbn [mbind result_bind]. fold (held r 0). now rewrite (Hfree i r Hr Hc).
Qed.

(** Gap-filling mode 2 over the time steps: every consumer's simulated
    values at a step are its measurements of the last step up to there at
    which it had no error flag (a dummy node keeps its own measurements),
    provided no consumer starts with a gap. *)
Theorem fill_mode_2_carries_last_value (nodes : list gap_node) (n : nat) :
  (forall cntr, (cntr < n)%nat -> step_data nodes cntr) ->
  (forall x r, nodes !! x = Some r -> is_consumer r = true -> held r 0 = false) ->
  exists sim, fill_mode_2_steps nodes n = Ok sim /\
    forall x r, nodes !! x = Some r -> is_consumer r = true ->
    forall k, (k < n)%nat ->
    exists j, (j <= k)%nat /\ held r j = false /\
      (forall i, (j < i <= k)%nat -> held r i = true) /\
      sim_at (sim_V_dot sim) x k = gn_V_dot r !! j /\
      sim_at (sim_Q_dot sim) x k = gn_Q_dot r !! j.
Proof.
  intros Hdata Hfree.
  assert (Hinv : exists sim, fill_mode_2_steps nodes n = Ok sim /\
    table_ready nodes n (sim_V_dot sim) /\ table_ready nodes n (sim_Q_dot sim) /\
    forall x r, nodes !! x = Some r -> is_consumer r = true ->
    forall k, (k < n)%nat ->
    exists j, (j <= k)%nat /\ held r j = false /\
      (forall i, (j < i <= k)%nat -> held r i = true) /\
      sim_at (sim_V_dot sim) x k = gn_V_dot r !! j /\
      sim_at (sim_Q_dot sim) x k = gn_Q_dot r !! j).
  { induction n as [|n IH].
    - exists (empty_sim nodes). split; [reflexivity|].
      destruct (empty_sim_ready nodes) as [HV HQ]. split_and!; try assumption.
      intros x r _ _ k Hk. lia.
    - destruct IH as (sim & Es & HV & HQ & Hval); [intros c Hc; apply Hdata; lia|].
      unfold fill_mode_2_steps in *. rewrite seq_S, foldl_app. simpl. rewrite Es.
      cbn [mbind result_bind].
      destruct (decide (n = 0%nat)) as [->|Hn].
      + destruct (init_sim_data_spec nodes 0 sim (Hdata 0%nat ltac:(lia)))
          as (sim1 & E1 & HV1 & HQ1 & Hmeas & _); [intros H; congruence|].
        exists sim1. split_and!; try assumption.
        * unfold fill_mode_2. rewrite E1. cbn [mbind result_bind].
          apply carry_first_spec; [apply Hdata; lia | exact Hfree].
        * intros x r Hr Hc k Hk. assert (k = 0)%nat as -> by lia.
          exists 0%nat. split; [lia|]. split; [now apply (Hfree x r)|].
          split; [intros i Hi; lia|]. now apply Hmeas.
      + destruct (fill_mode_2_step nodes n sim Hn (Hdata n ltac:(lia)) HV HQ)
          as (sim' & E' & HV' & HQ' & Hnew & Hold).
        exists sim'. split_and!; try assumption.
        intros x r Hr Hc k Hk.
        destruct (decide (k = n)) as [->|Hkn].
        * destruct (Hnew x r Hr Hc) as [NV NQ]. rewrite NV, NQ.
          destruct (held r n) eqn:Hh.
          -- destruct (Hval x r Hr Hc (n - 1)%nat ltac:(lia))
               as (j & Hj & Hhj & Hbetween & EV & EQ).
             exists j. split; [lia|]. split; [exact Hhj|]. split; [|split; assumption].
             intros i Hi. destruct (decide (i = n)) as [->|Hin]; [exact Hh|].
             apply Hbetween. lia.
          -- exists n. split; [lia|]. split; [exact Hh|]. split; [intros i Hi; lia|].
             split; reflexivity.
        * destruct (Hold x k ltac:(lia)) as [OV OQ]. rewrite OV, OQ.
          apply (Hval x r Hr Hc k). lia. }
  destruct Hinv as (sim & Es & _ & _ & Hval). exists sim. split; assumption.
Qed.

Lemma fill_mode_2_carries_last_value_witness :
  exists sim, fill_mode_2_steps Example_gap_nodes 2 = Ok sim /\
    forall x r, Example_gap_nodes !! x = Some r -> is_consumer r = true ->
    forall k, (k < 2)%nat ->
    exists j, (j <= k)%nat /\ held r j = false /\
      (forall i, (j < i <= k)%nat -> held r i = true) /\
      sim_at (sim_V_dot sim) x k = gn_V_dot r !! j /\
      sim_at (sim_Q_dot sim) x k = gn_Q_dot r !! j.
Proof.
  apply (fill_mode_2_carries_last_value Example_gap_nodes 2).
  - intros cntr Hcntr x r Hr Hc. destruct x as [|[|[|[|x]]]]; inversion Hr; subst;
      try discriminate; simpl; lia.
  - intros x r Hr Hc. destruct x as [|[|[|[|x]]]]; inversion Hr; subst;
      try discriminate; reflexivity.
Defined.

Example fill_mode_2_example :
  (sim ← fill_mode_2_steps Example_gap_nodes 2; Ok (sim_V_dot sim)) =
  Ok [None; Some [Some 1%Q; Some 1%Q]; Some [Some 2%Q; Some 2%Q]; Some [Some 3%Q; Some 4%Q]].
Proof. reflexivity. Qed.

(** A consumer whose series starts with a gap stops gap-filling mode 2 at
    the first step: no run of one or more steps returns. *)
Theorem fill_mode_2_first_step_gap (nodes : list gap_node) (n x : nat) (r : gap_node) :
  nodes !! x = Some r -> is_consumer r = true -> held r 0 = true -> (0 < n)%nat ->
  exists msg, fill_mode_2_steps nodes n = Raised msg.
Proof.
  intros Hr Hc Hh Hn.
  assert (H1 : exists msg, fill_mode_2_steps nodes 1 = Raised msg).
  { unfold fill_mode_2_steps. simpl. unfold fill_mode_2.
    destruct (init_sim_data nodes 0 (empty_sim nodes)) as [sim1|msg] eqn:E1;
      cbn [mbind result_bind]; [|eauto].
    destruct (foldl (carry_last nodes 0) (Ok sim1) (seq 0 (length nodes)))
      as [sim'|msg] eqn:E'; [|eauto].
    pose proof (carry_first_ok nodes sim1 sim' (length nodes) (le_n _) E' x r) as Hno.
    rewrite Hno in Hh; [discriminate| |exact Hr|exact Hc].
    apply lookup_lt_is_Some_1. eauto. }
  destruct H1 as [msg H1]. exists msg.
  destruct n as [|n]; [lia|]. clear Hn. induction n as [|n IH]; [exact H1|].
  unfold fill_mode_2_steps in *. rewrite seq_S, foldl_app, IH. reflexivity.
Qed.

Lemma fill_mode_2_first_step_gap_witness :
  exists msg,
    fill_mode_2_steps
      [ {| gn_cons := Some "A"; gn_error := ["FEHLER_m"; "OKAY_m"];
           gn_V_dot := [None; Some 1%Q]; gn_Q_dot := [None; Some 40%Q];
           gn_gapfilling_node := 0; gn_Q_dot_max := Some 30%Q; gn_kWh_m3 := None |} ] 2
    = Raised msg.
Proof.
  apply (fill_mode_2_first_step_gap _ 2 0
           {| gn_cons := Some "A"; gn_error := ["FEHLER_m"; "OKAY_m"];
              gn_V_dot := [None; Some 1%Q]; gn_Q_dot := [None; Some 40%Q];
              gn_gapfilling_node := 0; gn_Q_dot_max := Some 30%Q; gn_kWh_m3 := None |});
    [reflexivity | reflexivity | reflexivity | lia].
Defined.
